(** * SemanticFusion: the probability table, its summary cache and the export

    A shallow embedding of [SemanticFusionInterface.cpp], of [main.cpp] and
    of the image code of [Gui.cpp], with the properties the specification
    states about them and further properties of the code.

    Conventions.
    - A [std::vector<T>] or a raw [float*] buffer is a [list]; a read is
      stdpp's lookup [!!], a write is stdpp's insert [<[i:=x]>].  Reading or
      writing past the end is undefined behaviour in C++; the model then
      leaves the buffer unchanged and says so at each place.
    - [int] values are [Z]; no operation below comes near the 32-bit range
      unless stated.
    - [float] is IEEE-754 binary32, modelled by the Standard Library's
      [spec_float] with precision 24 and maximal exponent 128.  Where a
      property holds up to rounding only, a [float] is read as the real
      number it denotes.  [double] is binary64: precision 53 and maximal
      exponent 1024. *)

From Stdlib Require Import ZArith Lia Floats.SpecFloat Reals Lra Psatz Ascii.
From stdpp Require Import numbers base list sorting strings.

Open Scope Z_scope.

(** ** Buffers indexed by [int] *)

(** [p[k]] as an rvalue and [p[k] = x] for a buffer [p] and an [int] index.
    Outside the buffer, before or behind it, the access is undefined
    behaviour: [load] has no value there and [store] changes nothing. *)
Definition load {A} (p : list A) (k : Z) : option A :=
  if decide (0 ≤ k) then p !! Z.to_nat k else None.

Definition store {A} (p : list A) (k : Z) (x : A) : list A :=
  if decide (0 ≤ k) then <[Z.to_nat k := x]> p else p.

(** ** [remove_index]: compaction of a vector *)

Module RemoveIndex.
Section remove_index.
Context {T : Type}.

(** [std::move(first, last, d_first)] on iterators of one vector:
    element by element, in ascending order, each source element is
    assigned to the destination and both iterators advance.
    [n] is the number of elements still to move.  An element whose source
    lies past the end stops the loop (undefined behaviour in C++). *)
Fixpoint std_move_n (n : nat) (v : list T) (first d_first : nat) : list T :=
  match n with
  | O => v
  | S n' =>
      match v !! first with
      | Some x => std_move_n n' (<[d_first := x]> v) (S first) (S d_first)
      | None => v
      end
  end.

(** The iterators are [vector_base + k] for integers [k]; a negative
    offset is undefined behaviour and leaves the vector unchanged here, and
    so does [last < first]. *)
Definition std_move (v : list T) (first last d_first : Z) : list T :=
  if decide (0 ≤ first ∧ 0 ≤ d_first)
  then std_move_n (Z.to_nat (last - first)) v (Z.to_nat first) (Z.to_nat d_first)
  else v.

(** The [for] loop of [remove_index]: [to_remove] is the part of the
    deletion vector from [iter] on, [down_by] the loop counter. *)
Fixpoint remove_loop (v : list T) (to_remove : list Z) (down_by : Z) : list T :=
  match to_remove with
  | [] => v
  | it :: rest =>
      let next := match rest with
                  | [] => Z.of_nat (length v)
                  | n :: _ => n
                  end in
      remove_loop (std_move v (it + 1) next (it - down_by)) rest (down_by + 1)
  end.

(** [remove_index(vector, to_remove)].  [vector.size() - to_remove.size()]
    is an unsigned subtraction: with more deletions than elements it wraps
    and [resize] throws; that is [None]. *)
Definition remove_index (v : list T) (to_remove : list Z) : option (list T) :=
  let v' := remove_loop v to_remove 0 in
  if decide (length to_remove ≤ length v)%nat
  then Some (take (length v - length to_remove)%nat v')
  else None.

(** What compaction is meant to compute: the elements of [v], in order,
    whose index (counted from [i]) is not in [D]. *)
Fixpoint survivors_from (i : Z) (v : list T) (D : list Z) : list T :=
  match v with
  | [] => []
  | x :: v' =>
      if decide (i ∈ D) then survivors_from (i + 1) v' D
      else x :: survivors_from (i + 1) v' D
  end.

Definition survivors (v : list T) (D : list Z) : list T := survivors_from 0 v D.

(** The number of deletions that precede index [i]. *)
Definition preceding (D : list Z) (i : Z) : nat :=
  length (filter (λ d, d < i) D).

(** The hypothesis of the compaction contract: ascending without
    repetition, every index inside the table. *)
Definition deletion_set (D : list Z) (width : nat) : Prop :=
  StronglySorted Z.lt D ∧ Forall (λ d, 0 ≤ d < Z.of_nat width) D.
End remove_index.
End RemoveIndex.

(** ** The arithmetic of [float] *)

(** The operations the source applies to [float] values.  The code is
    written over this interface; [binary32] is what the compiled program
    computes. *)
Class FloatOps (F : Type) := {
  f_zero : F;                      (* the literal 0.0 *)
  f_one : F;                       (* the literal 1.0 *)
  f_add : F → F → F;
  f_mul : F → F → F;
  f_div : F → F → F;
  f_lt : F → F → bool;             (* a < b *)
  f_le : F → F → bool;             (* a <= b *)
  f_to_int : F → Z;                (* conversion float -> int *)
  f_of_int : Z → F;                (* conversion int -> float *)
}.

Definition f_gt `{FloatOps F} (a b : F) : bool := f_lt b a.   (* a > b *)
Definition f_ge `{FloatOps F} (a b : F) : bool := f_le b a.   (* a >= b *)

Module Float32.
Definition prec : Z := 24.
Definition emax : Z := 128.

Abbreviation float32 := spec_float.

(** The binary32 value nearest to [m * 2^e]. *)
Definition of_Z2 (m e : Z) : float32 := binary_normalize prec emax m e false.

Definition NaN : float32 := S754_nan.
Definition zero : float32 := S754_zero false.
Definition one : float32 := of_Z2 1 0.

Definition INT_MIN : Z := - 2 ^ 31.

(** Conversion to [int] truncates towards zero.  It is undefined in C++
    for NaN, the infinities and values outside the [int] range; the x86
    conversion instruction yields [INT_MIN] there, and so does the model. *)
Definition to_int (x : float32) : Z :=
  match x with
  | S754_zero _ => 0
  | S754_finite s m e =>
      let mag := if decide (0 ≤ e) then Z.pos m * 2 ^ e
                 else Z.pos m / 2 ^ (- e) in
      let t := if s then - mag else mag in
      if decide (- 2 ^ 31 ≤ t < 2 ^ 31) then t else INT_MIN
  | _ => INT_MIN
  end.

#[export] Instance binary32 : FloatOps float32 := {|
  f_zero := zero;
  f_one := one;
  f_add := SFadd prec emax;
  f_mul := SFmul prec emax;
  f_div := SFdiv prec emax;
  f_lt := SFltb;
  f_le := SFleb;
  f_to_int := to_int;
  f_of_int := λ z, of_Z2 z 0;
|}.

(** The position of a number on the extended real line, as a key ordered
    lexicographically: class (infinities, negative, zero, positive), then
    exponent, then mantissa.  [SFcompare] orders the keys. *)
Definition ord (x : float32) : Z * Z * Z :=
  match x with
  | S754_nan => (0, 0, 0)
  | S754_zero _ => (0, 0, 0)
  | S754_infinity s => (if s then -2 else 2, 0, 0)
  | S754_finite s m e => if s then (-1, - e, Z.neg m) else (1, e, Z.pos m)
  end.

Definition lex_lt (a b : Z * Z * Z) : Prop :=
  a.1.1 < b.1.1 ∨ (a.1.1 = b.1.1 ∧ (a.1.2 < b.1.2 ∨ (a.1.2 = b.1.2 ∧ a.2 < b.2))).

Definition lex_le (a b : Z * Z * Z) : Prop :=
  a.1.1 < b.1.1 ∨ (a.1.1 = b.1.1 ∧ (a.1.2 < b.1.2 ∨ (a.1.2 = b.1.2 ∧ a.2 ≤ b.2))).

Definition is_nan (x : float32) : bool :=
  match x with S754_nan => true | _ => false end.

Definition is_zero (x : float32) : bool :=
  match x with S754_zero _ => true | _ => false end.
End Float32.

(** ** The real value of a [float] *)

(** What a binary32 datum denotes as a real number, for the one property
    that holds up to rounding only: the sum of a row. *)
Module Rounding.
Import Float32.

(** [2^e] as a real number. *)
Definition bpow (e : Z) : R := powerRZ 2 e.

(** The real number a finite [float] denotes.  NaN and the infinities
    denote none; they are given 0 and excluded by [nonneg_fin] wherever a
    value is used. *)
Definition val (x : float32) : R :=
  match x with
  | S754_finite s m e =>
      (if s then - (IZR (Z.pos m) * bpow e) else IZR (Z.pos m) * bpow e)%R
  | _ => 0%R
  end.

(** A zero, or a positive finite number whose exponent is not below that of
    the least subnormal number, [2^-149]. *)
Definition nonneg_fin (x : float32) : Prop :=
  match x with
  | S754_zero _ => True
  | S754_finite false m e => -149 ≤ e
  | _ => False
  end.

(** A probability: a zero, or a positive finite [m * 2^e] that is at most
    1.  The mantissa need not be normalised. *)
Definition probability (x : float32) : bool :=
  match x with
  | S754_zero _ => true
  | S754_finite false m e => bool_decide (-149 ≤ e ≤ 0 ∧ Z.pos m ≤ 2 ^ (- e))
  | _ => false
  end.

(** The sum of the entries of a row, taken in the real numbers. *)
Definition sum_val (xs : list float32) : R :=
  foldr (λ x acc, val x + acc)%R 0%R xs.

(** The unit roundoff of binary32: half the distance from 1 to the next
    number. *)
Definition roundoff : R := bpow (-24).

(** What the first loop of [UpdateSurfelProbabilities] adds up: the
    rounded product of two probabilities. *)
Definition summand (p : float32) : Prop := nonneg_fin p ∧ (val p <= 2)%R.

(** The position of a real number [v] in the cell from [m * 2^e] to
    [(m + 1) * 2^e], as [binary_round_aux] records it: on the lower end,
    below, at or above the middle. *)
Definition located (m e : Z) (l : location) (v : R) : Prop :=
  match l with
  | loc_Exact => v = (IZR m * bpow e)%R
  | loc_Inexact Lt => (IZR m * bpow e < v < (IZR m + 1/2) * bpow e)%R
  | loc_Inexact Eq => v = ((IZR m + 1/2) * bpow e)%R
  | loc_Inexact Gt => ((IZR m + 1/2) * bpow e < v < (IZR m + 1) * bpow e)%R
  end.

(** A shift register that holds the truncation of [v] to the exponent [e],
    with the round and sticky bits. *)
Definition truncated (v : R) (mrs : shr_record) (e : Z) : Prop :=
  0 ≤ shr_m mrs ∧ located (shr_m mrs) e (loc_of_shr_record mrs) v.
End Rounding.

(** ** The state of [SemanticFusionInterface] *)

(** How a call ends: normally, in a failed [assert], in undefined behaviour
    (an access outside a vector, the use of an indeterminate value) or in an
    exception. *)
Inductive outcome (A : Type) : Type :=
  | Done (a : A)
  | AssertionFailed
  | Undefined
  | Thrown.
Arguments Done {A} a.
Arguments AssertionFailed {A}.
Arguments Undefined {A}.
Arguments Thrown {A}.

Section state.
Context {F : Type}.

(** A [caffe::Blob<float>] as the code uses it: [channels()],
    [height()], [width()] and the row-major data. *)
Record Blob := {
  channels : Z;
  height : Z;
  width : Z;
  data : list F;
}.

(** The members of the class that the functions below use.  The class is
    declared in [SemanticFusionInterface.h], which is not among the
    sources; the types are those of the uses: [int] for the sizes, [float]
    for the threshold that [max_prob] is compared with. *)
Record SemanticFusionInterface := {
  current_table_size_ : Z;
  num_classes_ : Z;
  max_components_ : Z;
  colour_threshold_ : F;
  class_probabilities_ : list (list F);
  class_probabilities_gpu_ : Blob;
  class_probabilities_gpu_buffer_ : Blob;
  class_max_gpu_ : Blob;
  class_max_gpu_buffer_ : Blob;
}.

Definition set_class_probabilities_ (st : SemanticFusionInterface)
    (t : list (list F)) : SemanticFusionInterface :=
  {| current_table_size_ := current_table_size_ st;
     num_classes_ := num_classes_ st;
     max_components_ := max_components_ st;
     colour_threshold_ := colour_threshold_ st;
     class_probabilities_ := t;
     class_probabilities_gpu_ := class_probabilities_gpu_ st;
     class_probabilities_gpu_buffer_ := class_probabilities_gpu_buffer_ st;
     class_max_gpu_ := class_max_gpu_ st;
     class_max_gpu_buffer_ := class_max_gpu_buffer_ st |}.

Definition set_data (b : Blob) (d : list F) : Blob :=
  {| channels := channels b; height := height b; width := width b; data := d |}.
End state.
Arguments Blob : clear implicits.
Arguments SemanticFusionInterface : clear implicits.

(** ** [UpdateSurfelProbabilities]: the fusion update of one row *)

Module Fusion.
Section fusion.
Context `{FloatOps F}.

(** Lines 128-131: [surfel_probs[c] *= class_probs[c]] and the running
    [normalisation_denominator].  [n] iterations remain, the next one at
    [class_id].  The assertions before the loop keep both reads in range. *)
Fixpoint multiply_loop (n class_id : nat) (surfel_probs class_probs : list F)
    (normalisation_denominator : F) : list F * F :=
  match n with
  | O => (surfel_probs, normalisation_denominator)
  | S n' =>
      match surfel_probs !! class_id, class_probs !! class_id with
      | Some p, Some q =>
          let p' := f_mul p q in
          multiply_loop n' (S class_id) (<[class_id := p']> surfel_probs)
            class_probs (f_add normalisation_denominator p')
      | _, _ => (surfel_probs, normalisation_denominator)
      end
  end.

(** Lines 134-140: [surfel_probs[c] /= normalisation_denominator] and the
    running maximum, taken with [>=]. *)
Fixpoint normalise_loop (n class_id : nat) (surfel_probs : list F)
    (normalisation_denominator max_prob : F) (max_class : Z) : list F * F * Z :=
  match n with
  | O => (surfel_probs, max_prob, max_class)
  | S n' =>
      match surfel_probs !! class_id with
      | Some p =>
          let p' := f_div p normalisation_denominator in
          let surfel_probs' := <[class_id := p']> surfel_probs in
          if f_ge p' max_prob
          then normalise_loop n' (S class_id) surfel_probs'
                 normalisation_denominator p' (Z.of_nat class_id)
          else normalise_loop n' (S class_id) surfel_probs'
                 normalisation_denominator max_prob max_class
      | None => (surfel_probs, max_prob, max_class)
      end
  end.

(** Lines 127-140 together: the updated row, [max_prob] and [max_class]. *)
Definition fuse_row (num_classes : Z) (surfel_probs class_probs : list F)
    : list F * F * Z :=
  let '(surfel_probs1, normalisation_denominator) :=
    multiply_loop (Z.to_nat num_classes) 0 surfel_probs class_probs f_zero in
  normalise_loop (Z.to_nat num_classes) 0 surfel_probs1
    normalisation_denominator f_zero (-1).

(** Lines 141-144: the confidence threshold. *)
Definition thresholded (colour_threshold max_prob : F) (max_class : Z) : Z :=
  if f_ge max_prob colour_threshold then max_class else -1.

(** [UpdateSurfelProbabilities(surfel_id, class_probs)]: the new state and
    the returned class.  The first assertion compares signed integers, so
    a negative [surfel_id] passes it and indexes outside the table. *)
Definition UpdateSurfelProbabilities (st : SemanticFusionInterface F)
    (surfel_id : Z) (class_probs : list F)
    : outcome (SemanticFusionInterface F * Z) :=
  if decide (surfel_id < Z.of_nat (length (class_probabilities_ st))) then
    match (if decide (0 ≤ surfel_id)
           then class_probabilities_ st !! Z.to_nat surfel_id else None) with
    | None => Undefined
    | Some surfel_probs =>
        if decide (Z.of_nat (length class_probs) = num_classes_ st) then
          if decide (Z.of_nat (length surfel_probs) = num_classes_ st) then
            let '(surfel_probs', max_prob, max_class) :=
              fuse_row (num_classes_ st) surfel_probs class_probs in
            Done (set_class_probabilities_ st
                    (<[Z.to_nat surfel_id := surfel_probs']> (class_probabilities_ st)),
                  thresholded (colour_threshold_ st) max_prob max_class)
          else AssertionFailed
        else AssertionFailed
    end
  else AssertionFailed.

(** The same update in the words of the specification: every entry is
    multiplied by the observation, then divided by the sum of the
    products. *)
Definition products (row observed : list F) : list F := zip_with f_mul row observed.
Definition total (xs : list F) : F := foldl f_add f_zero xs.
Definition renormalised (row observed : list F) : list F :=
  (λ p, f_div p (total (products row observed))) <$> products row observed.

(** The running maximum of lines 132-140 over a list, from [class_id] on. *)
Fixpoint running_max (class_id : nat) (xs : list F) (max_prob : F) (max_class : Z)
    : F * Z :=
  match xs with
  | [] => (max_prob, max_class)
  | x :: xs' =>
      if f_ge x max_prob then running_max (S class_id) xs' x (Z.of_nat class_id)
      else running_max (S class_id) xs' max_prob max_class
  end.
End fusion.
End Fusion.

(** ** [CRFUpdate]: the write-back of the smoothing result *)

Module Smoothing.
Section smoothing.
Context `{FloatOps F}.

(** Lines 193-196: [valid_ids] holds 0, 1, ..., [current_table_size_ - 1]. *)
Definition valid_ids (current_table_size : Z) : list Z := seqZ 0 current_table_size.

(** Line 215: the filter on a value returned by the inference. *)
Definition accepted (r : F) : bool := f_gt r f_zero && f_lt r f_one.

(** Lines 213-217, one pass of the inner loop body: the value for element
    [i], class [j] is written to the cell of class [j], row [id].  A read
    past the end of [resulting_probs] and a write past the end of the table
    are undefined behaviour; the model leaves the table as it is. *)
Definition write_back_cell (num_classes max_components : Z)
    (resulting_probs : list F) (i id : Z) (prob_table : list F) (j : Z) : list F :=
  match load resulting_probs (i * num_classes + j) with
  | Some r =>
      if accepted r
      then store prob_table (j * max_components + id) r
      else prob_table
  | None => prob_table
  end.

(** Lines 212-218: the loop over the classes. *)
Definition write_back_row (num_classes max_components : Z)
    (resulting_probs : list F) (ids : list Z) (prob_table : list F) (i : Z) : list F :=
  match load ids i with
  | Some id =>
      foldl (write_back_cell num_classes max_components resulting_probs i id)
        prob_table (seqZ 0 num_classes)
  | None => prob_table
  end.

(** Lines 211-219: the loop over [valid_ids]. *)
Definition write_back (st : SemanticFusionInterface F)
    (resulting_probs : list F) (prob_table : list F) : list F :=
  let ids := valid_ids (current_table_size_ st) in
  foldl (write_back_row (num_classes_ st) (max_components_ st) resulting_probs ids)
    prob_table (seqZ 0 (Z.of_nat (length ids))).

(** The cells of row [id], class by class, in a table of the given
    stride: [prob_table[j * max_components_ + id]]. *)
Definition table_row (num_classes stride : Z) (prob_table : list F) (id : Z)
    : list (option F) :=
  (λ j, load prob_table (j * stride + id)) <$> seqZ 0 num_classes.

(** The values the inference returned for element [i]. *)
Definition result_row (num_classes : Z) (resulting_probs : list F) (i : Z)
    : list (option F) :=
  (λ j, load resulting_probs (i * num_classes + j)) <$> seqZ 0 num_classes.
End smoothing.
End Smoothing.

(** ** [SaveArgMaxPredictions]: the argmax image *)

Module ArgMax.
Section argmax.
Context `{FloatOps F}.

(** Lines 228-229: [max_class] points at the start of the summary buffer,
    [max_prob] at offset [max_components_]. *)
Definition max_class (st : SemanticFusionInterface F) (id : Z) : option F :=
  load (data (class_max_gpu_ st)) id.

Definition max_prob (st : SemanticFusionInterface F) (id : Z) : option F :=
  load (data (class_max_gpu_ st)) (max_components_ st + id).

(** Lines 243-249, the body of the patch loops at offset ([x], [y]); the
    accumulator is ([this_max_prob], [this_max_class]).  The assignment
    [this_max_class = max_class[id]] converts the cached class to [int].
    A read outside the raster or the summary buffer is undefined
    behaviour; the model then keeps the accumulator. *)
Definition patch_step (st : SemanticFusionInterface F) (surfel_ids : list Z)
    (h w x : Z) (acc : F * Z) (y : Z) : F * Z :=
  match load surfel_ids (((h * 2) + y) * 640 + (w * 2 + x)) with
  | Some id =>
      if decide (id > 0 ∧ id < current_table_size_ st) then
        match max_prob st id, max_class st id with
        | Some p, Some c => if f_gt p acc.1 then (p, f_to_int c) else acc
        | _, _ => acc
        end
      else acc
  | None => acc
  end.

(** Lines 234-251: [this_max_class] after the two patch loops, [x] outer
    and [y] inner, both over [start, end) = [0, 2). *)
Definition pixel_class (st : SemanticFusionInterface F) (surfel_ids : list Z)
    (h w : Z) : Z :=
  (foldl (λ acc x, foldl (patch_step st surfel_ids h w x) acc (seqZ 0 2))
     (f_zero, 0) (seqZ 0 2)).2.

(** Storing an [int] in a channel of a [cv::Vec3b] keeps its low 8 bits. *)
Definition to_uchar (c : Z) : Z := c mod 256.

(** Lines 252-254: the three channels of the pixel. *)
Definition pixel (st : SemanticFusionInterface F) (surfel_ids : list Z)
    (h w : Z) : Z * Z * Z :=
  let c := to_uchar (pixel_class st surfel_ids h w) in (c, c, c).

(** [SaveArgMaxPredictions]: the 240 rows of 320 pixels handed to
    [cv::imwrite]. *)
Definition SaveArgMaxPredictions (st : SemanticFusionInterface F)
    (surfel_ids : list Z) : list (list (Z * Z * Z)) :=
  (λ h, (λ w, pixel st surfel_ids h w) <$> seqZ 0 320) <$> seqZ 0 240.

(** Line 243: the identifier at offset ([x], [y]) of the patch of output
    pixel ([h], [w]). *)
Definition raster_at (surfel_ids : list Z) (h w : Z) (xy : Z * Z) : option Z :=
  load surfel_ids (((h * 2) + xy.2) * 640 + (w * 2 + xy.1)).

(** The identifiers of the 2x2 patch of output pixel ([h], [w]), in the
    order the loops visit them. *)
Definition patch_ids (surfel_ids : list Z) (h w : Z) : list Z :=
  omap (raster_at surfel_ids h w) [(0, 0); (0, 1); (1, 0); (1, 1)].

Definition valid_id (st : SemanticFusionInterface F) (id : Z) : Prop :=
  id > 0 ∧ id < current_table_size_ st.

(** The cached summary (probability, class) of a row. *)
Definition cached (st : SemanticFusionInterface F) (id : Z) : option (F * F) :=
  match max_prob st id, max_class st id with
  | Some p, Some c => Some (p, c)
  | _, _ => None
  end.

(** The summaries the patch offers: those of its valid identifiers. *)
Definition candidates (st : SemanticFusionInterface F) (surfel_ids : list Z)
    (h w : Z) : list (F * F) :=
  omap (cached st) (filter (valid_id st) (patch_ids surfel_ids h w)).

(** The selection the loops perform on the candidates: a strictly greater
    probability replaces the accumulator. *)
Definition select (cands : list (F * F)) (acc : F * Z) : F * Z :=
  foldl (λ acc pc, if f_gt pc.1 acc.1 then (pc.1, f_to_int pc.2) else acc) acc cands.
End argmax.
End ArgMax.

(** ** [load_colour_scheme_]: the class colour file *)

Module ColourScheme.
(** Modelled from the spec: the type [ClassColour] is declared in
    [utilities/Types.h], which is not among the sources.  The loader
    builds a value from a name and three integers and the specification
    calls the result a colour per class, so the model is that record; the
    default-constructed value is a parameter of the loader. *)
Record ClassColour := {
  name : string;
  r : Z;
  g : Z;
  b : Z;
}.

Definition INT_MAX : Z := 2 ^ 31 - 1.
Definition INT_MIN : Z := - 2 ^ 31.

(** [isspace] and [isdigit] in the "C" locale. *)
Definition isspace (c : ascii) : bool :=
  let n := Z.of_N (N_of_ascii c) in
  bool_decide (n = 32 ∨ 9 ≤ n ≤ 13).

Definition isdigit (c : ascii) : bool :=
  let n := Z.of_N (N_of_ascii c) in
  bool_decide (48 ≤ n ≤ 57).

Definition digit_value (c : ascii) : Z := Z.of_N (N_of_ascii c) - 48.

(** A [std::istringstream]: the characters not yet read and the state
    bits. *)
Record istringstream := {
  buf : string;
  failbit : bool;
  eofbit : bool;
}.

Definition good (s : istringstream) : bool := negb (failbit s) && negb (eofbit s).

Definition at_end (s : string) : bool :=
  match s with EmptyString => true | _ => false end.

Fixpoint skipws (s : string) : string :=
  match s with
  | String c s' => if isspace c then skipws s' else s
  | EmptyString => EmptyString
  end.

(** The sentry of a formatted extraction: a stream that is not good
    fails; otherwise white space is skipped, and reaching the end sets
    [failbit] and [eofbit]. *)
Definition sentry (s : istringstream) : istringstream * bool :=
  if good s then
    match skipws (buf s) with
    | EmptyString => ({| buf := EmptyString; failbit := true; eofbit := true |}, false)
    | rest => ({| buf := rest; failbit := false; eofbit := false |}, true)
    end
  else ({| buf := buf s; failbit := true; eofbit := eofbit s |}, false).

(** The characters up to the next white space, and what follows. *)
Fixpoint take_word (s : string) : string * string :=
  match s with
  | String c s' =>
      if isspace c then (EmptyString, s)
      else let '(word, rest) := take_word s' in (String c word, rest)
  | EmptyString => (EmptyString, EmptyString)
  end.

(** [stream >> str] for a [std::string]. *)
Definition extract_string (s : istringstream) (old : string) : istringstream * string :=
  let '(s1, ok) := sentry s in
  if ok then
    let '(word, rest) := take_word (buf s1) in
    ({| buf := rest; failbit := false; eofbit := at_end rest |}, word)
  else (s1, old).

(** The decimal digits at the front, their value, and what follows. *)
Fixpoint take_digits (s : string) (acc : Z) (any : bool) : Z * bool * string :=
  match s with
  | String c s' =>
      if isdigit c then take_digits s' (10 * acc + digit_value c) true
      else (acc, any, s)
  | EmptyString => (acc, any, EmptyString)
  end.

(** [stream >> x] for an [int]; [old] is the value of [x] before, [None]
    when [x] is not initialised.  When the sentry fails [x] is not
    assigned.  Without a digit the extraction fails and assigns 0; a value
    outside the [int] range fails and assigns the nearest bound. *)
Definition extract_int (s : istringstream) (old : option Z) : istringstream * option Z :=
  let '(s1, ok) := sentry s in
  if ok then
    let '(negative, digits) :=
      match buf s1 with
      | String "-" s' => (true, s')
      | String "+" s' => (false, s')
      | s' => (false, s')
      end in
    let '(magnitude, any, rest) := take_digits digits 0 false in
    let value := if negative then - magnitude else magnitude in
    if any then
      if decide (value < INT_MIN)
      then ({| buf := rest; failbit := true; eofbit := at_end rest |}, Some INT_MIN)
      else if decide (INT_MAX < value)
      then ({| buf := rest; failbit := true; eofbit := at_end rest |}, Some INT_MAX)
      else ({| buf := rest; failbit := false; eofbit := at_end rest |}, Some value)
    else ({| buf := rest; failbit := true; eofbit := at_end rest |}, Some 0)
  else (s1, old).

(** Line 49: [buffer >> textual_prefix >> id >> r >> g >> b] on the
    stream of one line; the four integers start uninitialised. *)
Definition parse_line (str : string)
    : string * option Z * option Z * option Z * option Z :=
  let s0 := {| buf := str; failbit := false; eofbit := false |} in
  let '(s1, textual_prefix) := extract_string s0 EmptyString in
  let '(s2, id) := extract_int s1 None in
  let '(s3, r) := extract_int s2 None in
  let '(s4, g) := extract_int s3 None in
  let '(s5, b) := extract_int s4 None in
  (textual_prefix, id, r, g, b).

(** [std::getline] until it fails: the lines of the file.  A last line
    without a line feed is a line; nothing follows a final line feed. *)
Fixpoint getlines (s : string) (line : string) : list string :=
  match s with
  | String c s' =>
      if Ascii.eqb c "010"
      then String.rev line :: getlines s' EmptyString
      else getlines s' (String c line)
  | EmptyString =>
      match line with
      | EmptyString => []
      | _ => [String.rev line]
      end
  end.

(** Lines 43-55: the loop over the lines. *)
Fixpoint read_lines (num_classes : Z) (lines : list string) (line_number : Z)
    (colour_scheme : list ClassColour) : outcome (list ClassColour) :=
  match lines with
  | [] => Done colour_scheme
  | str :: lines' =>
      if decide (line_number > 2) then
        match parse_line str with
        | (textual_prefix, Some id, Some r, Some g, Some b) =>
            let class_colour := {| name := textual_prefix; r := r; g := g; b := b |} in
            if decide (id < num_classes) then
              if decide (0 ≤ id) then
                read_lines num_classes lines' (line_number + 1)
                  (<[Z.to_nat id := class_colour]> colour_scheme)
              else Undefined
            else AssertionFailed
        | _ => Undefined
        end
      else read_lines num_classes lines' (line_number + 1) colour_scheme
  end.

(** [load_colour_scheme_(filename, num_classes)] on the content of the
    file; a file that cannot be opened reads as an empty one.  A negative
    [num_classes] converts to a size no vector can have, and the
    constructor throws. *)
Definition load_colour_scheme_ (default_colour : ClassColour)
    (content : string) (num_classes : Z) : outcome (list ClassColour) :=
  if decide (0 ≤ num_classes) then
    read_lines num_classes (getlines content EmptyString) 1
      (replicate (Z.to_nat num_classes) default_colour)
  else Thrown.

(** The rows after the header, as the loader reads them. *)
Definition rows (content : string)
    : list (string * option Z * option Z * option Z * option Z) :=
  parse_line <$> drop 2 (getlines content EmptyString).

(** A row whose five fields were all read and whose id is a class. *)
Definition well_formed (num_classes : Z)
    (row : string * option Z * option Z * option Z * option Z) : Prop :=
  ∃ n id r g b, row = (n, Some id, Some r, Some g, Some b) ∧ 0 ≤ id < num_classes.

(** The colour the rows give to class [i]: that of the last row with
    id [i], the default colour when there is none. *)
Fixpoint colour_of (default_colour : ClassColour) (i : Z)
    (rs : list (string * option Z * option Z * option Z * option Z)) : ClassColour :=
  match rs with
  | [] => default_colour
  | (n, Some id, Some r, Some g, Some b) :: rs' =>
      if decide (id = i)
      then colour_of {| name := n; r := r; g := g; b := b |} i rs'
      else colour_of default_colour i rs'
  | _ :: rs' => colour_of default_colour i rs'
  end.
End ColourScheme.

(** ** The mapping subsystem, as this class sees it *)

(** What the calls on the [ElasticFusionInterface] return. *)
Record ElasticFusionInterface := {
  GetMapSurfelCount : Z;
  GetMapSurfelDeletedCount : Z;
  GetDeletedSurfelIdsGpu : list Z;
  GetSurfelIdsCpu : list Z;
  GetSurfelIdsGpu : list Z;
  map_width : Z;                   (* [map->width()] *)
  map_height : Z;                  (* [map->height()] *)
}.

(** The arguments of a call of [UpdateSurfelClassGpu]; a pointer into a
    buffer is the part of the buffer from that offset on. *)
Record UpdateSurfelClassGpu_call {F : Type} := {
  call_n : Z;
  call_classes : list F;
  call_probs : list F;
  call_threshold : F;
}.
Arguments UpdateSurfelClassGpu_call : clear implicits.

(** ** [UpdateProbabilityTable]: the table synchroniser *)

Module TableSync.
Section sync.
Context `{FloatOps F}.

(** The old row that ends at new row [j] when the rows in [deleted] are
    compacted out of a table of [current_table_size] rows. *)
Definition old_ids (deleted : list Z) (current_table_size : Z) : list Z :=
  RemoveIndex.survivors (seqZ 0 current_table_size) deleted.

(** Modelled from the spec: the kernel [updateProbabilityTable] is
    declared in [SemanticFusionCuda.h] and defined in a CUDA file, neither
    of which is among the sources.  Section 4.1: every surviving row keeps
    its content at its compacted index, every further row below the new
    width is initialised to the uniform probability 1/[num_classes];
    section 3: a new row has the sentinel best class -1, and its cached
    probability is consistent with the table.  The comment at line 98 of
    the source says the same: an added surfel is initialised with the
    uniform probability and the class label -1.  One worker per cell writes
    the inactive buffers; cells outside the new width keep what the buffer
    held. *)
Definition updateProbabilityTable (deleted_ids : list Z) (num_deleted : Z)
    (current_table_size : Z) (probability_table : list F)
    (prob_width prob_height new_prob_width : Z) (new_probability_table : list F)
    (map_table new_map_table : list F) : list F * list F :=
  let olds := old_ids (take (Z.to_nat num_deleted) deleted_ids) current_table_size in
  let uniform := f_div f_one (f_of_int prob_height) in
  let source (j : Z) : option Z := olds !! Z.to_nat j in
  (imap (λ k old,
           let c := Z.of_nat k / prob_width in
           let j := Z.of_nat k mod prob_width in
           if decide (0 < prob_width ∧ c < prob_height ∧ j < new_prob_width) then
             match source j with
             | Some o => default old (load probability_table (c * prob_width + o))
             | None => uniform
             end
           else old) new_probability_table,
   imap (λ k old,
           let part := Z.of_nat k / prob_width in
           let j := Z.of_nat k mod prob_width in
           if decide (0 < prob_width ∧ part < 2 ∧ j < new_prob_width) then
             match source j with
             | Some o => default old (load map_table (part * prob_width + o))
             | None => if decide (part = 0) then f_of_int (-1) else uniform
             end
           else old) new_map_table).

(** [UpdateProbabilityTable(map)], lines 99-117: the kernel fills the
    inactive buffers, the two pairs of handles are swapped, and the new
    width is recorded. *)
Definition UpdateProbabilityTable (st : SemanticFusionInterface F)
    (map : ElasticFusionInterface) : SemanticFusionInterface F :=
  let new_table_width := GetMapSurfelCount map in
  let num_deleted := GetMapSurfelDeletedCount map in
  let table_width := width (class_probabilities_gpu_ st) in
  let table_height := height (class_probabilities_gpu_ st) in
  let '(buffer, max_buffer) :=
    updateProbabilityTable (GetDeletedSurfelIdsGpu map) num_deleted
      (current_table_size_ st) (data (class_probabilities_gpu_ st))
      table_width table_height new_table_width
      (data (class_probabilities_gpu_buffer_ st))
      (data (class_max_gpu_ st)) (data (class_max_gpu_buffer_ st)) in
  {| current_table_size_ := new_table_width;
     num_classes_ := num_classes_ st;
     max_components_ := max_components_ st;
     colour_threshold_ := colour_threshold_ st;
     class_probabilities_ := class_probabilities_ st;
     class_probabilities_gpu_ := set_data (class_probabilities_gpu_buffer_ st) buffer;
     class_probabilities_gpu_buffer_ := class_probabilities_gpu_ st;
     class_max_gpu_ := set_data (class_max_gpu_buffer_ st) max_buffer;
     class_max_gpu_buffer_ := class_max_gpu_ st |}.

(** What the constructor establishes and every method keeps: both tables
    are [num_classes_] by [max_components_], both summary buffers hold
    [2 * max_components_] cells, and the logical width is inside. *)
Definition table_blob (st : SemanticFusionInterface F) (b : Blob F) : Prop :=
  height b = num_classes_ st ∧ width b = max_components_ st
  ∧ Z.of_nat (length (data b)) = num_classes_ st * max_components_ st.

Definition summary_blob (st : SemanticFusionInterface F) (b : Blob F) : Prop :=
  width b = max_components_ st
  ∧ Z.of_nat (length (data b)) = 2 * max_components_ st.

Definition invariant (st : SemanticFusionInterface F) : Prop :=
  0 ≤ current_table_size_ st ≤ max_components_ st
  ∧ 0 ≤ num_classes_ st
  ∧ table_blob st (class_probabilities_gpu_ st)
  ∧ table_blob st (class_probabilities_gpu_buffer_ st)
  ∧ summary_blob st (class_max_gpu_ st)
  ∧ summary_blob st (class_max_gpu_buffer_ st).

(** The content of the logical rows: the probability cells and the cached
    summary of every row below the logical width. *)
Definition row_cell (st : SemanticFusionInterface F) (c id : Z) : option F :=
  load (data (class_probabilities_gpu_ st)) (c * max_components_ st + id).

Definition summary_class (st : SemanticFusionInterface F) (id : Z) : option F :=
  load (data (class_max_gpu_ st)) id.

Definition summary_prob (st : SemanticFusionInterface F) (id : Z) : option F :=
  load (data (class_max_gpu_ st)) (max_components_ st + id).
End sync.
End TableSync.

(** ** The summary cache: the calls that hand it on *)

Module SummaryCache.
Section cache.
Context `{FloatOps F}.

(** The kernels [updateMaxClass] and [fuseSemanticProbabilities] are
    declared in [SemanticFusionCuda.h] and defined in a CUDA file; neither
    is among the sources, and nothing is assumed here about the cells they
    write.  Each is a parameter: a function from the arguments of the call
    to the content of the buffers it was handed to write to, the summary
    buffer for [updateMaxClass], the table and the summary buffer for
    [fuseSemanticProbabilities]. *)
Variable updateMaxClass : Z → list F → Z → list F → Z → list F.
Variable fuseSemanticProbabilities :
  list Z → Z → Z → list F → Z → Z → Z → list F → list F → Z → list F * list F.

(** [UpdateProbabilities(probs, map)], lines 148-169.  [CHECK_EQ] aborts
    when the channel count is not the class count.  The second value is
    the call of [UpdateSurfelClassGpu] on the mapping subsystem. *)
Definition UpdateProbabilities (st : SemanticFusionInterface F)
    (probs : Blob F) (map : ElasticFusionInterface)
    : outcome (SemanticFusionInterface F * UpdateSurfelClassGpu_call F) :=
  if decide (num_classes_ st = channels probs) then
    let id_width := map_width map in
    let id_height := map_height map in
    let prob_width := width probs in
    let prob_height := height probs in
    let prob_channels := channels probs in
    let map_size := width (class_probabilities_gpu_ st) in
    let '(table, max_map) :=
      fuseSemanticProbabilities (GetSurfelIdsGpu map) id_width id_height
        (data probs) prob_width prob_height prob_channels
        (data (class_probabilities_gpu_ st)) (data (class_max_gpu_ st)) map_size in
    Done ({| current_table_size_ := current_table_size_ st;
             num_classes_ := num_classes_ st;
             max_components_ := max_components_ st;
             colour_threshold_ := colour_threshold_ st;
             class_probabilities_ := class_probabilities_ st;
             class_probabilities_gpu_ := set_data (class_probabilities_gpu_ st) table;
             class_probabilities_gpu_buffer_ := class_probabilities_gpu_buffer_ st;
             class_max_gpu_ := set_data (class_max_gpu_ st) max_map;
             class_max_gpu_buffer_ := class_max_gpu_buffer_ st |},
          {| call_n := map_size;
             call_classes := max_map;
             call_probs := drop (Z.to_nat map_size) max_map;
             call_threshold := colour_threshold_ st |})
  else AssertionFailed.

(** [CRFUpdate(map, iterations)], lines 185-225.  [resulting_probs] is
    what [crf.runInference] returned; the inference itself belongs to the
    smoothing library. *)
Definition CRFUpdate (st : SemanticFusionInterface F) (resulting_probs : list F)
    : SemanticFusionInterface F * UpdateSurfelClassGpu_call F :=
  let prob_table :=
    Smoothing.write_back st resulting_probs (data (class_probabilities_gpu_ st)) in
  let gpu_max_map :=
    updateMaxClass (current_table_size_ st) prob_table (num_classes_ st)
      (data (class_max_gpu_ st)) (max_components_ st) in
  ({| current_table_size_ := current_table_size_ st;
      num_classes_ := num_classes_ st;
      max_components_ := max_components_ st;
      colour_threshold_ := colour_threshold_ st;
      class_probabilities_ := class_probabilities_ st;
      class_probabilities_gpu_ := set_data (class_probabilities_gpu_ st) prob_table;
      class_probabilities_gpu_buffer_ := class_probabilities_gpu_buffer_ st;
      class_max_gpu_ := set_data (class_max_gpu_ st) gpu_max_map;
      class_max_gpu_buffer_ := class_max_gpu_buffer_ st |},
   {| call_n := max_components_ st;
      call_classes := gpu_max_map;
      call_probs := drop (Z.to_nat (max_components_ st)) gpu_max_map;
      call_threshold := colour_threshold_ st |}).

End cache.
End SummaryCache.

(** ** [std::hash<std::pair<S, T>>]: the hash of a pair *)

Module PairHash.
Section hash.
(** The width of [std::size_t] in bits; 64 on the x86-64 target of the
    build. *)
Variable size_bits : Z.

(** Arithmetic on [std::size_t] wraps around. *)
Definition wrap (z : Z) : Z := z mod 2 ^ size_bits.

(** Lines 36-41: [seed ^= hasher(v) + 0x9e3779b9 + (seed << 6) + (seed >> 2)],
    where [hasher v] is the [std::hash] of [v].  The sum is taken from left
    to right in [std::size_t]. *)
Definition my_hash_combine {T} (hasher : T → Z) (seed : Z) (v : T) : Z :=
  Z.lxor seed
    (wrap (wrap (wrap (hasher v + 0x9e3779b9) + wrap (Z.shiftl seed 6))
           + Z.shiftr seed 2)).

(** Lines 43-52: the hash of a pair starts from the seed 0 and combines
    the first component, then the second. *)
Definition hash_pair {S T} (hash_first : S → Z) (hash_second : T → Z)
    (v : S * T) : Z :=
  let seed := 0 in
  let seed := my_hash_combine hash_first seed v.1 in
  let seed := my_hash_combine hash_second seed v.2 in
  seed.
End hash.
End PairHash.


(** ** The text of a colour file *)

Module ColourFile.
Import ColourScheme.

(** A string that holds no line feed: one line of a file. *)
Fixpoint one_line (s : string) : bool :=
  match s with
  | String c s' => negb (Ascii.eqb c "010") && one_line s'
  | EmptyString => true
  end.

(** A string of white space only. *)
Fixpoint blank (s : string) : bool :=
  match s with
  | String c s' => isspace c && blank s'
  | EmptyString => true
  end.

(** A row in which one of the four integers was not read. *)
Definition incomplete (row : string * option Z * option Z * option Z * option Z)
    : Prop :=
  row.1.1.1.2 = None ∨ row.1.1.2 = None ∨ row.1.2 = None ∨ row.2 = None.
End ColourFile.

(** ** [Gui::Gui]: the colour lookup for the GPU *)

Module Gui.
Import ColourScheme.
Section gui.
Context `{FloatOps F}.

(** [static_cast<float>(x) / 255.0f] for a colour component [x]. *)
Definition normalised (x : Z) : F := f_div (f_of_int x) (f_of_int 255).

(** Lines 117-122, the loop that fills [class_colour_lookup_rgb]:
    three [push_back] for every class, in the order r, g, b. *)
Definition class_colour_lookup_rgb (class_colour_lookup : list ClassColour)
    : list F :=
  foldl (λ rgb colour,
           ((rgb ++ [normalised (r colour)]) ++ [normalised (g colour)])
             ++ [normalised (b colour)])
    [] class_colour_lookup.
End gui.
End Gui.

(** ** The arithmetic of [double] *)

(** Where the source mixes a [float] or an [int] with a literal such as
    [0.7], the operands are converted to [double] and the operation is that
    of binary64: [spec_float] with precision 53 and maximal exponent
    1024. *)
Module Float64.
Import Float32.
Definition prec : Z := 53.
Definition emax : Z := 1024.

Abbreviation float64 := spec_float.

Definition add : float64 → float64 → float64 := SFadd prec emax.
Definition sub : float64 → float64 → float64 := SFsub prec emax.
Definition mul : float64 → float64 → float64 := SFmul prec emax.
Definition div : float64 → float64 → float64 := SFdiv prec emax.

(** Conversion [int -> double]; it is exact. *)
Definition of_int (z : Z) : float64 := binary_normalize prec emax z 0 false.

(** Conversion [float -> double]: the same number, with the mantissa of a
    binary64 datum. *)
Definition of_float (x : float32) : float64 :=
  match x with
  | S754_finite s m e => binary_normalize prec emax (cond_Zopp s (Z.pos m)) e s
  | _ => x
  end.

(** Conversion [double -> float]: the nearest binary32 number. *)
Definition to_float (x : float64) : float32 :=
  match x with
  | S754_finite s m e =>
      binary_normalize Float32.prec Float32.emax (cond_Zopp s (Z.pos m)) e s
  | _ => x
  end.

(** The literal with the decimal digits [n] and [d] places after the
    point: the binary64 number nearest to [n / 10^d]. *)
Definition decimal (n d : Z) : float64 := div (of_int n) (of_int (10 ^ d)).

(** Conversion [double -> unsigned char]: truncation towards zero, of
    which the low 8 bits are kept. *)
Definition to_uchar (x : float64) : Z := Float32.to_int x mod 256.
End Float64.

(** ** Memory accesses and loops that can fail *)

#[export] Instance outcome_ret : MRet outcome := λ A a, Done a.
#[export] Instance outcome_bind : MBind outcome := λ A B f m,
  match m with
  | Done a => f a
  | AssertionFailed => AssertionFailed
  | Undefined => Undefined
  | Thrown => Thrown
  end.

(** [p[k]] as an rvalue and [p[k] = x]: outside the memory of [p] the
    behaviour is undefined. *)
Definition read {A} (p : list A) (k : Z) : outcome A :=
  match load p k with
  | Some x => Done x
  | None => Undefined
  end.

Definition write {A} (p : list A) (k : Z) (x : A) : outcome (list A) :=
  if decide (0 ≤ k < Z.of_nat (length p)) then Done (store p k x) else Undefined.

(** [for (k = ...) body], with the state that the body changes. *)
Fixpoint for_each {State} (ks : list Z) (body : Z → State → outcome State)
    (s : State) : outcome State :=
  match ks with
  | [] => Done s
  | k :: ks' => s' ← body k s; for_each ks' body s'
  end.

(** What a piece of code leaves in cell [j] of a buffer, as a function of
    what the cell held: [put k x] for a write of [x] to cell [k],
    [update k f] for a cell [k] that is read and written back, [over ks φ]
    for a loop over [ks] whose iteration [k] leaves [φ k]. *)
Definition put {A} (k : Z) (x : A) (j : Z) (p : A) : A :=
  if decide (j = k) then x else p.

Definition update {A} (k : Z) (f : A → A) (j : Z) (p : A) : A :=
  if decide (j = k) then f p else p.

Definition over {A} (ks : list Z) (φ : Z → Z → A → A) (j : Z) (p : A) : A :=
  foldl (λ q k, φ k j q) p ks.

(** A piece of code that ends on every buffer of [n] cells that satisfy
    [P], keeps the size and [P], and leaves [φ j] in cell [j]. *)
Definition acts {A} (P : A → Prop) (body : list A → outcome (list A))
    (φ : Z → A → A) (n : nat) : Prop :=
  ∀ s, length s = n → Forall P s →
    ∃ s', body s = Done s' ∧ length s' = n ∧ Forall P s'
          ∧ ∀ j, load s' j = φ j <$> load s j.

(** ** [Gui]: the images for the display *)

Module Display.
Import ColourScheme Float32.

(** A [cv::Mat] of [uchar], as [ptr<uchar>(h)] sees it: row [h] starts
    [h * step] bytes after the first byte. *)
Record Mat := {
  step : Z;
  bytes : list Z;
}.

(** The fields of a [MaskInfo] that the display reads: the corners of the
    box and the mask. *)
Record MaskInfo := {
  x1 : Z;
  y1 : Z;
  x2 : Z;
  y2 : Z;
  cv_mat : Mat;
}.

Definition of_bool (b : bool) : Z := if b then 1 else 0.

(** [cv::Mat input_orig(height, width, CV_8UC3, rgb)] and its [clone()]:
    a copy of [height * width * 3] bytes, the rows one after the other.
    OpenCV rejects a negative size with an exception. *)
Definition clone (rgb : list Z) (height width : Z) : outcome (list Z) :=
  if decide (0 ≤ height ∧ 0 ≤ width) then
    if decide (height * width * 3 ≤ Z.of_nat (length rgb))
    then Done (take (Z.to_nat (height * width * 3)) rgb)
    else Undefined
  else Thrown.

(** Line 209: [msk >= 256*0.4] for a byte of the mask. *)
Definition over_threshold (msk : Z) : bool :=
  SFleb (Float64.mul (Float64.of_int 256) (Float64.decimal 4 1))
    (Float64.of_int msk).

(** Lines 211-216, one channel:
    [static_cast<uchar>(pixel + 0.7*colour*bimsk - 0.7*bimsk*pixel)] with
    [pixel = static_cast<float>(image)]. *)
Definition masked_channel (bimsk : bool) (colour : Z) (image : Z) : Z :=
  let pixel : float32 := f_of_int image in
  Float64.to_uchar
    (Float64.sub
       (Float64.add (Float64.of_float pixel)
          (Float64.mul (Float64.mul (Float64.decimal 7 1) (Float64.of_int colour))
             (Float64.of_int (of_bool bimsk))))
       (Float64.mul
          (Float64.mul (Float64.decimal 7 1) (Float64.of_int (of_bool bimsk)))
          (Float64.of_float pixel))).

(** Lines 211-212, for one channel: [image_ptr[image_index]] is read,
    blended with the channel of [class_colour_lookup_[i+1]] and written
    back. *)
Definition blend_at (class_colour_lookup_ : list ClassColour) (i : Z)
    (channel : ClassColour → Z) (bimsk : bool) (image_index : Z)
    (input_image : list Z) : outcome (list Z) :=
  image ← read input_image image_index;
  colour ← read class_colour_lookup_ (i + 1);
  write input_image image_index (masked_channel bimsk (channel colour) image).

(** Lines 209-216: the body of the loop over [w], for mask [i] and row [h]
    of its box.  The row of the image starts [(h + y1) * width * 3] bytes
    after the first; [image_index] starts at [x1 * 3] and [msk_index] at
    0. *)
Definition mask_pixel (class_colour_lookup_ : list ClassColour) (i : Z)
    (mask : MaskInfo) (width h w : Z) (input_image : list Z)
    : outcome (list Z) :=
  msk ← read (bytes (cv_mat mask)) (h * step (cv_mat mask) + w);
  let bimsk := over_threshold msk in
  let image_index := (h + y1 mask) * (width * 3) + (x1 mask * 3 + 3 * w) in
  input_image ← blend_at class_colour_lookup_ i r bimsk image_index input_image;
  input_image ← blend_at class_colour_lookup_ i g bimsk (image_index + 1)
                  input_image;
  blend_at class_colour_lookup_ i b bimsk (image_index + 2) input_image.

(** Lines 190-219: the body of the loop over the masks. *)
Definition draw_mask (class_colour_lookup_ : list ClassColour)
    (masks : list MaskInfo) (width i : Z) (input_image : list Z)
    : outcome (list Z) :=
  mask ← read masks i;
  let boxh := y2 mask - y1 mask + 1 in
  let boxw := x2 mask - x1 mask + 1 in
  for_each (seqZ 0 boxh)
    (λ h, for_each (seqZ 0 boxw) (mask_pixel class_colour_lookup_ i mask width h))
    input_image.

(** Lines 229-240: the body of the loop over [w]; the pixel goes to four
    floats. *)
Definition pack_pixel (input_image : list Z) (width h w : Z)
    (image_data : list float32) : outcome (list float32) :=
  r ← read input_image (h * (width * 3) + (3 * w + 0));
  g ← read input_image (h * (width * 3) + (3 * w + 1));
  b ← read input_image (h * (width * 3) + (3 * w + 2));
  image_data ← write image_data ((h * width + w) * 4 + 2) (Gui.normalised b);
  image_data ← write image_data ((h * width + w) * 4 + 1) (Gui.normalised g);
  image_data ← write image_data ((h * width + w) * 4 + 0) (Gui.normalised r);
  write image_data ((h * width + w) * 4 + 3) (f_of_int 1).

(** [displayInstancePredictions(id, rgb, height, width, masks)], lines
    180-253, up to the copy to the texture.  [image_data] is the memory of
    [image_blob] when the second loop starts; the result is that memory
    when the loop ends. *)
Definition displayInstancePredictions (class_colour_lookup_ : list ClassColour)
    (rgb : list Z) (height width : Z) (masks : list MaskInfo)
    (image_data : list float32) : outcome (list float32) :=
  input_image ← clone rgb height width;
  let num_masks := Z.of_nat (length masks) in
  input_image ← for_each (seqZ 0 num_masks)
                  (draw_mask class_colour_lookup_ masks width) input_image;
  for_each (seqZ 0 height)
    (λ h, for_each (seqZ 0 width) (pack_pixel input_image width h))
    image_data.

(** Lines 313-315, one channel:
    [(x + 0.7*bimsk*colour - 0.7*bimsk*x)/255.0f], stored in a [float]. *)
Definition fused_channel (bimsk : bool) (colour : Z) (x : float32) : float32 :=
  let k := Float64.mul (Float64.decimal 7 1) (Float64.of_int (of_bool bimsk)) in
  Float64.to_float
    (Float64.div
       (Float64.sub
          (Float64.add (Float64.of_float x) (Float64.mul k (Float64.of_int colour)))
          (Float64.mul k (Float64.of_float x)))
       (Float64.of_float (f_of_int 255))).

(** Lines 301-322: the body of the loop over [w]. *)
Definition fuse_pixel (class_colour_lookup_ : list ClassColour)
    (input_image : list Z) (obj_data : list float32) (width h w : Z)
    (image_data : list float32) : outcome (list float32) :=
  r ← read input_image (h * (width * 3) + (3 * w + 0));
  g ← read input_image (h * (width * 3) + (3 * w + 1));
  b ← read input_image (h * (width * 3) + (3 * w + 2));
  obj ← read obj_data (h * width + w);
  let obj_id := f_to_int obj in
  let bimsk := negb (bool_decide (obj_id = 0)) in
  colour ← read class_colour_lookup_ (obj_id - 1);
  image_data ← write image_data ((h * width + w) * 4 + 0)
                 (fused_channel bimsk (ColourScheme.r colour) (f_of_int r));
  image_data ← write image_data ((h * width + w) * 4 + 1)
                 (fused_channel bimsk (ColourScheme.g colour) (f_of_int g));
  image_data ← write image_data ((h * width + w) * 4 + 2)
                 (fused_channel bimsk (ColourScheme.b colour) (f_of_int b));
  write image_data ((h * width + w) * 4 + 3) (f_of_int 1).

(** [displayInstanceFusePredictions(id, rgb, height, width,
    rendered_objects)], lines 285-336, up to the copy to the texture.
    [obj_data] is the data of [rendered_objects]. *)
Definition displayInstanceFusePredictions (class_colour_lookup_ : list ClassColour)
    (rgb : list Z) (height width : Z) (obj_data image_data : list float32)
    : outcome (list float32) :=
  input_image ← clone rgb height width;
  for_each (seqZ 0 height)
    (λ h, for_each (seqZ 0 width)
            (fuse_pixel class_colour_lookup_ input_image obj_data width h))
    image_data.
(** A value of an [unsigned char]. *)
Definition byte (p : Z) : Prop := 0 ≤ p ≤ 255.

(** A colour whose components are values of an [unsigned char]. *)
Definition colour_bytes (colour : ClassColour) : Prop :=
  byte (r colour) ∧ byte (g colour) ∧ byte (b colour).

(** Channel [k] of a colour: 0 for r, 1 for g, 2 for b. *)
Definition channel (k : Z) (colour : ClassColour) : Z :=
  if decide (k = 0) then r colour
  else if decide (k = 1) then g colour
  else b colour.

(** A mask whose box lies in an image of [height] rows and [width]
    columns, and whose matrix holds a byte for every pixel of the box. *)
Definition fits (height width : Z) (mask : MaskInfo) : Prop :=
  0 ≤ y1 mask ∧ y2 mask < height ∧ 0 ≤ x1 mask ∧ x2 mask < width
  ∧ Forall byte (bytes (cv_mat mask))
  ∧ ∀ h w, 0 ≤ h ≤ y2 mask - y1 mask → 0 ≤ w ≤ x2 mask - x1 mask →
      is_Some (load (bytes (cv_mat mask)) (h * step (cv_mat mask) + w)).

(** The mask is set at pixel ([y], [x]) of the image: the pixel is in the
    box, and the byte of the mask for it is 103 or more. *)
Definition covers (mask : MaskInfo) (y x : Z) : bool :=
  bool_decide (y1 mask ≤ y ≤ y2 mask ∧ x1 mask ≤ x ≤ x2 mask)
  && match load (bytes (cv_mat mask))
             ((y - y1 mask) * step (cv_mat mask) + (x - x1 mask)) with
     | Some msk => bool_decide (103 ≤ msk)
     | None => false
     end.

(** Channel [k] of pixel ([y], [x]) after the masks [masks], of which the
    first is mask [i], have been drawn one after the other on the value
    [image]. *)
Fixpoint painted (class_colour_lookup_ : list ClassColour) (k y x : Z)
    (i : Z) (masks : list MaskInfo) (image : Z) : Z :=
  match masks with
  | [] => image
  | mask :: masks' =>
      painted class_colour_lookup_ k y x (i + 1) masks'
        (if covers mask y x then
           match load class_colour_lookup_ (i + 1) with
           | Some colour => masked_channel true (channel k colour) image
           | None => image
           end
         else image)
  end.
End Display.

(** ** [main_1]: the run over the frames *)

Module Main.
Import ColourScheme.

(** What [main_1] does that can be seen from outside: a line on
    [std::cout], and the calls on the objects of the other subsystems with
    their arguments. *)
Inductive event :=
  | Cout (line : string)
  | NewObjectFusionInterface (num_classes n : Z)
  | ResolutionGetInstance (width height : Z)
  | IntrinsicsGetInstance (fx fy cx cy : Z)
  | NewGui (live_capture : bool) (class_colour_lookup : list ClassColour)
      (width height : Z)
  | NewElasticFusionInterface
  | NewMaskLogReader (file labels_file : string)
  | MapInit (class_colour_lookup : list ClassColour)
  | GetNext
  | GetMasks
  | SetTrackingOnly (value : bool)
  | ProcessFrame
  | UpdateObjectTable
  | GetNumMasks
  | UpdateObjectIds.

Definition cnn_skip_frames : Z := 0.
Definition num_classes : Z := 14.

(** Line 156: [cnn_skip_frames == 0 || frame_num == 0 ||
    (frame_num > 1 && ((frame_num + 1) % cnn_skip_frames == 0))], with the
    short circuit of the two operators; a remainder by zero has no
    value. *)
Definition cnn_due (frame_num : Z) : option bool :=
  if decide (cnn_skip_frames = 0) then Some true
  else if decide (frame_num = 0) then Some true
  else if decide (frame_num > 1) then
    if decide (cnn_skip_frames = 0) then None
    else Some (bool_decide (Z.rem (frame_num + 1) cnn_skip_frames = 0))
  else Some false.

Section main.
(** The content of the colour file, the default-constructed colour, the
    arguments of the program, and the results of the calls that return
    one: [map->Init] and [map->ProcessFrame] on each frame. *)
Variable colour_file : string.
Variable default_colour : ClassColour.
Variable argv : list string.
Variable init_ok : bool.
Variable process_frame : Z → bool.

(** Lines 128-149: a frame up to the call of [ProcessFrame]. *)
Definition before_tracking : list event :=
  [GetNext; GetMasks; SetTrackingOnly false; Cout "ProcessFrame"; ProcessFrame].

(** Lines 153-161: the rest of a frame that was tracked. *)
Definition after_tracking (due : bool) : list event :=
  [Cout "UpdateProbabilityTable"; UpdateObjectTable]
  ++ (if due then [GetNumMasks; UpdateObjectIds] else []).

(** Lines 150-151: the rest of a frame that was lost. *)
Definition after_loss (argv1 : string) : list event :=
  [Cout ("Elastic fusion lost!" +:+ argv1)].

(** Lines 127-164: the loop [while(frame_num < 10)] over the frames that
    are still to come; the result is what is seen and the value [main_1]
    returns. *)
Fixpoint frames (argv1 : string) (frame_nums : list Z)
    : outcome (list event * Z) :=
  match frame_nums with
  | [] => Done ([], 0)
  | frame_num :: rest =>
      if process_frame frame_num then
        match cnn_due frame_num with
        | None => Undefined
        | Some due =>
            match frames argv1 rest with
            | Done (seen, code) =>
                Done (before_tracking ++ after_tracking due ++ seen, code)
            | other => other
            end
        end
      else Done (before_tracking ++ after_loss argv1, 1)
  end.

(** Lines 79-125: what is seen before the loop. *)
Definition start_up (class_colour_lookup : list ClassColour)
    (argv1 argv2 : string) : list event :=
  [Cout "Network produces 14 output classes";
   Cout "initialising ObjectFusionInterface";
   NewObjectFusionInterface num_classes 100;
   ResolutionGetInstance 640 480;
   IntrinsicsGetInstance 528 528 320 240;
   Cout "Initialising Gui";
   NewGui true class_colour_lookup 640 480;
   Cout "Initialising ElasticFusionInterface";
   NewElasticFusionInterface;
   Cout "Initialising LogReader";
   NewMaskLogReader argv1 argv2;
   MapInit class_colour_lookup]
  ++ (if init_ok then [] else [Cout "ElasticFusionInterface init failure"])
  ++ [Cout "Start Running!"].

(** [main_1(argc, argv)], lines 59-250; [argv] holds the [argc] arguments.
    [argv[1]] and [argv[2]] are read without a look at [argc]: with fewer
    than three arguments one of them is a null pointer, and building a
    [std::string] from it is undefined behaviour.  A failed assertion of
    the loader ends the program. *)
Definition main_1 : outcome (list event * Z) :=
  match load_colour_scheme_ default_colour colour_file num_classes with
  | Done class_colour_lookup =>
      match argv !! 1%nat, argv !! 2%nat with
      | Some argv1, Some argv2 =>
          match frames argv1 (seqZ 0 10) with
          | Done (seen, code) =>
              Done (start_up class_colour_lookup argv1 argv2 ++ seen, code)
          | other => other
          end
      | _, _ => Undefined
      end
  | AssertionFailed => AssertionFailed
  | Undefined => Undefined
  | Thrown => Thrown
  end.
End main.
End Main.

(** ** Concrete inputs *)

Module Examples.
Import Float32.

Definition half : float32 := of_Z2 1 (-1).
Definition quarter : float32 := of_Z2 1 (-2).
Definition minus_one : float32 := of_Z2 (-1) 0.

Definition blob {F} (c h w : Z) (d : list F) : Blob F :=
  {| channels := c; height := h; width := w; data := d |}.

(** A state of the interface: [table] is the CPU table of
    [UpdateSurfelProbabilities], the two lists are the active table and
    the active summary buffer; the inactive buffers hold [filler]. *)
Definition state {F} (num_classes max_components current_table_size : Z)
    (threshold filler : F) (table : list (list F)) (gpu_table gpu_max : list F)
    : SemanticFusionInterface F :=
  {| current_table_size_ := current_table_size;
     num_classes_ := num_classes;
     max_components_ := max_components;
     colour_threshold_ := threshold;
     class_probabilities_ := table;
     class_probabilities_gpu_ := blob 1 num_classes max_components gpu_table;
     class_probabilities_gpu_buffer_ :=
       blob 1 num_classes max_components
         (replicate (Z.to_nat (num_classes * max_components)) filler);
     class_max_gpu_ := blob 1 2 max_components gpu_max;
     class_max_gpu_buffer_ :=
       blob 1 2 max_components (replicate (Z.to_nat (2 * max_components)) filler) |}.

(** A row whose mass collapses under the observation (0, 1). *)
Definition collapsing : SemanticFusionInterface float32 :=
  state 2 1 1 zero zero [[one; zero]] [] [].

(** A row with two equal entries. *)
Definition tied : SemanticFusionInterface float32 :=
  state 2 1 1 zero zero [[half; half]] [] [].

(** A row whose greatest entry is the threshold itself. *)
Definition at_threshold : SemanticFusionInterface float32 :=
  state 3 1 1 half zero [[half; quarter; quarter]] [] [].

(** One live row of three classes, and an inference result with a value
    to keep, a NaN and a 1.0. *)
Definition one_row : SemanticFusionInterface float32 :=
  state 3 1 1 zero zero [] [quarter; quarter; half] [zero; half].

Definition inference_result : list float32 := [half; NaN; one].

(** One live row of two classes, and an inference result inside (0,1). *)
Definition two_classes : SemanticFusionInterface float32 :=
  state 2 1 1 zero zero [] [half; half] [zero; half].

Definition inference_inside : list float32 := [quarter; of_Z2 3 (-2)].

(** Two rows of two classes, and a mapping subsystem that reports no
    change. *)
Definition two_rows : SemanticFusionInterface float32 :=
  state 2 2 2 zero zero [] [half; quarter; half; of_Z2 3 (-2)]
    [zero; one; half; of_Z2 3 (-2)].

Definition unchanged_map : ElasticFusionInterface :=
  {| GetMapSurfelCount := 2;
     GetMapSurfelDeletedCount := 0;
     GetDeletedSurfelIdsGpu := [];
     GetSurfelIdsCpu := [];
     GetSurfelIdsGpu := [];
     map_width := 640;
     map_height := 480 |}.

(** An identity raster in which every pixel shows element 1. *)
Definition raster_of_ones : list Z := replicate (Z.to_nat (640 * 480)) 1.

(** Element 1 with the summary of a collapsed row: class -1,
    probability 0.0. *)
Definition collapsed_summary : SemanticFusionInterface float32 :=
  state 2 2 2 zero zero [] [] [zero; minus_one; zero; zero].

(** Element 1 with class 1 and probability 0.75. *)
Definition confident_summary : SemanticFusionInterface float32 :=
  state 2 2 2 zero zero [] [] [zero; one; zero; of_Z2 3 (-2)].

Definition line_feed : string := String "010"%char EmptyString.

Definition default_colour : ColourScheme.ClassColour :=
  {| ColourScheme.name := EmptyString;
     ColourScheme.r := 0; ColourScheme.g := 0; ColourScheme.b := 0 |}.

(** A colour file in the format the loader reads. *)
Definition colour_file : string :=
  ("Class colours" +:+ line_feed +:+ "name id r g b" +:+ line_feed
   +:+ "wall 1 10 20 30" +:+ line_feed +:+ "floor 0 1 2 3" +:+ line_feed)%string.

(** A colour file whose row is an id followed by r, g and b. *)
Definition bare_colour_file : string :=
  ("Class colours" +:+ line_feed +:+ "id r g b" +:+ line_feed
   +:+ "3 10 20 30" +:+ line_feed)%string.

(** A CPU table of two rows of two classes. *)
Definition two_table_rows : SemanticFusionInterface float32 :=
  state 2 2 2 zero zero [[half; half]; [quarter; of_Z2 3 (-2)]] [] [].

(** Three classes and room for two rows, of which row 0 is live. *)
Definition one_live_row : SemanticFusionInterface float32 :=
  state 3 2 1 zero zero [] [quarter; one; quarter; one; half; one] [].

(** An inference result that the filter rejects throughout. *)
Definition rejected_result : list float32 := [zero; NaN; one].

(** A colour file whose second row has a negative id. *)
Definition negative_id_file : string :=
  ("Class colours" +:+ line_feed +:+ "name id r g b" +:+ line_feed
   +:+ "floor 0 1 2 3" +:+ line_feed +:+ "wall -1 10 20 30" +:+ line_feed)%string.

(** A colour file with a line of blanks between two rows. *)
Definition blank_row_file : string :=
  ("Class colours" +:+ line_feed +:+ "name id r g b" +:+ line_feed
   +:+ "floor 0 1 2 3" +:+ line_feed +:+ "  " +:+ line_feed
   +:+ "wall 1 10 20 30" +:+ line_feed)%string.

(** The arguments of a run on a log and its labels. *)
Definition arguments : list string :=
  ["SemanticFusion"; "frames.txt"; "labels.txt"]%string.

(** A [std::hash] of 64 bits for integers: the value itself. *)
Definition hash_int (z : Z) : Z := z mod 2 ^ 64.

(** An image of one pixel, two colours, and a mask that is set on the
    pixel. *)
Definition one_pixel : list Z := [10; 20; 30].

Definition red : ColourScheme.ClassColour :=
  {| ColourScheme.name := "red";
     ColourScheme.r := 255; ColourScheme.g := 0; ColourScheme.b := 0 |}.

Definition green : ColourScheme.ClassColour :=
  {| ColourScheme.name := "green";
     ColourScheme.r := 0; ColourScheme.g := 255; ColourScheme.b := 0 |}.

Definition pixel_mask : Display.MaskInfo :=
  {| Display.x1 := 0; Display.y1 := 0; Display.x2 := 0; Display.y2 := 0;
     Display.cv_mat := {| Display.step := 1; Display.bytes := [255] |} |}.

(** The memory of a blob of five floats. *)
Definition five_floats : list float32 := [zero; zero; zero; zero; half].
End Examples.

(** * Properties *)

(** ** Loads and stores *)

Section buffers.
Context {A : Type}.
Implicit Types (p : list A) (k : Z).

Lemma length_store p k x : length (store p k x) = length p.
Proof. unfold store. case_decide; [apply length_insert|done]. Qed.

Lemma load_store_eq p k x :
  0 ≤ k < Z.of_nat (length p) → load (store p k x) k = Some x.
Proof.
  intros Hk. unfold load, store. rewrite !decide_True by lia.
  apply list_lookup_insert_eq. lia.
Qed.

Lemma load_store_ne p k k' x : k ≠ k' → load (store p k x) k' = load p k'.
Proof.
  intros Hne. unfold load, store. repeat case_decide; try done.
  apply list_lookup_insert_ne. lia.
Qed.

Lemma load_is_Some p k : 0 ≤ k < Z.of_nat (length p) → is_Some (load p k).
Proof.
  intros Hk. unfold load. rewrite decide_True by lia.
  apply lookup_lt_is_Some_2. lia.
Qed.

Lemma load_seqZ (m n k : Z) : 0 ≤ k < n → load (seqZ m n) k = Some (m + k).
Proof.
  intros Hk. unfold load. rewrite decide_True by lia.
  rewrite <- (Z2Nat.id k) at 2 by lia. apply lookup_seqZ_lt. lia.
Qed.
End buffers.

(** ** The order of [binary32] *)

Section float_order.
Import Float32.
Implicit Types x y z : float32.

Local Ltac order_cases x y :=
  destruct x as [[]|[]| |[] ? ?], y as [[]|[]| |[] ? ?];
  unfold SFleb, SFltb, SFeqb, SFcompare, lex_le, lex_lt, ord, is_nan;
  cbn [fst snd];
  repeat match goal with
    | |- context [Z.compare ?a ?b] => destruct (Z.compare_spec a b)
    | |- context [Pos.compare_cont Eq ?a ?b] =>
        change (Pos.compare_cont Eq a b) with (Pos.compare a b);
        destruct (Pos.compare_spec a b)
    end;
  cbn [CompOpp];
  (split; [intros ? | intros (? & ? & ?)]);
  repeat split; try done; try lia.

Lemma SFleb_ord x y :
  SFleb x y = true ↔ is_nan x = false ∧ is_nan y = false ∧ lex_le (ord x) (ord y).
Proof. order_cases x y. Qed.

Lemma SFltb_ord x y :
  SFltb x y = true ↔ is_nan x = false ∧ is_nan y = false ∧ lex_lt (ord x) (ord y).
Proof. order_cases x y. Qed.

Lemma SFeqb_ord x y :
  SFeqb x y = true ↔ is_nan x = false ∧ is_nan y = false ∧ ord x = ord y.
Proof. order_cases x y; simplify_eq; done || lia. Qed.
Lemma SFleb_refl x : is_nan x = false → SFleb x x = true.
Proof. intros. apply SFleb_ord. unfold lex_le. repeat split; try done. lia. Qed.

Lemma SFleb_trans x y z : SFleb x y = true → SFleb y z = true → SFleb x z = true.
Proof.
  rewrite !SFleb_ord. unfold lex_le.
  intros (? & ? & ?) (? & ? & ?). repeat split; try done. lia.
Qed.

Lemma SFleb_total x y :
  is_nan x = false → is_nan y = false → SFleb x y = false → SFleb y x = true.
Proof.
  intros Hx Hy Hle. apply SFleb_ord. repeat split; try done.
  destruct (decide (lex_le (ord x) (ord y))) as [Hl|Hl].
  - assert (SFleb x y = true) by (by apply SFleb_ord). congruence.
  - unfold lex_le in *. lia.
Qed.

Lemma SFltb_SFleb x y : SFltb x y = true → SFleb y x = false.
Proof.
  rewrite SFltb_ord. intros (? & ? & Hlt).
  destruct (SFleb y x) eqn:Hle; [|done].
  apply SFleb_ord in Hle as (_ & _ & Hle). unfold lex_le, lex_lt in *. lia.
Qed.

Lemma SFeqb_SFleb x y : SFeqb x y = true → SFleb y x = true.
Proof.
  rewrite SFeqb_ord, SFleb_ord. intros (? & ? & Heq).
  repeat split; try done. rewrite Heq. unfold lex_le. lia.
Qed.

Lemma SFleb_not_nan x y : SFleb x y = true → is_nan x = false ∧ is_nan y = false.
Proof. rewrite SFleb_ord. tauto. Qed.
Lemma SFleb_SFltb x y : SFleb x y = true → SFltb y x = false.
Proof.
  intros Hle. destruct (SFltb y x) eqn:Hlt; [|done].
  apply SFltb_SFleb in Hlt. congruence.
Qed.

Lemma SFltb_SFleb_weak x y : SFltb x y = true → SFleb x y = true.
Proof.
  rewrite SFltb_ord, SFleb_ord. unfold lex_lt, lex_le.
  intros (? & ? & ?). repeat split; try done. lia.
Qed.

Lemma SFltb_trans x y z : SFltb x y = true → SFltb y z = true → SFltb x z = true.
Proof.
  rewrite !SFltb_ord. unfold lex_lt.
  intros (? & ? & ?) (? & ? & ?). repeat split; try done. lia.
Qed.

Lemma SFltb_above x y z : SFltb x z = false → SFleb x y = true → SFltb y z = false.
Proof.
  intros Hxz Hxy. destruct (SFltb y z) eqn:Hyz; [|done].
  apply SFleb_ord in Hxy as (? & ? & ?). apply SFltb_ord in Hyz as (? & ? & ?).
  assert (SFltb x z = true); [|congruence].
  apply SFltb_ord. repeat split; try done. unfold lex_lt, lex_le in *. lia.
Qed.

End float_order.

(** ** Compaction by [remove_index] *)

Section remove_index_correct.
Import RemoveIndex.
Context {T : Type}.
Implicit Types (v : list T) (D : list Z).

Lemma std_move_n_splice n : ∀ v first d,
  (d ≤ first)%nat → (first + n ≤ length v)%nat →
  std_move_n n v first d = take d v ++ take n (drop first v) ++ drop (d + n) v.
Proof.
  induction n as [|n IH]; intros v first d Hd Hlen; simpl.
  - rewrite Nat.add_0_r. by rewrite take_drop.
  - destruct (lookup_lt_is_Some_2 v first) as [x Hx]; [lia|].
    rewrite Hx. rewrite IH by (rewrite ?length_insert; lia).
    rewrite (take_S_r _ d x) by (apply list_lookup_insert_eq; lia).
    rewrite take_insert_ge by lia.
    rewrite !drop_insert_lt by lia.
    rewrite (drop_S v x first Hx). simpl.
    rewrite <- app_assoc. simpl. by rewrite Nat.add_succ_r.
Qed.

Lemma std_move_splice v first last d :
  0 ≤ d ≤ first → first ≤ last ≤ Z.of_nat (length v) →
  std_move v first last d =
    take (Z.to_nat d) v ++ take (Z.to_nat (last - first)) (drop (Z.to_nat first) v)
      ++ drop (Z.to_nat (d + (last - first))) v.
Proof.
  intros Hd Hl. unfold std_move. rewrite decide_True by lia.
  rewrite std_move_n_splice by lia.
  do 3 f_equal. lia.
Qed.

Lemma length_std_move_n n : ∀ v first d, length (std_move_n n v first d) = length v.
Proof.
  induction n as [|n IH]; intros v first d; simpl; [done|].
  destruct (v !! first); [|done]. by rewrite IH, length_insert.
Qed.

Lemma length_std_move v first last d : length (std_move v first last d) = length v.
Proof. unfold std_move. case_decide; [apply length_std_move_n|done]. Qed.

Lemma length_remove_loop D : ∀ v k, length (remove_loop v D k) = length v.
Proof.
  induction D as [|it rest IH]; intros v k; simpl; [done|].
  by rewrite IH, length_std_move.
Qed.

(** Deletions below the current index do not matter. *)
Lemma survivors_from_cons_lt v : ∀ i d D,
  d < i → survivors_from i v (d :: D) = survivors_from i v D.
Proof.
  induction v as [|x v IH]; intros i d D Hd; simpl; [done|].
  rewrite IH by lia.
  destruct (decide (i ∈ D)) as [Hin|Hin].
  - rewrite decide_True; [done|]. rewrite elem_of_cons. by right.
  - rewrite decide_False; [done|].
    rewrite elem_of_cons. intros [?|?]; [lia|done].
Qed.

(** Below the first deletion every element survives. *)
Lemma survivors_from_app_keep v1 : ∀ i v2 D,
  Forall (λ d, i + Z.of_nat (length v1) ≤ d) D →
  survivors_from i (v1 ++ v2) D = v1 ++ survivors_from (i + Z.of_nat (length v1)) v2 D.
Proof.
  induction v1 as [|x v1 IH]; intros i v2 D HD; simpl.
  - by rewrite Z.add_0_r.
  - rewrite decide_False.
    + rewrite IH.
      * do 3 f_equal. lia.
      * eapply Forall_impl; [exact HD|]. simpl. intros; lia.
    + intros Hin. rewrite Forall_forall in HD. specialize (HD _ Hin).
      simpl in HD. lia.
Qed.

Lemma survivors_from_nil i v : survivors_from i v [] = v.
Proof.
  revert i. induction v as [|x v IH]; intros i; cbn [survivors_from]; [done|].
  rewrite decide_False by (apply not_elem_of_nil). by rewrite IH.
Qed.

(** The list left in the first [size - down_by - #to_remove] slots by the
    loop, started at any point of the iteration. *)
Lemma remove_loop_cons rest : ∀ it v k,
  0 ≤ k ≤ it →
  StronglySorted Z.lt (it :: rest) →
  Forall (λ d, d < Z.of_nat (length v)) (it :: rest) →
  take (Z.to_nat (Z.of_nat (length v) - k - Z.of_nat (length (it :: rest))))
       (remove_loop v (it :: rest) k)
  = take (Z.to_nat (it - k)) v
      ++ survivors_from it (drop (Z.to_nat it) v) (it :: rest).
Proof.
  induction rest as [|n rest IH]; intros it v k Hk Hsort Hlt.
  - apply Forall_cons in Hlt as [Hit _].
    cbn [remove_loop length].
    rewrite std_move_splice by lia.
    rewrite app_assoc.
    rewrite take_app_length'.
    2:{ rewrite length_app, !length_take, length_drop. lia. }
    rewrite (take_ge (drop _ v)) by (rewrite length_drop; lia).
    destruct (lookup_lt_is_Some_2 v (Z.to_nat it)) as [x Hx]; [lia|].
    rewrite (drop_S v x _ Hx). cbn [survivors_from].
    rewrite decide_True by (apply elem_of_cons; by left).
    rewrite (survivors_from_cons_lt _ (it + 1) it) by lia.
    rewrite survivors_from_nil.
    do 2 f_equal. lia.
  - pose proof Hlt as Hlt'.
    apply Forall_cons in Hlt' as [Hit Hlt'].
    pose proof Hlt' as Hlt''. apply Forall_cons in Hlt'' as [Hn _].
    pose proof Hsort as Hsort'.
    apply StronglySorted_inv in Hsort' as [Hsort' Hall].
    pose proof Hall as Hall'. apply Forall_cons in Hall' as [Hitn Hall'].
    change (remove_loop v (it :: n :: rest) k)
      with (remove_loop (std_move v (it + 1) n (it - k)) (n :: rest) (k + 1)).
    set (v' := std_move v (it + 1) n (it - k)).
    assert (Hlen : length v' = length v) by apply length_std_move.
    assert (Hv' : v' = take (Z.to_nat (it - k)) v
              ++ take (Z.to_nat (n - (it + 1))) (drop (Z.to_nat (it + 1)) v)
              ++ drop (Z.to_nat (it - k + (n - (it + 1)))) v).
    { unfold v'. apply std_move_splice; lia. }
    specialize (IH n v' (k + 1)).
    rewrite Hlen in IH.
    replace (Z.of_nat (length v) - k - Z.of_nat (length (it :: n :: rest)))
      with (Z.of_nat (length v) - (k + 1) - Z.of_nat (length (n :: rest)))
      by (cbn [length]; lia).
    rewrite IH; [|lia|done|done].
    (* the front of [v'] and the untouched tail *)
    assert (Htake : take (Z.to_nat (n - (k + 1))) v'
              = take (Z.to_nat (it - k)) v
                ++ take (Z.to_nat (n - (it + 1))) (drop (Z.to_nat (it + 1)) v)).
    { rewrite Hv', app_assoc. apply take_app_length'.
      rewrite length_app, !length_take, length_drop. lia. }
    assert (Hdrop : drop (Z.to_nat n) v' = drop (Z.to_nat n) v).
    { rewrite Hv', app_assoc.
      rewrite drop_app_ge by (rewrite length_app, !length_take, length_drop; lia).
      rewrite length_app, !length_take, length_drop, drop_drop.
      f_equal. lia. }
    rewrite Htake, Hdrop, <- app_assoc. f_equal.
    destruct (lookup_lt_is_Some_2 v (Z.to_nat it)) as [x Hx]; [lia|].
    rewrite (drop_S v x _ Hx). cbn [survivors_from].
    rewrite decide_True by (apply elem_of_cons; by left).
    rewrite (survivors_from_cons_lt _ (it + 1) it) by lia.
    replace (drop (S (Z.to_nat it)) v)
      with (take (Z.to_nat (n - (it + 1))) (drop (Z.to_nat (it + 1)) v)
            ++ drop (Z.to_nat n) v).
    2:{ replace (Z.to_nat (it + 1)) with (S (Z.to_nat it)) by lia.
        replace (Z.to_nat n)
          with (S (Z.to_nat it) + Z.to_nat (n - (it + 1)))%nat by lia.
        rewrite <- drop_drop. apply take_drop. }
    rewrite survivors_from_app_keep.
    + rewrite length_take, length_drop.
      do 2 f_equal. lia.
    + rewrite length_take, length_drop.
      apply Forall_cons. split; [lia|].
      destruct (StronglySorted_inv Hsort') as [_ Hnrest].
      eapply Forall_impl; [exact Hnrest|].
      simpl. intros; lia.
Qed.

Lemma deletion_set_NoDup D : StronglySorted Z.lt D → NoDup D.
Proof.
  induction 1 as [|d D _ IH Hall]; [constructor|].
  apply NoDup_cons. split; [|done].
  intros Hin. rewrite Forall_forall in Hall. specialize (Hall _ Hin). lia.
Qed.

(** Distinct integers inside an interval are at most as many as the
    interval is long. *)
Lemma length_filter_interval (D : list Z) lo hi :
  NoDup D → lo ≤ hi →
  Z.of_nat (length (filter (λ d, lo ≤ d < hi) D)) ≤ hi - lo.
Proof.
  intros Hnd Hle.
  assert (Hsub : filter (λ d, lo ≤ d < hi) D ⊆+ seqZ lo (hi - lo)).
  { apply NoDup_submseteq; [by apply NoDup_filter|].
    intros d [Hd _]%list_elem_of_filter. apply elem_of_seqZ. lia. }
  apply submseteq_length in Hsub. rewrite length_seqZ in Hsub. lia.
Qed.

Lemma filter_interval_notin (D : list Z) lo hi :
  lo ∉ D → filter (λ d, lo ≤ d < hi) D = filter (λ d, lo + 1 ≤ d < hi) D.
Proof.
  induction D as [|d D IH]; intros Hlo; [done|].
  apply not_elem_of_cons in Hlo as [Hne Hlo].
  destruct (decide (lo ≤ d < hi)).
  - rewrite !filter_cons_True by lia. by rewrite IH.
  - rewrite !filter_cons_False by lia. by rewrite IH.
Qed.

Lemma filter_interval_in (D : list Z) lo hi :
  NoDup D → lo ∈ D → lo < hi →
  length (filter (λ d, lo ≤ d < hi) D)
  = S (length (filter (λ d, lo + 1 ≤ d < hi) D)).
Proof.
  induction D as [|d D IH]; intros Hnd Hin Hlt.
  - by apply elem_of_nil in Hin.
  - apply NoDup_cons in Hnd as [Hd Hnd].
    apply elem_of_cons in Hin as [->|Hin].
    + rewrite filter_cons_True by lia.
      rewrite (filter_cons_False _ d) by lia.
      by rewrite filter_interval_notin.
    + assert (d ≠ lo) by (intros ->; done).
      destruct (decide (lo + 1 ≤ d < hi)).
      * rewrite !filter_cons_True by lia. simpl. by rewrite IH.
      * rewrite !filter_cons_False by lia. by rewrite IH.
Qed.

(** A surviving element moves down by the number of deletions between
    the start of the list and its own index. *)
Lemma survivors_from_lookup v : ∀ i0 D i x,
  NoDup D → v !! i = Some x → i0 + Z.of_nat i ∉ D →
  survivors_from i0 v D
    !! (i - length (filter (λ d, (i0 ≤ d < i0 + Z.of_nat i)%Z) D))%nat = Some x.
Proof.
  induction v as [|y v IH]; intros i0 D i x Hnd Hx Hi; [done|].
  destruct i as [|i]; cbn [survivors_from].
  - rewrite Z.add_0_r in Hi. rewrite decide_False by done.
    simpl in Hx. by simplify_eq.
  - simpl in Hx.
    specialize (IH (i0 + 1) D i x Hnd Hx).
    replace (i0 + 1 + Z.of_nat i) with (i0 + Z.of_nat (S i)) in IH by lia.
    specialize (IH Hi).
    pose proof (length_filter_interval D (i0 + 1) (i0 + Z.of_nat (S i)) Hnd) as Hb.
    destruct (decide (i0 ∈ D)) as [Hin|Hin].
    + rewrite filter_interval_in by (done || lia).
      by rewrite Nat.sub_succ.
    + rewrite filter_interval_notin by done.
      rewrite <- IH.
      rewrite Nat.sub_succ_l by lia. done.
Qed.

Lemma length_deletion_set (D : list Z) : ∀ lo hi,
  StronglySorted Z.lt D → Forall (λ d, lo ≤ d < hi) D → lo ≤ hi →
  Z.of_nat (length D) ≤ hi - lo.
Proof.
  induction D as [|d D IH]; intros lo hi Hs Hr Hle; simpl; [lia|].
  apply StronglySorted_inv in Hs as [Hs Hall].
  apply Forall_cons in Hr as [Hd Hr].
  specialize (IH (d + 1) hi Hs).
  assert (Forall (λ d0, d + 1 ≤ d0 < hi) D) as Hr'.
  { rewrite Forall_forall in *. intros e He.
    specialize (Hr e He). specialize (Hall e He). simpl in *. lia. }
  specialize (IH Hr'). lia.
Qed.

Lemma filter_below_interval D i :
  Forall (λ d, 0 ≤ d) D →
  filter (λ d, d < i) D = filter (λ d, 0 ≤ d < i) D.
Proof.
  induction 1 as [|d D Hd _ IH]; [done|].
  destruct (decide (d < i)).
  - rewrite !filter_cons_True by lia. by rewrite IH.
  - rewrite !filter_cons_False by lia. by rewrite IH.
Qed.

(** C2. For a table [v] and a deletion set [D] that is ascending, without
    repetition and inside the table, [remove_index] returns the rows of
    [v] whose index is not in [D], in their original order: the result has
    [length v - length D] rows, and the row at a surviving index [i] is
    found at [i] minus the number of deletions that precede [i]. *)
Theorem remove_index_compacts v D :
  deletion_set D (length v) →
  remove_index v D = Some (survivors v D)
  ∧ length (survivors v D) = (length v - length D)%nat
  ∧ ∀ i x, v !! i = Some x → Z.of_nat i ∉ D →
      survivors v D !! (i - preceding D (Z.of_nat i))%nat = Some x.
Proof.
  intros [Hsort Hrange].
  assert (Hlen : (length D ≤ length v)%nat).
  { pose proof (length_deletion_set D 0 (Z.of_nat (length v)) Hsort Hrange). lia. }
  assert (Hres : remove_index v D = Some (survivors v D)).
  { unfold remove_index. rewrite decide_True by done. f_equal.
    destruct D as [|it rest].
    - cbn [remove_loop length]. rewrite Nat.sub_0_r, firstn_all.
      unfold survivors. by rewrite survivors_from_nil.
    - pose proof (remove_loop_cons rest it v 0) as Hloop.
      pose proof Hrange as Hr. apply Forall_cons in Hr as [Hit _].
      replace (Z.to_nat (Z.of_nat (length v) - 0 - Z.of_nat (length (it :: rest))))
        with (length v - length (it :: rest))%nat in Hloop by lia.
      rewrite Hloop; [|lia|done|].
      2:{ eapply Forall_impl; [exact Hrange|]. simpl. intros; lia. }
      unfold survivors.
      rewrite <- (take_drop (Z.to_nat it) v) at 3.
      rewrite survivors_from_app_keep.
      + rewrite length_take. do 2 f_equal; lia.
      + rewrite length_take. apply Forall_cons. split; [lia|].
        destruct (StronglySorted_inv Hsort) as [_ Hall].
        eapply Forall_impl; [exact Hall|]. simpl. intros; lia. }
  split; [done|]. split.
  - unfold remove_index in Hres. rewrite decide_True in Hres by done.
    injection Hres as <-.
    rewrite length_take, length_remove_loop. lia.
  - intros i x Hx Hi. unfold survivors, preceding.
    pose proof (survivors_from_lookup v 0 D i x
                  (deletion_set_NoDup D Hsort) Hx) as Hl.
    rewrite Z.add_0_l in Hl. specialize (Hl Hi).
    rewrite filter_below_interval; [exact Hl|].
    eapply Forall_impl; [exact Hrange|]. simpl. intros; lia.
Qed.

(** The instance of the specification: width 5, deletions {1,3}. *)
Example remove_index_width5 (r0 r1 r2 r3 r4 : T) :
  remove_index [r0; r1; r2; r3; r4] [1; 3] = Some [r0; r2; r4].
Proof. reflexivity. Qed.
End remove_index_correct.

(** Width 5, deletions {1,3}: the rows are labelled by their old index. *)
Lemma remove_index_compacts_witness :
  RemoveIndex.remove_index [0; 1; 2; 3; 4] [1; 3] = Some [0; 2; 4].
Proof.
  refine (proj1 (remove_index_compacts [0; 1; 2; 3; 4] [1; 3] _)).
  split; [repeat constructor; lia | repeat constructor; simpl; lia].
Defined.

(** ** The fusion update *)

Section fusion_loops.
Import Fusion.
Context `{FloatOps F}.
Implicit Types (row obs xs : list F).

(** The first loop computes the products and their plain sum. *)
Lemma multiply_loop_spec n : ∀ c row obs acc,
  (c + n)%nat = length row → length obs = length row →
  multiply_loop n c row obs acc
  = (take c row ++ zip_with f_mul (drop c row) (drop c obs),
     foldl f_add acc (zip_with f_mul (drop c row) (drop c obs))).
Proof.
  induction n as [|n IH]; intros c row obs acc Hlen Hobs; cbn [multiply_loop].
  - rewrite !drop_ge by lia. simpl. by rewrite app_nil_r, take_ge by lia.
  - destruct (lookup_lt_is_Some_2 row c) as [p Hp]; [lia|].
    destruct (lookup_lt_is_Some_2 obs c) as [q Hq]; [lia|].
    rewrite Hp, Hq. rewrite IH by (rewrite ?length_insert; lia).
    rewrite (take_S_r _ c (f_mul p q)) by (apply list_lookup_insert_eq; lia).
    rewrite take_insert_ge by lia.
    rewrite drop_insert_lt by lia.
    rewrite (drop_S row p c Hp), (drop_S obs q c Hq). simpl.
    by rewrite <- app_assoc.
Qed.

(** The second loop divides every entry by the denominator and keeps the
    running maximum. *)
Lemma normalise_loop_spec n : ∀ c row d mp mc,
  (c + n)%nat = length row →
  normalise_loop n c row d mp mc
  = (take c row ++ ((λ p, f_div p d) <$> drop c row),
     (running_max c ((λ p, f_div p d) <$> drop c row) mp mc).1,
     (running_max c ((λ p, f_div p d) <$> drop c row) mp mc).2).
Proof.
  induction n as [|n IH]; intros c row d mp mc Hlen; cbn [normalise_loop].
  - rewrite !drop_ge by lia. simpl. by rewrite app_nil_r, take_ge by lia.
  - destruct (lookup_lt_is_Some_2 row c) as [p Hp]; [lia|].
    rewrite Hp, (drop_S row p c Hp). cbn [fmap list_fmap running_max].
    destruct (f_ge (f_div p d) mp).
    all: rewrite IH by (rewrite ?length_insert; lia).
    all: rewrite (take_S_r _ c (f_div p d)) by (apply list_lookup_insert_eq; lia).
    all: rewrite take_insert_ge by lia.
    all: rewrite drop_insert_lt by lia.
    all: by rewrite <- app_assoc.
Qed.

Lemma fuse_row_spec (num_classes : Z) row obs :
  Z.of_nat (length row) = num_classes → Z.of_nat (length obs) = num_classes →
  fuse_row num_classes row obs
  = (renormalised row obs,
     (running_max 0 (renormalised row obs) f_zero (-1)).1,
     (running_max 0 (renormalised row obs) f_zero (-1)).2).
Proof.
  intros Hrow Hobs. unfold fuse_row.
  rewrite multiply_loop_spec by lia.
  rewrite take_0, !drop_0, app_nil_l.
  rewrite normalise_loop_spec by (rewrite length_zip_with; lia).
  by rewrite take_0, !drop_0, app_nil_l.
Qed.

(** The class the running maximum ends with is the initial one or the
    index of an entry. *)
Lemma running_max_class xs : ∀ c mp mc,
  (running_max c xs mp mc).2 = mc
  ∨ Z.of_nat c ≤ (running_max c xs mp mc).2 < Z.of_nat (c + length xs).
Proof.
  induction xs as [|x xs IH]; intros c mp mc; cbn [running_max]; [by left|].
  destruct (f_ge x mp).
  - right. destruct (IH (S c) x (Z.of_nat c)) as [->|?]; simpl; lia.
  - destruct (IH (S c) mp mc) as [?|?]; [by left|right; simpl; lia].
Qed.

Lemma length_renormalised row obs :
  length obs = length row → length (renormalised row obs) = length row.
Proof.
  intros. unfold renormalised, products.
  rewrite length_fmap, length_zip_with. lia.
Qed.
End fusion_loops.

Section fusion_binary32.
Import Float32 Fusion.
Implicit Types (row obs xs : list float32).

(** What the running maximum with [>=] ends with: an upper bound of all
    entries; either no entry reached the initial value, or the result is
    an entry and no later entry reaches it. *)
Lemma running_max_spec xs : ∀ c mp mc,
  is_nan mp = false →
  Forall (λ p, is_nan p = false) xs →
  let r := running_max c xs mp mc in
  SFleb mp r.1 = true
  ∧ (∀ j p, xs !! j = Some p → SFleb p r.1 = true)
  ∧ ((r = (mp, mc) ∧ ∀ j p, xs !! j = Some p → SFleb mp p = false)
     ∨ ∃ k, r.2 = Z.of_nat (c + k) ∧ xs !! k = Some r.1
            ∧ ∀ j p, xs !! j = Some p → (k < j)%nat → SFleb r.1 p = false).
Proof.
  induction xs as [|x xs IH]; intros c mp mc Hmp Hxs; cbn zeta.
  - cbn [running_max fst snd]. split; [by apply SFleb_refl|].
    split; [done|]. left. done.
  - apply Forall_cons in Hxs as [Hx Hxs]. cbn [running_max].
    change (f_ge x mp) with (SFleb mp x).
    destruct (SFleb mp x) eqn:Hge.
    + destruct (IH (S c) x (Z.of_nat c) Hx Hxs) as (Hle & Hub & Hcase).
      split; [by eapply SFleb_trans|].
      split; [intros [|j] p Hj; simpl in Hj; [by simplify_eq|by eapply Hub]|].
      right. destruct Hcase as [[Heq Hlater]|(k & Hk & Hlk & Hlater)].
      * exists 0%nat. rewrite Heq. cbn [fst snd]. rewrite Nat.add_0_r.
        split; [done|]. split; [done|].
        intros [|j] p Hj ?; [lia|]. simpl in Hj. by eapply Hlater.
      * exists (S k). split; [rewrite Hk; f_equal; lia|]. split; [done|].
        intros [|j] p Hj ?; [lia|]. simpl in Hj. apply (Hlater j); [done|lia].
    + destruct (IH (S c) mp mc Hmp Hxs) as (Hle & Hub & Hcase).
      split; [done|].
      split.
      { intros [|j] p Hj; simpl in Hj; [|by eapply Hub].
        simplify_eq. eapply SFleb_trans; [|exact Hle]. by apply SFleb_total. }
      destruct Hcase as [[Heq Hlater]|(k & Hk & Hlk & Hlater)].
      * left. split; [done|].
        intros [|j] p Hj; simpl in Hj; [by simplify_eq|by eapply Hlater].
      * right. exists (S k). split; [rewrite Hk; f_equal; lia|]. split; [done|].
        intros [|j] p Hj ?; [lia|]. simpl in Hj. apply (Hlater j); [done|lia].
Qed.

(** On a row of numbers that are not negative, the running maximum from
    0.0 is the greatest entry, at the last index that holds it. *)
Lemma running_max_last xs :
  xs ≠ [] → Forall (λ p, f_ge p zero = true) xs →
  let r := running_max 0 xs zero (-1) in
  ∃ k, r.2 = Z.of_nat k ∧ xs !! k = Some r.1
       ∧ (∀ j p, xs !! j = Some p → SFleb p r.1 = true)
       ∧ (∀ j p, xs !! j = Some p → SFeqb p r.1 = true → (j ≤ k)%nat).
Proof.
  intros Hne Hpos. cbn zeta.
  assert (Hnan : Forall (λ p, is_nan p = false) xs).
  { eapply Forall_impl; [exact Hpos|]. intros p Hp. by apply SFleb_not_nan in Hp as []. }
  destruct (running_max_spec xs 0 zero (-1) eq_refl Hnan) as (_ & Hub & Hcase).
  destruct Hcase as [[_ Hnone]|(k & Hk & Hlk & Hlater)].
  - destruct xs as [|x xs]; [done|].
    apply Forall_cons in Hpos as [Hx _].
    specialize (Hnone 0%nat x eq_refl).
    change (f_ge x zero) with (SFleb zero x) in Hx. congruence.
  - exists k. split; [done|]. split; [done|]. split; [done|].
    intros j p Hj Heq. destruct (decide (j ≤ k)%nat); [done|].
    apply SFeqb_SFleb in Heq. rewrite (Hlater j p Hj) in Heq by lia. done.
Qed.

(** The same on any row: a NaN never replaces the running maximum and is
    never compared with it again. *)
Lemma running_max_any xs : ∀ c mp mc,
  is_nan mp = false →
  let r := running_max c xs mp mc in
  is_nan r.1 = false
  ∧ SFleb mp r.1 = true
  ∧ (∀ j p, xs !! j = Some p → is_nan p = false → SFleb p r.1 = true)
  ∧ ((r = (mp, mc) ∧ ∀ j p, xs !! j = Some p → SFleb mp p = false)
     ∨ ∃ k, r.2 = Z.of_nat (c + k) ∧ xs !! k = Some r.1
            ∧ ∀ j p, xs !! j = Some p → (k < j)%nat → SFleb r.1 p = false).
Proof.
  induction xs as [|x xs IH]; intros c mp mc Hmp; cbn zeta.
  - cbn [running_max fst snd]. split; [done|]. split; [by apply SFleb_refl|].
    split; [done|]. left. done.
  - cbn [running_max]. change (f_ge x mp) with (SFleb mp x).
    destruct (SFleb mp x) eqn:Hge.
    + destruct (SFleb_not_nan _ _ Hge) as [_ Hx].
      destruct (IH (S c) x (Z.of_nat c) Hx) as (Hnan & Hle & Hub & Hcase).
      split; [done|]. split; [by eapply SFleb_trans|].
      split; [intros [|j] p Hj Hp; simpl in Hj; [by simplify_eq|by eapply Hub]|].
      right. destruct Hcase as [[Heq Hlater]|(k & Hk & Hlk & Hlater)].
      * exists 0%nat. rewrite Heq. cbn [fst snd]. rewrite Nat.add_0_r.
        split; [done|]. split; [done|].
        intros [|j] p Hj ?; [lia|]. simpl in Hj. by eapply Hlater.
      * exists (S k). split; [rewrite Hk; f_equal; lia|]. split; [done|].
        intros [|j] p Hj ?; [lia|]. simpl in Hj. apply (Hlater j); [done|lia].
    + destruct (IH (S c) mp mc Hmp) as (Hnan & Hle & Hub & Hcase).
      split; [done|]. split; [done|].
      split.
      { intros [|j] p Hj Hp; simpl in Hj; [|by eapply Hub].
        simplify_eq. eapply SFleb_trans; [|exact Hle]. by apply SFleb_total. }
      destruct Hcase as [[Heq Hlater]|(k & Hk & Hlk & Hlater)].
      * left. split; [done|].
        intros [|j] p Hj; simpl in Hj; [by simplify_eq|by eapply Hlater].
      * right. exists (S k). split; [rewrite Hk; f_equal; lia|]. split; [done|].
        intros [|j] p Hj ?; [lia|]. simpl in Hj. apply (Hlater j); [done|lia].
Qed.

(** The running maximum of a row from 0.0 and -1.  Either no entry is
    [>= 0.0] and the two keep their initial values; or the maximum is an
    entry that no entry which is a number exceeds, at the last index that
    holds it. *)
Lemma argmax_of_row xs :
  let r := running_max 0 xs zero (-1) in
  (r = (zero, -1) ∧ ∀ (c : nat) p, xs !! c = Some p → f_ge p zero = false)
  ∨ ∃ k : nat,
      r.2 = Z.of_nat k ∧ xs !! k = Some r.1
      ∧ (∀ (c : nat) p, xs !! c = Some p → is_nan p = false → f_le p r.1 = true)
      ∧ (∀ (c : nat) p, xs !! c = Some p → SFeqb p r.1 = true → (c ≤ k)%nat).
Proof.
  cbn zeta.
  destruct (running_max_any xs 0 zero (-1) eq_refl) as (_ & _ & Hub & Hcase).
  destruct Hcase as [[Heq Hnone]|(k & Hk & Hlk & Hlater)].
  - left. split; [done|]. exact Hnone.
  - right. exists k. split; [done|]. split; [done|]. split; [exact Hub|].
    intros j p Hj Heq. destruct (decide (j ≤ k)%nat); [done|].
    apply SFeqb_SFleb in Heq. rewrite (Hlater j p Hj) in Heq by lia. done.
Qed.

Lemma total_zeros xs :
  Forall (λ p, is_zero p = true) xs → total xs = zero.
Proof.
  unfold total. change f_zero with zero.
  induction 1 as [|x xs Hx _ IH]; [done|]. simpl.
  destruct x as [[]| | |]; try done; exact IH.
Qed.

Lemma div_zeros xs :
  Forall (λ p, is_zero p = true) xs →
  (λ p, f_div p zero) <$> xs = replicate (length xs) NaN.
Proof.
  induction 1 as [|x xs Hx _ IH]; [done|].
  rewrite fmap_cons, IH. cbn [length replicate]. f_equal.
  by destruct x as [[]| | |].
Qed.

Lemma running_max_nan n : ∀ c mp mc,
  running_max c (replicate n NaN) mp mc = (mp, mc).
Proof.
  induction n as [|n IH]; intros c mp mc; [done|]. simpl.
  change (f_ge NaN mp) with (SFleb mp NaN).
  replace (SFleb mp NaN) with false by (by destruct mp). apply IH.
Qed.

(** What [UpdateSurfelProbabilities] does when its assertions hold. *)
Lemma UpdateSurfelProbabilities_done (st : SemanticFusionInterface float32)
    surfel_id class_probs row :
  0 ≤ surfel_id →
  class_probabilities_ st !! Z.to_nat surfel_id = Some row →
  Z.of_nat (length class_probs) = num_classes_ st →
  Z.of_nat (length row) = num_classes_ st →
  let r := running_max 0 (renormalised row class_probs) zero (-1) in
  fuse_row (num_classes_ st) row class_probs
    = (renormalised row class_probs, r.1, r.2)
  ∧ UpdateSurfelProbabilities st surfel_id class_probs
    = Done (set_class_probabilities_ st
              (<[Z.to_nat surfel_id := renormalised row class_probs]>
                 (class_probabilities_ st)),
            thresholded (colour_threshold_ st) r.1 r.2).
Proof.
  intros Hid Hrow Hobs Hlen. cbn zeta.
  pose proof (fuse_row_spec (num_classes_ st) row class_probs Hlen Hobs) as Hfuse.
  split; [exact Hfuse|].
  unfold UpdateSurfelProbabilities.
  apply lookup_lt_Some in Hrow as Hlt.
  rewrite decide_True by lia. rewrite decide_True by done.
  rewrite Hrow. rewrite !decide_True by done.
  by rewrite Hfuse.
Qed.

(** C5 (amended). The renormalisation of the fusion update divides every
    product [row[c] * observed[c]] by the plain sum of the products; no
    epsilon floor is applied.  When all the mass collapses (every product
    is a zero) the divisor is 0.0, every entry of the row becomes NaN and
    the call returns the sentinel -1. *)
Theorem renormalisation_divides_by_plain_sum
    (st : SemanticFusionInterface float32) surfel_id class_probs row :
  0 ≤ surfel_id →
  class_probabilities_ st !! Z.to_nat surfel_id = Some row →
  Z.of_nat (length class_probs) = num_classes_ st →
  Z.of_nat (length row) = num_classes_ st →
  ∃ ret,
    UpdateSurfelProbabilities st surfel_id class_probs
    = Done (set_class_probabilities_ st
              (<[Z.to_nat surfel_id :=
                   (λ p, f_div p (total (products row class_probs)))
                     <$> products row class_probs]>
                 (class_probabilities_ st)),
            ret)
    ∧ (Forall (λ p, is_zero p = true) (products row class_probs) →
       total (products row class_probs) = zero
       ∧ (λ p, f_div p (total (products row class_probs)))
           <$> products row class_probs = replicate (length row) NaN
       ∧ ret = -1).
Proof.
  intros Hid Hrow Hobs Hlen.
  destruct (UpdateSurfelProbabilities_done st surfel_id class_probs row
              Hid Hrow Hobs Hlen) as [_ Hdone].
  eexists. split; [exact Hdone|].
  intros Hzero.
  pose proof (total_zeros _ Hzero) as Htot.
  assert (Hnan : renormalised row class_probs = replicate (length row) NaN).
  { unfold renormalised. rewrite Htot, div_zeros by done.
    unfold products. rewrite length_zip_with. f_equal. lia. }
  split; [done|]. split.
  - fold (renormalised row class_probs). exact Hnan.
  - rewrite Hnan, running_max_nan. unfold thresholded. cbn [fst snd].
    by destruct (f_ge zero (colour_threshold_ st)).
Qed.

End fusion_binary32.

(** ** Cell addresses *)

(** In a table stored class by class with stride [w], the cell of class [j]
    and row [i] is [j * w + i]; different (class, row) pairs with rows below
    the stride have different cells. *)
Lemma cell_address_inj (w i i' j j' : Z) :
  0 ≤ i < w → 0 ≤ i' < w → j * w + i = j' * w + i' → j = j' ∧ i = i'.
Proof.
  intros Hi Hi' Heq.
  assert (i = i').
  { rewrite <- (Z.mod_small i w), <- (Z.mod_small i' w) by lia.
    rewrite <- (Z_mod_plus_full i j w), <- (Z_mod_plus_full i' j' w).
    f_equal. lia. }
  split; [|done]. subst i'. nia.
Qed.

(** ** The write-back of the smoothing pass *)

Section write_back_loops.
Import Smoothing.
Context `{FloatOps F}.
Variables (num_classes max_components : Z) (resulting_probs : list F).
Implicit Types (tbl : list F) (i j id k : Z).

Local Abbreviation cell := (write_back_cell num_classes max_components resulting_probs).
Local Abbreviation row := (write_back_row num_classes max_components resulting_probs).

Lemma length_write_back_cell i id tbl j : length (cell i id tbl j) = length tbl.
Proof.
  unfold cell, write_back_cell.
  destruct (load resulting_probs _) as [r|]; [|done].
  destruct (accepted r); [apply length_store|done].
Qed.

Lemma write_back_cell_frame i id tbl j k :
  j * max_components + id ≠ k → load (cell i id tbl j) k = load tbl k.
Proof.
  intros Hne. unfold cell, write_back_cell.
  destruct (load resulting_probs _) as [r|]; [|done].
  destruct (accepted r); [by apply load_store_ne|done].
Qed.

Lemma write_back_cell_hit i id tbl j r old :
  load resulting_probs (i * num_classes + j) = Some r →
  load tbl (j * max_components + id) = Some old →
  load (cell i id tbl j) (j * max_components + id)
  = Some (if accepted r then r else old).
Proof.
  intros Hr Hold. unfold cell, write_back_cell. rewrite Hr.
  destruct (accepted r); [|done].
  apply load_store_eq. unfold load in Hold.
  case_decide; [|done]. apply lookup_lt_Some in Hold. lia.
Qed.

Lemma length_class_loop i id js : ∀ tbl,
  length (foldl (cell i id) tbl js) = length tbl.
Proof.
  induction js as [|j js IH]; intros tbl; simpl; [done|].
  by rewrite IH, length_write_back_cell.
Qed.

Lemma class_loop_frame i id js k : ∀ tbl,
  (∀ j, j ∈ js → j * max_components + id ≠ k) →
  load (foldl (cell i id) tbl js) k = load tbl k.
Proof.
  induction js as [|j js IH]; intros tbl Hk; simpl; [done|].
  rewrite IH by (intros; apply Hk; by apply list_elem_of_further).
  apply write_back_cell_frame, Hk, list_elem_of_here.
Qed.

Lemma class_loop_hit i id js j0 r : ∀ tbl old,
  max_components ≠ 0 → NoDup js → j0 ∈ js →
  load resulting_probs (i * num_classes + j0) = Some r →
  load tbl (j0 * max_components + id) = Some old →
  load (foldl (cell i id) tbl js) (j0 * max_components + id)
  = Some (if accepted r then r else old).
Proof.
  intros tbl old Hmc. revert tbl.
  induction js as [|j js IH]; intros tbl Hnd Hin Hr Hold;
    [by apply elem_of_nil in Hin|].
  apply NoDup_cons in Hnd as [Hj Hnd]. simpl.
  apply elem_of_cons in Hin as [->|Hin].
  - rewrite class_loop_frame; [by apply write_back_cell_hit|].
    intros j' Hj' Heq. assert (j' = j) by nia. by subst.
  - apply IH; [done..|].
    assert (j ≠ j0) by (by intros ->).
    rewrite write_back_cell_frame by nia. done.
Qed.

(** The loop over the elements: [ids] maps every position to itself, as
    [valid_ids] does. *)
Lemma length_element_loop ids is_ : ∀ tbl,
  length (foldl (row ids) tbl is_) = length tbl.
Proof.
  induction is_ as [|i is_ IH]; intros tbl; simpl; [done|].
  rewrite IH. unfold row, write_back_row.
  destruct (load ids i); [apply length_class_loop|done].
Qed.

Lemma element_loop_frame ids is_ k : ∀ tbl,
  (∀ i, i ∈ is_ → load ids i = Some i) →
  (∀ i j, i ∈ is_ → 0 ≤ j < num_classes → j * max_components + i ≠ k) →
  load (foldl (row ids) tbl is_) k = load tbl k.
Proof.
  induction is_ as [|i is_ IH]; intros tbl Hids Hk; simpl; [done|].
  rewrite IH.
  - unfold row, write_back_row. rewrite Hids by apply list_elem_of_here.
    apply class_loop_frame. intros j Hj%elem_of_seqZ.
    apply Hk; [apply list_elem_of_here|lia].
  - intros; apply Hids; by apply list_elem_of_further.
  - intros; apply Hk; [by apply list_elem_of_further|done].
Qed.

Lemma element_loop_hit ids is_ i0 j0 r : ∀ tbl old,
  (∀ i, i ∈ is_ → load ids i = Some i ∧ 0 ≤ i < max_components) →
  NoDup is_ → i0 ∈ is_ → 0 ≤ j0 < num_classes →
  load resulting_probs (i0 * num_classes + j0) = Some r →
  load tbl (j0 * max_components + i0) = Some old →
  load (foldl (row ids) tbl is_) (j0 * max_components + i0)
  = Some (if accepted r then r else old).
Proof.
  induction is_ as [|i is_ IH]; intros tbl old Hids Hnd Hin Hj Hr Hold;
    [by apply elem_of_nil in Hin|].
  apply NoDup_cons in Hnd as [Hi Hnd]. simpl.
  assert (Hrest : ∀ i', i' ∈ is_ → load ids i' = Some i' ∧ 0 ≤ i' < max_components)
    by (intros; apply Hids; by apply list_elem_of_further).
  destruct (Hids i (list_elem_of_here _ _)) as [Hidi Hirange].
  apply elem_of_cons in Hin as [->|Hin].
  - rewrite element_loop_frame.
    + unfold row, write_back_row. rewrite Hidi.
      apply class_loop_hit; [lia|apply NoDup_seqZ|apply elem_of_seqZ; lia|done..].
    + intros; by apply Hrest.
    + intros i' j' Hi' Hj' Heq. destruct (Hrest i' Hi') as [_ ?].
      apply cell_address_inj in Heq as [_ ->]; [done|lia..].
  - apply IH; [done..|].
    destruct (Hrest i0 Hin) as [_ ?].
    assert (i ≠ i0) by (by intros ->).
    unfold row, write_back_row. rewrite Hidi.
    rewrite class_loop_frame; [done|].
    intros j' Hj'%elem_of_seqZ Heq.
    apply cell_address_inj in Heq as [_ ?]; [done|lia..].
Qed.
End write_back_loops.

Section write_back_binary32.
Import Float32 Smoothing.

Lemma accepted_inside (r : float32) :
  accepted r = SFltb zero r && SFltb r one.
Proof. reflexivity. Qed.

Lemma accepted_outside (r : float32) :
  r = zero ∨ r = one ∨ r = NaN ∨ f_le r zero = true ∨ f_ge r one = true →
  accepted r = false.
Proof.
  rewrite accepted_inside.
  intros [->|[->|[->|[Hle|Hge]]]]; [done..| |].
  - destruct (SFltb zero r) eqn:Hlt; [|done].
    apply SFltb_SFleb in Hlt. change (f_le r zero) with (SFleb r zero) in Hle.
    congruence.
  - destruct (SFltb r one) eqn:Hlt; [|by rewrite andb_false_r].
    apply SFltb_SFleb in Hlt. change (f_ge r one) with (SFleb one r) in Hge.
    congruence.
Qed.

(** C4. In a state with [current_table_size_ <= max_components_], a table
    of [num_classes_ * max_components_] cells and an inference result of
    [current_table_size_ * num_classes_] values: after the write-back loop
    the cell of row [i], class [j] holds the inference result [r] for it
    exactly when [0.0 < r] and [r < 1.0], and its previous value
    otherwise; so a result of 0.0, 1.0 or NaN, one that is [<= 0.0] and
    one that is [>= 1.0] leave the cell as it was. *)
Theorem write_back_filter (st : SemanticFusionInterface float32)
    (resulting_probs prob_table : list float32) (i j : Z) :
  0 ≤ current_table_size_ st ≤ max_components_ st →
  Z.of_nat (length prob_table) = num_classes_ st * max_components_ st →
  Z.of_nat (length resulting_probs) = current_table_size_ st * num_classes_ st →
  0 ≤ i < current_table_size_ st →
  0 ≤ j < num_classes_ st →
  ∃ r old,
    load resulting_probs (i * num_classes_ st + j) = Some r
    ∧ load prob_table (j * max_components_ st + i) = Some old
    ∧ load (write_back st resulting_probs prob_table) (j * max_components_ st + i)
      = Some (if SFltb zero r && SFltb r one then r else old)
    ∧ (r = zero ∨ r = one ∨ r = NaN ∨ f_le r zero = true ∨ f_ge r one = true →
       load (write_back st resulting_probs prob_table) (j * max_components_ st + i)
       = Some old).
Proof.
  intros Hcts Htbl Hres Hi Hj.
  destruct (load_is_Some resulting_probs (i * num_classes_ st + j)) as [r Hr]; [nia|].
  destruct (load_is_Some prob_table (j * max_components_ st + i)) as [old Hold]; [nia|].
  exists r, old. split; [done|]. split; [done|].
  assert (Hwb : load (write_back st resulting_probs prob_table)
                  (j * max_components_ st + i)
                = Some (if accepted r then r else old)).
  { unfold write_back, valid_ids. rewrite length_seqZ, Z2Nat.id by lia.
    apply element_loop_hit; [|apply NoDup_seqZ|apply elem_of_seqZ; lia|done..].
    intros i' Hi'%elem_of_seqZ. split; [|lia].
    by rewrite load_seqZ by lia. }
  split; [by rewrite <- accepted_inside|].
  intros Hout. by rewrite Hwb, accepted_outside.
Qed.
End write_back_binary32.

(** ** Rounding in binary32 *)

(** [SFadd], [SFmul] and [SFdiv] round to nearest, ties to even.  This
    section bounds the error of one operation on non-negative operands from
    the definition of [binary_round_aux], and with it the sum of a row after
    the fusion update. *)
Section binary32_rounding.
Import Float32 Rounding.

(** Powers of two. *)
Lemma bpow_pos e : (0 < bpow e)%R.
Proof. apply powerRZ_lt. lra. Qed.

Lemma bpow_add a b : bpow (a + b) = (bpow a * bpow b)%R.
Proof. apply powerRZ_add. lra. Qed.

Lemma bpow_0 : bpow 0 = 1%R.
Proof. reflexivity. Qed.

Lemma bpow_1 : bpow 1 = 2%R.
Proof. unfold bpow. simpl. lra. Qed.

Lemma bpow_succ e : bpow (e + 1) = (2 * bpow e)%R.
Proof. rewrite bpow_add, bpow_1. lra. Qed.

Lemma bpow_IZR k : 0 ≤ k → bpow k = IZR (2 ^ k).
Proof.
  intros Hk. unfold bpow. rewrite <- (Z2Nat.id k) by done.
  rewrite <- pow_powerRZ, <- pow_IZR. done.
Qed.

Lemma bpow_ge_1 k : 0 ≤ k → (1 <= bpow k)%R.
Proof.
  intros Hk. rewrite bpow_IZR by done. apply IZR_le.
  pose proof (Z.pow_pos_nonneg 2 k). lia.
Qed.

Lemma bpow_le a b : a ≤ b → (bpow a <= bpow b)%R.
Proof.
  intros Hab. replace b with (a + (b - a)) by lia. rewrite bpow_add.
  pose proof (bpow_pos a). pose proof (bpow_ge_1 (b - a) ltac:(lia)). nra.
Qed.

(** The number of binary digits of a mantissa. *)
Lemma digits2_pos_bounds m :
  2 ^ (Z.pos (digits2_pos m) - 1) ≤ Z.pos m < 2 ^ Z.pos (digits2_pos m).
Proof.
  induction m as [m IH|m IH|]; cbn [digits2_pos].
  - rewrite Pos2Z.inj_succ.
    replace (Z.succ (Z.pos (digits2_pos m)) - 1)
      with (Z.succ (Z.pos (digits2_pos m) - 1)) by lia.
    rewrite !Z.pow_succ_r by lia. lia.
  - rewrite Pos2Z.inj_succ.
    replace (Z.succ (Z.pos (digits2_pos m)) - 1)
      with (Z.succ (Z.pos (digits2_pos m) - 1)) by lia.
    rewrite !Z.pow_succ_r by lia. lia.
  - simpl. lia.
Qed.

Lemma Zdigits2_bounds m : 0 < m → 2 ^ (Zdigits2 m - 1) ≤ m < 2 ^ Zdigits2 m.
Proof. destruct m; try lia. intros _. apply digits2_pos_bounds. Qed.

Lemma Zdigits2_nonneg m : 0 ≤ Zdigits2 m.
Proof. destruct m; simpl; lia. Qed.

(** Shifting the register right by one bit keeps the number it
    truncates, at the next exponent. *)
Lemma shr_1_truncated v mrs e : truncated v mrs e → truncated v (shr_1 mrs) (e + 1).
Proof.
  destruct mrs as [m r s]. unfold truncated. cbn [shr_m]. intros [Hm Hloc].
  pose proof (bpow_pos e) as Hb. pose proof (bpow_succ e) as Hs.
  destruct m as [|p|p]; [| |lia].
  - destruct r, s; cbn in *; rewrite ?Hs in *; split; try lia; try lra.
  - destruct p as [p|p|]; destruct r, s;
      cbn [shr_1 shr_m loc_of_shr_record located orb] in *;
      rewrite ?Hs; (split; [lia|]);
      rewrite ?(Pos2Z.inj_xI p), ?(Pos2Z.inj_xO p), ?plus_IZR, ?mult_IZR in *; try lra.
Qed.

Lemma iter_pos_truncated v p : ∀ mrs e,
  truncated v mrs e →
  truncated v (SpecFloat.iter_pos shr_1 p mrs) (e + Z.pos p).
Proof.
  induction p as [p IH|p IH|]; intros mrs e Hinv; cbn [SpecFloat.iter_pos].
  - replace (e + Z.pos p~1) with (e + 1 + Z.pos p + Z.pos p) by lia.
    apply IH, IH. by apply shr_1_truncated.
  - replace (e + Z.pos p~0) with (e + Z.pos p + Z.pos p) by lia.
    by apply IH, IH.
  - by apply shr_1_truncated.
Qed.

(** The exponent binary32 gives a number of [e] digits before the point. *)
Lemma fexp_eq e : fexp prec emax e = Z.max (e - 24) (-149).
Proof. reflexivity. Qed.

Lemma loc_of_record_of_loc m l : loc_of_shr_record (shr_record_of_loc m l) = l.
Proof. by destruct l as [|[]]. Qed.

Lemma shr_m_record_of_loc m l : shr_m (shr_record_of_loc m l) = m.
Proof. by destruct l as [|[]]. Qed.

(** The first shift of [binary_round_aux] brings the exponent up to that of
    the format, and does nothing when it is there already. *)
Lemma shr_fexp_truncated v m e l :
  0 ≤ m → located m e l v →
  ∃ mrs' e', shr_fexp prec emax m e l = (mrs', e')
    ∧ truncated v mrs' e'
    ∧ e' = Z.max e (fexp prec emax (Zdigits2 m + e))
    ∧ (fexp prec emax (Zdigits2 m + e) ≤ e → mrs' = shr_record_of_loc m l).
Proof.
  intros Hm Hloc. unfold shr_fexp, shr.
  assert (Hinv0 : truncated v (shr_record_of_loc m l) e).
  { split; [by rewrite shr_m_record_of_loc|].
    by rewrite shr_m_record_of_loc, loc_of_record_of_loc. }
  destruct (fexp prec emax (Zdigits2 m + e) - e) as [|p|p] eqn:Hn.
  - eexists _, _. split; [done|]. split; [done|]. split; [lia|done].
  - eexists _, _. split; [done|]. split; [by apply iter_pos_truncated|]. split; [lia|lia].
  - eexists _, _. split; [done|]. split; [done|]. split; [lia|done].
Qed.

(** Rounding to nearest, ties to even, moves the mantissa by at most half
    a unit. *)
Lemma rne_spec m e l v :
  0 ≤ m → located m e l v →
  let m2 := round_nearest_even m l in
  (m2 = m ∨ m2 = m + 1)
  ∧ (Rabs (IZR m2 * bpow e - v) <= bpow e / 2)%R
  ∧ (l = loc_Exact → (IZR m2 * bpow e)%R = v)
  ∧ (m2 = m + 1 → (bpow e / 2 <= v - IZR m * bpow e)%R).
Proof.
  intros Hm Hloc. pose proof (bpow_pos e) as Hb. cbn zeta.
  destruct l as [|[]]; cbn [round_nearest_even located] in *.
  - split; [by left|]. split; [|split; [done|lia]].
    rewrite Hloc. rewrite Rminus_diag, Rabs_R0. lra.
  - destruct (Z.even m).
    + split; [by left|]. split; [|split; [done|lia]].
      rewrite Hloc. apply Rabs_le. lra.
    + split; [by right|]. split; [|split; [done|]].
      * rewrite Hloc, plus_IZR. apply Rabs_le. lra.
      * intros _. lra.
  - split; [by left|]. split; [|split; [done|lia]]. apply Rabs_le. lra.
  - split; [by right|]. split; [|split; [done|]].
    + rewrite plus_IZR. apply Rabs_le. lra.
    + intros _. lra.
Qed.

Lemma bpow_lt a b : a < b → (bpow a < bpow b)%R.
Proof.
  intros Hab. pose proof (bpow_le (a + 1) b ltac:(lia)) as Hle.
  rewrite bpow_succ in Hle. pose proof (bpow_pos a). lra.
Qed.

Lemma bpow_le_inv a b : (bpow a <= bpow b)%R → a ≤ b.
Proof.
  intros Hle. destruct (decide (a ≤ b)); [done|].
  pose proof (bpow_lt b a ltac:(lia)). lra.
Qed.

Lemma bpow_lt_inv a b : (bpow a < bpow b)%R → a < b.
Proof.
  intros Hlt. destruct (decide (a < b)); [done|].
  pose proof (bpow_le b a ltac:(lia)). lra.
Qed.

Lemma Zdigits2_le m k : 0 ≤ m < 2 ^ k → 0 ≤ k → Zdigits2 m ≤ k.
Proof.
  intros Hm Hk. destruct (decide (m = 0)) as [->|Hne]; [done|].
  pose proof (Zdigits2_bounds m ltac:(lia)) as [Hlo _].
  destruct (decide (Zdigits2 m ≤ k)); [done|].
  pose proof (Z.pow_le_mono_r 2 k (Zdigits2 m - 1) ltac:(lia) ltac:(lia)). lia.
Qed.

Lemma IZR_digits_bounds m :
  0 < m → (bpow (Zdigits2 m - 1) <= IZR m < bpow (Zdigits2 m))%R.
Proof.
  intros Hm. pose proof (Zdigits2_bounds m Hm) as [Hlo Hhi].
  assert (1 ≤ Zdigits2 m) by (destruct m; simpl in *; lia).
  rewrite !bpow_IZR by lia. split; [by apply IZR_le|by apply IZR_lt].
Qed.

(** The second shift of [binary_round_aux] acts only when rounding
    carried the mantissa to [2^24]; the value stays the same, and the result
    is a finite number while the exponent is far from overflow. *)
Lemma second_round m2 e' :
  0 ≤ m2 ≤ 2 ^ 24 → -149 ≤ e' → (m2 = 0 ∨ e' ≤ 102) →
  ∃ mrs'' e'', shr_fexp prec emax m2 e' loc_Exact = (mrs'', e'')
    ∧ let r := match shr_m mrs'' with
               | Z0 => S754_zero false
               | Zpos m => if e'' <=? emax - prec then S754_finite false m e''
                           else S754_infinity false
               | _ => S754_nan
               end in
      nonneg_fin r ∧ val r = (IZR m2 * bpow e')%R.
Proof.
  intros Hm2 He' Hbig.
  destruct (decide (m2 = 2 ^ 24)) as [->|Hne].
  - (* the mantissa overflowed: one more shift *)
    destruct Hbig as [?|Hbig]; [done|].
    unfold shr_fexp. change (Zdigits2 (2 ^ 24)) with 25.
    rewrite fexp_eq. replace (Z.max (25 + e' - 24) (-149) - e') with 1 by lia.
    eexists _, _. split; [reflexivity|]. cbn zeta.
    change (shr_m _) with 8388608. cbn iota.
    replace (e' + 1 <=? emax - prec) with true by (unfold emax, prec; lia).
    split; [simpl; lia|].
    cbn [val]. rewrite bpow_succ.
    change (2 ^ 24) with 16777216. 
    replace (IZR 16777216) with (2 * IZR 8388608)%R by (rewrite <- mult_IZR; done).
    lra.
  - assert (Hd : Zdigits2 m2 ≤ 24) by (apply Zdigits2_le; lia).
    unfold shr_fexp. rewrite fexp_eq.
    assert (Hn : Z.max (Zdigits2 m2 + e' - 24) (-149) - e' ≤ 0) by lia.
    unfold shr.
    destruct (Z.max (Zdigits2 m2 + e' - 24) (-149) - e') eqn:Hn'; [|lia|].
    all: eexists _, _; (split; [reflexivity|]); cbn zeta.
    all: cbn [shr_record_of_loc shr_m].
    all: destruct m2 as [|q|q]; [|
           replace (e' <=? emax - prec) with true
             by (unfold emax, prec; destruct Hbig; [done|lia])|lia].
    all: split; cbn [nonneg_fin val]; try done; lra.
Qed.

Lemma loc_exact_dec l : l = loc_Exact ∨ l ≠ loc_Exact.
Proof. destruct l; [by left|by right]. Qed.

Lemma located_bounds m e l v :
  located m e l v → (IZR m * bpow e <= v < (IZR m + 1) * bpow e)%R.
Proof.
  pose proof (bpow_pos e).
  destruct l as [|[]]; simpl; intros; nra.
Qed.

(** [binary_round_aux] on a number given by its cell: the result is the
    number itself, or lies within half a unit in the last place of it. *)
Lemma binary_round_aux_spec mx ex lx v :
  0 ≤ mx → located mx ex lx v →
  (lx = loc_Exact ∨ ex ≤ fexp prec emax (Zdigits2 mx + ex)) →
  (v <= bpow 100)%R →
  let e1 := fexp prec emax (Zdigits2 mx + ex) in
  let r := binary_round_aux prec emax false mx ex lx in
  nonneg_fin r
  ∧ (val r = v
     ∨ ((Rabs (val r - v) <= bpow (e1 - 1))%R ∧ ex ≤ e1
        ∧ (lx = loc_Exact → ex < e1))).
Proof.
  intros Hmx Hloc Hpre Hv e1 r. subst r. unfold binary_round_aux.
  destruct (shr_fexp_truncated v mx ex lx Hmx Hloc)
    as (mrs' & e' & -> & [Hm1 Hloc1] & He' & Hunch).
  fold e1 in He', Hunch.
  assert (He1 : -149 ≤ e1) by (subst e1; rewrite fexp_eq; lia).
  set (m1 := shr_m mrs') in *. set (l1 := loc_of_shr_record mrs') in *.
  destruct (rne_spec m1 e' l1 v Hm1 Hloc1) as (Hm2 & Herr & Hexact & Hup).
  set (m2 := round_nearest_even m1 l1) in *.
  pose proof (located_bounds _ _ _ _ Hloc) as Hb.
  pose proof (located_bounds _ _ _ _ Hloc1) as Hb1.
  pose proof (bpow_pos e') as Hpe'. pose proof (bpow_pos ex) as Hpex.
  assert (Hm1lt : m1 < 2 ^ 24).
  { destruct (decide (e1 ≤ ex)) as [Hle|Hgt].
    - assert (m1 = mx) as Hm1eq
        by (subst m1; rewrite (Hunch Hle); apply shr_m_record_of_loc).
      rewrite Hm1eq.
      destruct (decide (mx = 0)) as [->|Hne]; [done|].
      pose proof (Zdigits2_bounds mx ltac:(lia)) as [_ Hhi].
      subst e1. rewrite fexp_eq in Hle.
      pose proof (Z.pow_le_mono_r 2 (Zdigits2 mx) 24 ltac:(lia) ltac:(lia)).
      lia.
    - assert (He'1 : e' = e1) by lia.
      assert (Hd : Zdigits2 mx + ex - e1 ≤ 24)
        by (subst e1; rewrite fexp_eq; lia).
      assert (Hmxd : (IZR mx + 1 <= bpow (Zdigits2 mx))%R).
      { destruct (decide (mx = 0)) as [->|Hne].
        - change (Zdigits2 0) with 0. rewrite bpow_0. lra.
        - pose proof (Zdigits2_bounds mx ltac:(lia)) as [_ Hhi].
          pose proof (Zdigits2_nonneg mx).
          rewrite bpow_IZR by lia. rewrite <- plus_IZR. apply IZR_le. lia. }
      assert (Hlt : (IZR m1 * bpow e' < bpow (Zdigits2 mx + ex))%R).
      { rewrite bpow_add. nra. }
      replace (Zdigits2 mx + ex) with ((Zdigits2 mx + ex - e') + e') in Hlt
        by lia.
      rewrite bpow_add in Hlt.
      assert (Hlt' : (IZR m1 < bpow (Zdigits2 mx + ex - e'))%R) by nra.
      pose proof (bpow_le (Zdigits2 mx + ex - e') 24 ltac:(lia)) as Hle24.
      rewrite (bpow_IZR 24) in Hle24 by lia.
      apply lt_IZR. lra. }
  assert (He'ge : -149 ≤ e') by lia.
  assert (Hbig : m2 = 0 ∨ e' ≤ 102).
  { destruct (decide (m2 = 0)); [by left|right].
    assert (bpow (e' - 1) <= v)%R.
    { replace e' with ((e' - 1) + 1) in Hb1, Hup, Hpe' by lia.
      rewrite bpow_succ in Hb1, Hup, Hpe'.
      destruct (decide (m1 = 0)) as [Hz|Hnz].
      - assert (m2 = m1 + 1) as Hm by lia. specialize (Hup Hm).
        rewrite Hz in Hup. lra.
      - assert (1 <= IZR m1)%R by (apply IZR_le; lia). nra. }
    assert (bpow (e' - 1) <= bpow 100)%R as Hle by lra.
    apply bpow_le_inv in Hle. lia. }
  destruct (second_round m2 e' ltac:(lia) He'ge Hbig)
    as (mrs'' & e'' & -> & Hgood & Hval).
  split; [exact Hgood|].
  rewrite Hval.
  destruct (loc_exact_dec l1) as [Hl1|Hl1]; [left; auto|].
  right.
  assert (Hcase : ex ≤ e1 ∧ (lx = loc_Exact → ex < e1)).
  { destruct (decide (e1 ≤ ex)) as [Hle|Hgt]; [|lia].
    assert (l1 = lx) as Hll.
    { subst l1. rewrite (Hunch Hle). apply loc_of_record_of_loc. }
    destruct Hpre as [Hpre|Hpre]; [congruence|].
    split; [done|]. intros ?; congruence. }
  destruct Hcase as [Hc1 Hc2].
  assert (e' = e1) as He'1 by lia.
  split; [|done].
  rewrite <- He'1.
  replace e' with ((e' - 1) + 1) in Herr at 2 by lia.
  rewrite bpow_succ in Herr. lra.
Qed.

Lemma val_nonneg x : nonneg_fin x → (0 <= val x)%R.
Proof.
  destruct x as [| | |[] m e]; simpl; try done; try lra.
  intros _. pose proof (bpow_pos e).
  assert (0 < IZR (Z.pos m))%R by (apply IZR_lt; lia). nra.
Qed.

(** The same as an error bound: relative error [roundoff], and an
    absolute error of [2^-150] where the result is subnormal.  A number
    that is a multiple of [2^-149] has no subnormal part. *)
Lemma binary_round_aux_err mx ex lx v :
  0 ≤ mx → located mx ex lx v →
  (lx = loc_Exact ∨ ex ≤ fexp prec emax (Zdigits2 mx + ex)) →
  (v <= bpow 100)%R →
  let r := binary_round_aux prec emax false mx ex lx in
  nonneg_fin r ∧ (Rabs (val r - v) <= roundoff * v + bpow (-150))%R
  ∧ (lx = loc_Exact → -149 ≤ ex → (Rabs (val r - v) <= roundoff * v)%R).
Proof.
  intros Hmx Hloc Hpre Hv r.
  destruct (binary_round_aux_spec mx ex lx v Hmx Hloc Hpre Hv) as [Hgood Herr].
  fold r in Hgood, Herr. split; [done|].
  pose proof (located_bounds _ _ _ _ Hloc) as [Hlo _].
  pose proof (bpow_pos ex) as Hpex. pose proof (bpow_pos (-24)) as Hpu.
  pose proof (bpow_pos (-150)) as Hp150.
  assert (Hv0 : (0 <= v)%R).
  { assert (0 <= IZR mx)%R by (apply IZR_le; lia). nra. }
  destruct Herr as [->|(Herr & He1 & Hstrict)].
  { replace (v - v)%R with 0%R by lra. rewrite Rabs_R0. unfold roundoff.
    split; [nra|]. intros _ _. nra. }
  rewrite fexp_eq in Herr, He1, Hstrict.
  assert (Hrel : Zdigits2 mx + ex - 24 > -149 →
                 (Rabs (val r - v) <= roundoff * v)%R).
  { intros Hnorm.
    rewrite Z.max_l in Herr, He1 by lia.
    destruct (decide (mx = 0)) as [->|Hne].
    { change (Zdigits2 0) with 0 in He1. lia. }
    pose proof (IZR_digits_bounds mx ltac:(lia)) as [Hd _].
    pose proof (bpow_pos (Zdigits2 mx - 1)) as Hpd.
    replace (Zdigits2 mx + ex - 24 - 1)
      with (-24 + ((Zdigits2 mx - 1) + ex)) in Herr by lia.
    rewrite !bpow_add in Herr. unfold roundoff. 
    assert (bpow (Zdigits2 mx - 1) * bpow ex <= v)%R by nra.
    nra. }
  split.
  - destruct (decide (Zdigits2 mx + ex - 24 > -149)) as [Hn|Hn].
    + specialize (Hrel Hn). unfold roundoff in *. nra.
    + rewrite Z.max_r in Herr by lia. change (-149 - 1) with (-150) in Herr.
      unfold roundoff. nra.
  - intros Hl Hex. apply Hrel. specialize (Hstrict Hl). lia.
Qed.

(** Alignment of a mantissa to a smaller exponent keeps the value. *)
Lemma iter_xO m d : Z.pos (Pos.iter xO m d) = Z.pos m * 2 ^ Z.pos d.
Proof.
  induction d as [|d IH] using Pos.peano_ind.
  - simpl. lia.
  - rewrite Pos.iter_succ, Pos2Z.inj_succ, Z.pow_succ_r by lia.
    rewrite Pos2Z.inj_xO, IH. lia.
Qed.

Lemma shl_align_spec m e e' :
  (IZR (Z.pos (shl_align m e e').1) * bpow (shl_align m e e').2
   = IZR (Z.pos m) * bpow e)%R
  ∧ (shl_align m e e').2 = Z.min e e'.
Proof.
  unfold shl_align. destruct (e' - e) as [|d|d] eqn:Hd; simpl.
  - split; [done|lia].
  - split; [done|lia].
  - split; [|lia].
    rewrite iter_xO, mult_IZR, <- bpow_IZR by lia.
    replace e with (Z.pos d + e') by lia. rewrite bpow_add. lra.
Qed.

(** Rounding of an integer multiple of a power of two. *)
Lemma binary_round_spec m e :
  -149 ≤ e → (IZR (Z.pos m) * bpow e <= bpow 100)%R →
  let r := binary_round prec emax false m e in
  nonneg_fin r
  ∧ (Rabs (val r - IZR (Z.pos m) * bpow e) <= roundoff * (IZR (Z.pos m) * bpow e))%R.
Proof.
  intros He Hv r. subst r. unfold binary_round.
  destruct (shl_align_spec m e (fexp prec emax (Z.pos (digits2_pos m) + e)))
    as [Hval Hexp].
  destruct (shl_align m e _) as [mz ez]. simpl in Hval, Hexp.
  rewrite fexp_eq in Hexp.
  rewrite <- Hval in *.
  destruct (binary_round_aux_err (Z.pos mz) ez loc_Exact
              (IZR (Z.pos mz) * bpow ez)%R) as (Hgood & _ & Hrel);
    [lia|done|by left|done|].
  split; [done|]. apply Hrel; [done|lia].
Qed.

(** The sum of two non-negative numbers: relative error [roundoff]. *)
Lemma SFadd_spec x y :
  nonneg_fin x → nonneg_fin y → (val x + val y <= bpow 100)%R →
  nonneg_fin (SFadd prec emax x y)
  ∧ (Rabs (val (SFadd prec emax x y) - (val x + val y))
     <= roundoff * (val x + val y))%R.
Proof.
  intros Hx Hy Hv.
  pose proof (val_nonneg x Hx) as Hx0. pose proof (val_nonneg y Hy) as Hy0.
  assert (Hu : (0 < roundoff)%R) by apply bpow_pos.
  assert (Hexact : ∀ z, nonneg_fin z → val z = (val x + val y)%R →
            nonneg_fin z ∧ (Rabs (val z - (val x + val y))
                            <= roundoff * (val x + val y))%R).
  { intros z Hz ->. split; [done|].
    replace (val x + val y - (val x + val y))%R with 0%R by lra.
    rewrite Rabs_R0. nra. }
  destruct x as [sx| | |[] mx ex]; try done;
    destruct y as [sy| | |[] my ey]; try done.
  - apply Hexact; [by destruct sx, sy|destruct sx, sy; simpl; lra].
  - apply Hexact; [done|simpl; lra].
  - apply Hexact; [done|simpl; lra].
  - simpl in Hx, Hy. cbn [SFadd cond_Zopp].
    set (ez := Z.min ex ey).
    destruct (shl_align_spec mx ex ez) as [Hvx Hex].
    destruct (shl_align_spec my ey ez) as [Hvy Hey].
    destruct (shl_align mx ex ez) as [mx' ex'].
    destruct (shl_align my ey ez) as [my' ey'].
    simpl in Hvx, Hex, Hvy, Hey. cbn [fst].
    assert (ex' = ez) as -> by lia. assert (ey' = ez) as -> by lia.
    change (Z.pos mx' + Z.pos my') with (Z.pos (mx' + my')).
    cbn [binary_normalize].
    assert (Hsum : (IZR (Z.pos (mx' + my')) * bpow ez
                    = val (S754_finite false mx ex)
                      + val (S754_finite false my ey))%R).
    { rewrite Pos2Z.inj_add, plus_IZR. simpl. lra. }
    rewrite <- Hsum in *.
    apply binary_round_spec; [lia|done].
Qed.

Lemma Rabs_bound (x a : R) : (Rabs x <= a)%R → (- a <= x <= a)%R.
Proof. unfold Rabs. destruct (Rcase_abs x); lra. Qed.

Lemma bpow_m1 : bpow (-1) = (/ 2)%R.
Proof. unfold bpow. simpl. f_equal. lra. Qed.

Lemma roundoff_small : (0 < roundoff <= / 2)%R ∧ (bpow (-150) <= / 2)%R.
Proof.
  unfold roundoff. rewrite <- bpow_m1. split; [split|].
  - apply bpow_pos.
  - by apply bpow_le.
  - by apply bpow_le.
Qed.

(** A probability is a non-negative number that is at most 1. *)
Lemma probability_spec x :
  probability x = true → nonneg_fin x ∧ (val x <= 1)%R.
Proof.
  destruct x as [s| | |[] m e]; simpl; try done.
  - intros _. split; [done|lra].
  - intros [[He1 He2] Hm]%bool_decide_eq_true. split; [lia|].
    apply IZR_le in Hm. rewrite <- bpow_IZR in Hm by lia.
    pose proof (bpow_pos e) as Hpe.
    assert (bpow (- e) * bpow e = 1)%R as Hinv.
    { rewrite <- bpow_add. replace (- e + e) with 0 by lia. apply bpow_0. }
    nra.
Qed.

(** The product of two probabilities is a summand. *)
Lemma SFmul_spec x y :
  nonneg_fin x → nonneg_fin y → (val x <= 1)%R → (val y <= 1)%R →
  nonneg_fin (SFmul prec emax x y) ∧ (val (SFmul prec emax x y) <= 2)%R.
Proof.
  intros Hx Hy Hx1 Hy1.
  pose proof (val_nonneg x Hx) as Hx0. pose proof (val_nonneg y Hy) as Hy0.
  destruct x as [sx| | |[] mx ex]; try done;
    destruct y as [sy| | |[] my ey]; try done; try (simpl; split; [done|lra]).
  cbn [SFmul xorb].
  set (v := (val (S754_finite false mx ex) * val (S754_finite false my ey))%R).
  assert (Hv : (0 <= v <= 1)%R) by (subst v; nra).
  destruct (binary_round_aux_err (Z.pos (mx * my)) (ex + ey) loc_Exact v)
    as (Hgood & Herr & _); [lia| |by left| |].
  - subst v. simpl. rewrite Pos2Z.inj_mul, mult_IZR, bpow_add. lra.
  - pose proof (bpow_ge_1 100 ltac:(lia)). lra.
  - split; [done|].
    destruct roundoff_small as [[Hu0 Hu] H150].
    apply Rabs_bound in Herr. nra.
Qed.

(** [new_location] places the remainder of a division in its cell. *)
Lemma new_location_spec m2 r :
  0 < m2 → 0 ≤ r < m2 →
  match new_location m2 r with
  | loc_Exact => r = 0
  | loc_Inexact Lt => 0 < 2 * r < m2
  | loc_Inexact Eq => 2 * r = m2
  | loc_Inexact Gt => m2 < 2 * r
  end.
Proof.
  intros Hm2 Hr. unfold new_location, new_location_even, new_location_odd.
  destruct (Z.even m2) eqn:Hev.
  - destruct (Z.eqb_spec r 0) as [|Hne]; [done|].
    destruct (Z.compare_spec (2 * r) m2); lia.
  - destruct (Z.eqb_spec r 0) as [|Hne]; [done|].
    assert (Z.odd m2 = true) as Hodd by (rewrite <- Z.negb_even, Hev; done).
    apply Z.odd_spec in Hodd as [k Hk].
    destruct (Z.compare_spec (2 * r + 1) m2); lia.
Qed.

(** The integer division of [SFdiv]: the quotient, the cell of the exact
    quotient [v], and enough digits for one rounding. *)
Lemma SFdiv_core_binary_spec m1 e1 m2 e2 v :
  0 < m1 → 0 < m2 →
  (v * (IZR m2 * bpow e2) = IZR m1 * bpow e1)%R →
  ∃ q e' l, SFdiv_core_binary prec emax m1 e1 m2 e2 = (q, e', l)
    ∧ 0 ≤ q ∧ located q e' l v ∧ e' ≤ fexp prec emax (Zdigits2 q + e').
Proof.
  intros Hm1 Hm2 Hv. unfold SFdiv_core_binary.
  set (D := Zdigits2 m1 + e1 - (Zdigits2 m2 + e2)).
  set (e' := Z.min (fexp prec emax D) (e1 - e2)).
  set (s := e1 - e2 - e').
  set (m' := match s with Z.pos _ => Z.shiftl m1 s | 0 => m1 | Z.neg _ => 0 end).
  assert (Hs : 0 ≤ s) by lia.
  assert (Hm' : m' = m1 * 2 ^ s).
  { subst m'. destruct s as [|p|p] eqn:Hsp; [lia| |lia].
    by rewrite Z.shiftl_mul_pow2 by lia. }
  clearbody m'.
  pose proof (Z_div_mod m' m2 ltac:(lia)) as Hdm.
  destruct (Z.div_eucl m' m2) as [q r]. destruct Hdm as [Hdm Hr].
  exists q, e', (new_location m2 r). split; [done|].
  assert (Hq : 0 ≤ q) by nia. split; [done|].
  pose proof (bpow_pos e') as Hpe'. pose proof (bpow_pos e2) as Hpe2.
  pose proof (bpow_pos s) as Hps.
  assert (HRm2 : (0 < IZR m2)%R) by (apply IZR_lt; lia).
  assert (HRm1 : (0 < IZR m1)%R) by (apply IZR_lt; lia).
  assert (HRq : (0 <= IZR q)%R) by (apply IZR_le; lia).
  assert (HRr : (0 <= IZR r < IZR m2)%R) by (split; [apply IZR_le|apply IZR_lt]; lia).
  (* v * m2 = (q * m2 + r) * 2^e' *)
  assert (Hv' : (v * IZR m2 = (IZR q * IZR m2 + IZR r) * bpow e')%R).
  { assert (He1 : e1 = s + e' + e2) by lia.
    rewrite He1, !bpow_add in Hv.
    assert (IZR m' = IZR m1 * bpow s)%R as HRm'
      by (rewrite Hm', mult_IZR, <- bpow_IZR; [done|lia]).
    assert (IZR m' = IZR m2 * IZR q + IZR r)%R as HRdm
      by (rewrite Hdm, plus_IZR, mult_IZR; done).
    apply (Rmult_eq_reg_r (bpow e2)); [|lra].
    nra. }
  assert (Hloc : located q e' (new_location m2 r) v).
  { pose proof (new_location_spec m2 r Hm2 Hr) as Hnl.
    destruct (new_location m2 r) as [|[]]; simpl.
    - subst r. apply (Rmult_eq_reg_r (IZR m2)); [|lra]. rewrite Hv'. lra.
    - assert (2 * IZR r = IZR m2)%R as H2 by (rewrite <- Hnl, mult_IZR; done).
      apply (Rmult_eq_reg_r (IZR m2)); [|lra]. rewrite Hv'. nra.
    - assert (0 < 2 * IZR r < IZR m2)%R as H2.
      { destruct Hnl as [Ha Hb]. apply IZR_lt in Ha, Hb.
        rewrite mult_IZR in Ha, Hb. lra. }
      split; apply (Rmult_lt_reg_r (IZR m2)); try lra; rewrite Hv'; nra.
    - assert (IZR m2 < 2 * IZR r)%R as H2.
      { apply IZR_lt in Hnl. rewrite mult_IZR in Hnl. lra. }
      split; apply (Rmult_lt_reg_r (IZR m2)); try lra; rewrite Hv'; nra. }
  split; [done|].
  (* the quotient has enough digits *)
  pose proof (located_bounds _ _ _ _ Hloc) as [_ Hup].
  pose proof (IZR_digits_bounds m1 Hm1) as [Hd1 _].
  pose proof (IZR_digits_bounds m2 Hm2) as [_ Hd2].
  assert (Hq1 : (IZR q + 1 <= bpow (Zdigits2 q))%R).
  { destruct (decide (q = 0)) as [->|Hne].
    - change (Zdigits2 0) with 0. rewrite bpow_0. lra.
    - pose proof (Zdigits2_bounds q ltac:(lia)) as [_ Hhi].
      pose proof (Zdigits2_nonneg q).
      rewrite bpow_IZR by lia. rewrite <- plus_IZR. apply IZR_le. lia. }
  assert (HD : D ≤ Zdigits2 q + e').
  { assert (bpow (D - 1) < bpow (Zdigits2 q + e'))%R as Hlt.
    { assert (Hvlt : (v < bpow (Zdigits2 q + e'))%R)
        by (rewrite bpow_add; nra).
      assert (Hvgt : (bpow (D - 1) < v)%R).
      { apply (Rmult_lt_reg_r (IZR m2 * bpow e2)); [nra|]. rewrite Hv.
        replace (D - 1) with ((Zdigits2 m1 - 1) + e1 + - (Zdigits2 m2 + e2))
          by lia.
        pose proof (bpow_pos (Zdigits2 m1 - 1)) as Hp1.
        pose proof (bpow_pos e1) as Hpe1.
        pose proof (bpow_pos (Zdigits2 m2)) as Hp2.
        pose proof (bpow_pos (- (Zdigits2 m2 + e2))) as Hp3.
        assert (bpow (- (Zdigits2 m2 + e2)) * (bpow (Zdigits2 m2) * bpow e2) = 1)%R
          as Hinv.
        { rewrite <- !bpow_add.
          replace (- (Zdigits2 m2 + e2) + (Zdigits2 m2 + e2)) with 0 by lia.
          apply bpow_0. }
        rewrite !bpow_add.
        assert (bpow (- (Zdigits2 m2 + e2)) * (IZR m2 * bpow e2) < 1)%R by nra.
        assert (0 < bpow (Zdigits2 m1 - 1) * bpow e1)%R by nra.
        assert (bpow (Zdigits2 m1 - 1) * bpow e1 <= IZR m1 * bpow e1)%R by nra.
        nra. }
      lra. }
    apply bpow_lt_inv in Hlt. lia. }
  assert (He' : e' = Z.min (Z.max (D - 24) (-149)) (e1 - e2))
    by (subst e'; by rewrite fexp_eq).
  rewrite fexp_eq. lia.
Qed.

Lemma val_pos y : nonneg_fin y → is_zero y = false → (0 < val y)%R.
Proof.
  destruct y as [| | |[] m e]; simpl; try done.
  intros _ _. pose proof (bpow_pos e).
  assert (0 < IZR (Z.pos m))%R by (apply IZR_lt; lia). nra.
Qed.

(** The quotient of a non-negative number by a positive one: relative
    error [roundoff] and absolute error [2^-150]. *)
Lemma SFdiv_spec x y v :
  nonneg_fin x → nonneg_fin y → is_zero y = false →
  (v * val y = val x)%R → (v <= bpow 100)%R →
  nonneg_fin (SFdiv prec emax x y)
  ∧ (Rabs (val (SFdiv prec emax x y) - v) <= roundoff * v + bpow (-150))%R.
Proof.
  intros Hx Hy Hnz Hv Hv100.
  pose proof (val_pos y Hy Hnz) as Hy0.
  destruct roundoff_small as [[Hu0 _] _]. pose proof (bpow_pos (-150)) as H150.
  destruct y as [| | |[] my ey]; try done.
  destruct x as [sx| | |[] mx ex]; try done.
  - simpl in Hv, Hy0.
    destruct (Rmult_integral _ _ Hv) as [->|Hc]; [|lra].
    simpl. split; [done|]. replace (0 - 0)%R with 0%R by lra.
    rewrite Rabs_R0. nra.
  - cbn [SFdiv xorb]. simpl in Hv.
    destruct (SFdiv_core_binary_spec (Z.pos mx) ex (Z.pos my) ey v)
      as (q & e' & l & -> & Hq & Hloc & Hdig); [lia|lia|done|].
    destruct (binary_round_aux_err q e' l v) as (Hgood & Herr & _);
      [done|done|by right|done|].
    done.
Qed.

(** One step of the running sum: with [J] summands added so far, the
    accumulator [a] is within [J] roundoffs below and [2 J] above the exact
    sum [X]. *)
Lemma step_bounds (X p a a' J : R) :
  (0 <= X)%R → (0 <= p)%R → (0 <= J)%R → (2 * (J + 1) * roundoff <= 1)%R →
  (X * (1 - J * roundoff) <= a <= X * (1 + 2 * J * roundoff))%R →
  (Rabs (a' - (a + p)) <= roundoff * (a + p))%R →
  ((X + p) * (1 - (J + 1) * roundoff) <= a' <= (X + p) * (1 + 2 * (J + 1) * roundoff))%R.
Proof.
  intros HX Hp HJ HJu [Hlo Hhi] Herr.
  destruct roundoff_small as [[Hu0 Hu] _].
  apply Rabs_bound in Herr. destruct Herr as [Herr1 Herr2].
  assert (HJu0 : (0 <= J * roundoff)%R) by nra.
  assert (HJu1 : (J * roundoff <= / 2)%R) by nra.
  split.
  - assert ((X + p) * (1 - J * roundoff) <= a + p)%R by nra.
    assert ((a + p) * (1 - roundoff) <= a')%R by nra.
    assert (0 <= (X + p) * (J * roundoff * roundoff))%R.
    { apply Rmult_le_pos; [lra|]. apply Rmult_le_pos; lra. }
    assert ((X + p) * (1 - J * roundoff) * (1 - roundoff) <= (a + p) * (1 - roundoff))%R.
    { apply Rmult_le_compat_r; lra. }
    nra.
  - assert (a + p <= (X + p) * (1 + 2 * J * roundoff))%R by nra.
    assert (a' <= (a + p) * (1 + roundoff))%R by nra.
    assert ((a + p) * (1 + roundoff)
            <= (X + p) * (1 + 2 * J * roundoff) * (1 + roundoff))%R.
    { apply Rmult_le_compat_r; lra. }
    assert ((X + p) * (2 * J * roundoff * roundoff) <= (X + p) * roundoff)%R.
    { apply Rmult_le_compat_l; [lra|]. nra. }
    nra.
Qed.

Lemma roundoff_val : (roundoff * 16777216 = 1)%R.
Proof.
  unfold roundoff. change 16777216%R with (IZR (2 ^ 24)).
  rewrite <- bpow_IZR, <- bpow_add by lia. apply bpow_0.
Qed.

Lemma bpow_100_large : (67108864 <= bpow 100)%R.
Proof.
  change 67108864%R with (IZR (2 ^ 26)). rewrite <- bpow_IZR by lia.
  by apply bpow_le.
Qed.

Lemma sum_val_cons p ps : sum_val (p :: ps) = (val p + sum_val ps)%R.
Proof. reflexivity. Qed.

Lemma sum_val_nonneg ps : Forall nonneg_fin ps → (0 <= sum_val ps)%R.
Proof.
  induction 1 as [|p ps Hp _ IH]; simpl; [lra|].
  pose proof (val_nonneg p Hp). lra.
Qed.

Lemma sum_val_elem p ps :
  Forall nonneg_fin ps → p ∈ ps → (val p <= sum_val ps)%R.
Proof.
  induction 1 as [|p' ps Hp' Hps IH]; [by intros ?%elem_of_nil|].
  pose proof (val_nonneg p' Hp'). pose proof (sum_val_nonneg ps Hps).
  intros [->|Hin]%elem_of_cons; simpl; [lra|].
  specialize (IH Hin). lra.
Qed.

(** The denominator: the running sum of [n] summands is within [n]
    roundoffs below and [2 n] above their exact sum. *)
Lemma total_bounds ps : ∀ acc X (j : nat),
  Forall summand ps → nonneg_fin acc →
  (0 <= X <= 2 * INR j)%R →
  (X * (1 - INR j * roundoff) <= val acc <= X * (1 + 2 * INR j * roundoff))%R →
  (INR (j + length ps) <= 8388608)%R →
  nonneg_fin (foldl (SFadd prec emax) acc ps)
  ∧ ((X + sum_val ps) * (1 - INR (j + length ps) * roundoff)
     <= val (foldl (SFadd prec emax) acc ps)
     <= (X + sum_val ps) * (1 + 2 * INR (j + length ps) * roundoff))%R.
Proof.
  induction ps as [|p ps IH]; intros acc X j Hps Hacc HX Hb Hlen.
  - simpl. rewrite Nat.add_0_r, Rplus_0_r. done.
  - apply Forall_cons in Hps as [[Hp Hp2] Hps].
    cbn [foldl length] in Hlen |- *. rewrite sum_val_cons.
    rewrite Nat.add_succ_r, <- Nat.add_succ_l in Hlen |- *.
    pose proof (val_nonneg p Hp) as Hp0.
    pose proof (pos_INR j) as Hj0.
    pose proof (pos_INR (length ps)) as Hl0.
    pose proof roundoff_val as Huv. destruct roundoff_small as [[Hu0 Hu] _].
    rewrite plus_INR, S_INR in Hlen.
    assert (HJu : (2 * (INR j + 1) * roundoff <= 1)%R) by nra.
    assert (Hsum : (val acc + val p <= bpow 100)%R).
    { pose proof bpow_100_large.
      assert (INR j * roundoff <= / 2)%R by nra.
      assert (val acc <= X * 2)%R.
      { etransitivity; [apply Hb|]. apply Rmult_le_compat_l; lra. }
      lra. }
    destruct (SFadd_spec acc p Hacc Hp Hsum) as [Hacc' Herr].
    pose proof (step_bounds X (val p) (val acc) _ (INR j)
                  ltac:(lra) Hp0 Hj0 HJu Hb Herr) as Hb'.
    rewrite <- S_INR in Hb'.
    destruct (IH (SFadd prec emax acc p) (X + val p)%R (S j) Hps Hacc')
      as [Hgood Hres]; [rewrite S_INR; lra|done|rewrite plus_INR, S_INR; lra|].
    split; [done|].
    replace (X + (val p + sum_val ps))%R with (X + val p + sum_val ps)%R by lra.
    done.
Qed.

(** The sum of the quotients by the denominator [S]. *)
Lemma sum_div S ps :
  nonneg_fin S → is_zero S = false →
  Forall (λ p, nonneg_fin p ∧ (val p <= 2 * val S)%R) ps →
  (Rabs (sum_val ((λ p, SFdiv prec emax p S) <$> ps) - sum_val ps / val S)
   <= roundoff * (sum_val ps / val S) + INR (length ps) * bpow (-150))%R.
Proof.
  intros HS Hnz. pose proof (val_pos S HS Hnz) as HS0.
  induction 1 as [|p ps [Hp HpS] Hps IH].
  - simpl. unfold Rdiv. rewrite Rmult_0_l, Rmult_0_r.
    replace (0 - 0)%R with 0%R by lra. rewrite Rabs_R0. lra.
  - rewrite fmap_cons, !sum_val_cons. cbn [length]. rewrite S_INR.
    set (v := (val p / val S)%R).
    assert (Hv : (v * val S = val p)%R) by (subst v; field; lra).
    assert (Hv2 : (v <= 2)%R).
    { apply (Rmult_le_reg_r (val S)); [done|]. rewrite Hv. lra. }
    destruct (SFdiv_spec p S v Hp HS Hnz Hv) as [_ Herr].
    { pose proof bpow_100_large. lra. }
    replace ((val p + sum_val ps) / val S)%R
      with (v + sum_val ps / val S)%R by (subst v; field; lra).
    set (q := val (SFdiv prec emax p S)) in *.
    set (Q := sum_val ((λ p, SFdiv prec emax p S) <$> ps)) in *.
    set (T := (sum_val ps / val S)%R) in *.
    replace (q + Q - (v + T))%R with ((q - v) + (Q - T))%R by lra.
    etransitivity; [apply Rabs_triang|]. lra.
Qed.

(** The row after the two loops sums to 1 within [n * 2^-21], for [n]
    classes, when the denominator is not zero. *)
Lemma renormalised_sum (row obs : list float32) :
  Forall (λ x, probability x = true) row →
  Forall (λ x, probability x = true) obs →
  let ps := zip_with (SFmul prec emax) row obs in
  let S := foldl (SFadd prec emax) (S754_zero false) ps in
  (length ps ≤ 2 ^ 23)%nat →
  is_zero S = false →
  (Rabs (sum_val ((λ p, SFdiv prec emax p S) <$> ps) - 1)
   <= INR (length ps) * bpow (-21))%R.
Proof.
  intros Hrow Hobs ps S Hlen HnzS.
  assert (Hps : Forall summand ps).
  { subst ps. clear S Hlen HnzS. revert obs Hobs.
    induction Hrow as [|x row [Hx Hx1]%probability_spec _ IH];
      intros obs Hobs; [constructor|].
    destruct Hobs as [|y obs [Hy Hy1]%probability_spec Hobs]; [constructor|].
    simpl. constructor; [|by apply IH].
    by apply SFmul_spec. }
  set (n := length ps) in *.
  assert (Hn : (INR n <= 8388608)%R).
  { change 8388608%R with (IZR (2 ^ 23)). rewrite INR_IZR_INZ.
    apply IZR_le. apply Nat2Z.inj_le in Hlen.
    rewrite Nat2Z.inj_pow in Hlen. exact Hlen. }
  pose proof (pos_INR n) as Hn0.
  pose proof roundoff_val as Huv. destruct roundoff_small as [[Hu0 Hu] _].
  assert (Hnu : (INR n * roundoff <= / 2)%R) by nra.
  destruct (total_bounds ps (S754_zero false) 0%R 0 Hps) as [HS HSb];
    [done|simpl; lra|simpl; lra|simpl; fold n; lra|].
  fold S in HS, HSb. simpl in HSb. fold n in HSb.
  rewrite Rplus_0_l in HSb.
  pose proof (val_pos S HS HnzS) as HS0.
  assert (Hnn : Forall nonneg_fin ps)
    by (eapply Forall_impl; [exact Hps|by intros ? []]).
  pose proof (sum_val_nonneg ps Hnn) as HX0.
  set (X := sum_val ps) in *.
  assert (HXS : (X <= 2 * val S)%R) by nra.
  pose proof (sum_div S ps HS HnzS) as Hdiv.
  fold n X in Hdiv.
  assert (Hall : Forall (λ p, nonneg_fin p ∧ (val p <= 2 * val S)%R) ps).
  { apply Forall_forall. intros p Hp. split.
    - by eapply Forall_forall in Hnn.
    - pose proof (sum_val_elem p ps Hnn Hp). fold X in H. lra. }
  specialize (Hdiv Hall).
  set (T := (X / val S)%R) in *.
  assert (HT : (T * val S = X)%R) by (subst T; field; lra).
  assert (HT0 : (0 <= T)%R).
  { apply (Rmult_le_reg_r (val S)); [done|]. rewrite HT. lra. }
  (* 1 <= n, for the sum of no products is zero *)
  assert (H1n : (1 <= INR n)%R).
  { destruct ps as [|p ps'] eqn:Hpeq; [done|].
    subst n. cbn [length]. rewrite S_INR. pose proof (pos_INR (length ps')). lra. }
  assert (HTup : (T <= 1 + 2 * INR n * roundoff)%R).
  { assert (T * (1 - INR n * roundoff) <= 1)%R.
    { apply (Rmult_le_reg_r (val S)); [done|].
      replace (T * (1 - INR n * roundoff) * val S)%R
        with (T * val S * (1 - INR n * roundoff))%R by lra.
      rewrite HT. lra. }
    assert (1 <= (1 + 2 * INR n * roundoff) * (1 - INR n * roundoff))%R by nra.
    apply (Rmult_le_reg_r (1 - INR n * roundoff)); [lra|]. lra. }
  assert (HTlo : (1 - 2 * INR n * roundoff <= T)%R).
  { assert (1 <= T * (1 + 2 * INR n * roundoff))%R.
    { apply (Rmult_le_reg_r (val S)); [done|].
      replace (T * (1 + 2 * INR n * roundoff) * val S)%R
        with (T * val S * (1 + 2 * INR n * roundoff))%R by lra.
      rewrite HT. lra. }
    assert ((1 - 2 * INR n * roundoff) * (1 + 2 * INR n * roundoff) <= 1)%R by nra.
    apply (Rmult_le_reg_r (1 + 2 * INR n * roundoff)); [nra|]. lra. }
  assert (H150 : (bpow (-150) <= roundoff)%R) by (by apply bpow_le).
  assert (H21 : bpow (-21) = (8 * roundoff)%R).
  { unfold roundoff. change 8%R with (IZR (2 ^ 3)). rewrite <- bpow_IZR by lia.
    by rewrite <- bpow_add. }
  rewrite H21.
  apply Rabs_bound in Hdiv. apply Rabs_le.
  assert (INR n * bpow (-150) <= INR n * roundoff)%R
    by (apply Rmult_le_compat_l; lra).
  assert (roundoff * T <= 2 * roundoff)%R by nra.
  assert (2 * roundoff <= 2 * (INR n * roundoff))%R by nra.
  split; lra.
Qed.
End binary32_rounding.

(** ** Rows that sum to one *)

Section write_back_rows.
Import Smoothing.
Context `{FloatOps F}.

(** When the filter accepts every value the inference returned for a row,
    the row of the table becomes the returned row. *)
Lemma write_back_whole_row (st : SemanticFusionInterface F)
    (resulting_probs prob_table : list F) (i : Z) :
  0 ≤ current_table_size_ st ≤ max_components_ st →
  Z.of_nat (length prob_table) = num_classes_ st * max_components_ st →
  Z.of_nat (length resulting_probs) = current_table_size_ st * num_classes_ st →
  0 ≤ i < current_table_size_ st →
  (∀ j r, 0 ≤ j < num_classes_ st →
     load resulting_probs (i * num_classes_ st + j) = Some r → accepted r = true) →
  table_row (num_classes_ st) (max_components_ st)
    (write_back st resulting_probs prob_table) i
  = result_row (num_classes_ st) resulting_probs i.
Proof.
  intros Hcts Htbl Hres Hi Hacc. unfold table_row, result_row.
  apply Forall_fmap_ext_1, Forall_forall. intros j Hj%elem_of_seqZ.
  destruct (load_is_Some resulting_probs (i * num_classes_ st + j)) as [r Hr]; [nia|].
  destruct (load_is_Some prob_table (j * max_components_ st + i)) as [old Hold]; [nia|].
  rewrite Hr. unfold write_back, valid_ids. rewrite length_seqZ, Z2Nat.id by lia.
  erewrite element_loop_hit; [|
    |apply NoDup_seqZ|apply elem_of_seqZ; lia|lia|exact Hr|exact Hold].
  - by rewrite (Hacc j r) by (done || lia).
  - intros i' Hi'%elem_of_seqZ. split; [|lia]. by rewrite load_seqZ by lia.
Qed.
End write_back_rows.

Section rows_binary32.
Import Float32 Rounding Fusion Smoothing.
Implicit Types (row obs xs : list float32).

(** C1 (amended), on binary32, with the sum of a row taken in the real
    numbers.  Fusion: for a row and an observation of at most [2^23]
    probabilities whose products do not sum to zero, the row after the
    update sums to 1 within [num_classes * 2^-21].  Smoothing: when the
    filter accepts every value the inference returned for a row, the row of
    the table is the returned row, value for value; the write-back looks
    at each value alone and never at the sum. *)
Theorem updated_row_sums_to_one :
  (∀ (num_classes : Z) row obs row' (max_prob : float32) (max_class : Z),
     Z.of_nat (length row) = num_classes →
     Z.of_nat (length obs) = num_classes →
     num_classes ≤ 2 ^ 23 →
     Forall (λ x, probability x = true) row →
     Forall (λ x, probability x = true) obs →
     is_zero (total (products row obs)) = false →
     fuse_row num_classes row obs = (row', max_prob, max_class) →
     (Rabs (sum_val row' - 1) <= IZR num_classes * bpow (-21))%R)
  ∧ (∀ (st : SemanticFusionInterface float32) resulting_probs prob_table
       (i : Z) xs,
     0 ≤ current_table_size_ st ≤ max_components_ st →
     Z.of_nat (length prob_table) = num_classes_ st * max_components_ st →
     Z.of_nat (length resulting_probs) = current_table_size_ st * num_classes_ st →
     0 ≤ i < current_table_size_ st →
     result_row (num_classes_ st) resulting_probs i = Some <$> xs →
     Forall (λ r, accepted r = true) xs →
     table_row (num_classes_ st) (max_components_ st)
       (write_back st resulting_probs prob_table) i
     = Some <$> xs).
Proof.
  split.
  - intros num_classes row obs row' max_prob max_class Hrow Hobs Hn
      Hprow Hpobs Hnz Hfuse.
    rewrite fuse_row_spec in Hfuse by done. injection Hfuse as <- _ _.
    assert (Hlen : length (products row obs) = length row)
      by (unfold products; rewrite length_zip_with; lia).
    pose proof (renormalised_sum row obs Hprow Hpobs) as Hsum.
    cbn zeta in Hsum.
    change (zip_with (SFmul prec emax) row obs) with (products row obs) in Hsum.
    rewrite Hlen, INR_IZR_INZ, Hrow in Hsum.
    apply Hsum; [|exact Hnz].
    apply Nat2Z.inj_le. rewrite Nat2Z.inj_pow. lia.
  - intros st resulting_probs prob_table i xs Hcts Htbl Hres Hi Hxs Hacc.
    rewrite write_back_whole_row; [done..|].
    intros j r Hj Hr.
    assert (Hlk : (Some <$> xs) !! Z.to_nat j = Some (Some r)).
    { rewrite <- Hxs. unfold result_row. rewrite list_lookup_fmap.
      rewrite lookup_seqZ_lt by lia.
      rewrite Z2Nat.id, Z.add_0_l by lia. simpl. by rewrite Hr. }
    rewrite list_lookup_fmap in Hlk.
    destruct (xs !! Z.to_nat j) as [r'|] eqn:Hr'; [|done].
    simpl in Hlk. simplify_eq.
    rewrite Forall_lookup in Hacc. by apply (Hacc _ _ Hr').
Qed.
End rows_binary32.

(** ** The argmax image *)

Section argmax_loops.
Import ArgMax.
Context `{FloatOps F}.
Variables (st : SemanticFusionInterface F) (surfel_ids : list Z) (h w : Z).

Local Abbreviation raster := (raster_at surfel_ids h w).

(** The patch loops select among the candidates. *)
Lemma patch_loop_select offs : ∀ acc,
  foldl (λ acc xy, patch_step st surfel_ids h w xy.1 acc xy.2) acc offs
  = select (omap (cached st) (filter (valid_id st) (omap raster offs))) acc.
Proof.
  induction offs as [|[x y] offs IH]; intros acc; [done|].
  cbn [foldl omap list_omap]. rewrite IH. unfold patch_step at 1. cbn [fst snd].
  change (load surfel_ids ((h * 2 + y) * 640 + (w * 2 + x))) with (raster (x, y)).
  destruct (raster (x, y)) as [id|]; [|done].
  rewrite filter_cons. unfold valid_id at 2.
  destruct (decide (id > 0 ∧ id < current_table_size_ st)); [|done].
  cbn [omap list_omap]. unfold cached at 2.
  destruct (max_prob st id) as [p|]; [|done].
  destruct (max_class st id) as [c|]; done.
Qed.

Lemma pixel_class_select :
  pixel_class st surfel_ids h w
  = (select (candidates st surfel_ids h w) (f_zero, 0)).2.
Proof.
  unfold candidates, patch_ids. fold raster.
  rewrite <- patch_loop_select. reflexivity.
Qed.
End argmax_loops.

Section argmax_binary32.
Import Float32 ArgMax.
Implicit Types (cands : list (float32 * float32)).

(** The selection ends with an upper bound of the candidates; it is the
    initial accumulator when no candidate exceeds it, and a candidate
    above it otherwise. *)
Lemma select_spec cands : ∀ (m0 : float32) (c0 : Z),
  is_nan m0 = false →
  let r := select cands (m0, c0) in
  SFleb m0 r.1 = true
  ∧ (∀ pc, pc ∈ cands → SFltb r.1 pc.1 = false)
  ∧ ((r = (m0, c0) ∧ ∀ pc, pc ∈ cands → SFltb m0 pc.1 = false)
     ∨ ∃ p c, (p, c) ∈ cands ∧ r = (p, to_int c) ∧ SFltb m0 p = true).
Proof.
  induction cands as [|[p1 c1] cands IH]; intros m0 c0 Hm0; cbn zeta.
  - cbn [select foldl fst]. split; [by apply SFleb_refl|].
    split; [by intros ? ?%elem_of_nil|].
    left. split; [done|]. by intros ? ?%elem_of_nil.
  - unfold select. cbn [foldl fst snd]. fold (select (F:=float32)).
    change (f_gt p1 m0) with (SFltb m0 p1).
    destruct (SFltb m0 p1) eqn:Hgt.
    + assert (Hp1 : is_nan p1 = false) by (by apply SFltb_ord in Hgt as (_ & ? & _)).
      destruct (IH p1 (f_to_int c1) Hp1) as (Hle & Hub & Hcase).
      fold (select cands (p1, f_to_int c1)) in *.
      split; [eapply SFleb_trans; [by apply SFltb_SFleb_weak|done]|].
      split.
      { intros pc [->|Hin]%elem_of_cons; [by apply SFleb_SFltb|by apply Hub]. }
      right. destruct Hcase as [[Heq _]|(p & c & Hin & Heq & Hlt)].
      * exists p1, c1. split; [apply list_elem_of_here|]. by split.
      * exists p, c. split; [by apply list_elem_of_further|].
        split; [done|]. by eapply SFltb_trans.
    + destruct (IH m0 c0 Hm0) as (Hle & Hub & Hcase).
      fold (select cands (m0, c0)) in *.
      split; [done|].
      split.
      { intros pc [->|Hin]%elem_of_cons; [by eapply SFltb_above|by apply Hub]. }
      destruct Hcase as [[Heq Hnone]|(p & c & Hin & Heq & Hlt)].
      * left. split; [done|].
        intros pc [->|Hin]%elem_of_cons; [done|by apply Hnone].
      * right. exists p, c. split; [by apply list_elem_of_further|]. by split.
Qed.

Lemma elem_of_candidates (st : SemanticFusionInterface float32) surfel_ids h w pc :
  pc ∈ candidates st surfel_ids h w
  ↔ ∃ id, id ∈ patch_ids surfel_ids h w ∧ valid_id st id ∧ cached st id = Some pc.
Proof.
  unfold candidates. rewrite list_elem_of_omap.
  split.
  - intros (id & [? ?]%list_elem_of_filter & ?). by exists id.
  - intros (id & ? & ? & ?). exists id. by rewrite list_elem_of_filter.
Qed.

Lemma length_patch_ids surfel_ids h w :
  0 ≤ h < 240 → 0 ≤ w < 320 →
  Z.of_nat (length surfel_ids) = 640 * 480 →
  length (patch_ids surfel_ids h w) = 4%nat.
Proof.
  intros Hh Hw Hlen. unfold patch_ids. cbn [omap list_omap].
  unfold raster_at. cbn [fst snd].
  destruct (load_is_Some surfel_ids ((h * 2 + 0) * 640 + (w * 2 + 0))) as [? ->]; [lia|].
  destruct (load_is_Some surfel_ids ((h * 2 + 1) * 640 + (w * 2 + 0))) as [? ->]; [lia|].
  destruct (load_is_Some surfel_ids ((h * 2 + 0) * 640 + (w * 2 + 1))) as [? ->]; [lia|].
  destruct (load_is_Some surfel_ids ((h * 2 + 1) * 640 + (w * 2 + 1))) as [? ->]; [lia|].
  done.
Qed.

(** C8 (amended). For an output pixel ([h], [w]) of the 320x240 image,
    with a 640x480 identity raster and a summary buffer of
    [2 * max_components_] cells: the four raster reads of the patch at
    ([2h], [2w]) and the summary reads of its valid identifiers
    ([0 < id < current_table_size_]) stay inside their buffers; the three
    channels of the pixel hold the same value, the low 8 bits of
    [this_max_class].  When no valid identifier of the patch has a cached
    probability above 0.0 (in particular when the patch has no valid
    identifier) [this_max_class] is 0.  Otherwise it is the cached class,
    converted to [int], of a valid identifier of the patch whose cached
    probability is above 0.0 and is exceeded by that of no valid
    identifier of the patch. *)
Theorem argmax_export_pixel (st : SemanticFusionInterface float32)
    (surfel_ids : list Z) (h w : Z) :
  0 ≤ h < 240 → 0 ≤ w < 320 →
  Z.of_nat (length surfel_ids) = 640 * 480 →
  0 ≤ current_table_size_ st ≤ max_components_ st →
  Z.of_nat (length (data (class_max_gpu_ st))) = 2 * max_components_ st →
  let c := pixel_class st surfel_ids h w in
  (∃ row, SaveArgMaxPredictions st surfel_ids !! Z.to_nat h = Some row
          ∧ row !! Z.to_nat w = Some (to_uchar c, to_uchar c, to_uchar c))
  ∧ length (patch_ids surfel_ids h w) = 4%nat
  ∧ (∀ id, valid_id st id → is_Some (cached st id))
  ∧ ((∀ id, id ∈ patch_ids surfel_ids h w → ¬ valid_id st id) → c = 0)
  ∧ ((∀ id p cls, id ∈ patch_ids surfel_ids h w → valid_id st id →
        cached st id = Some (p, cls) → f_gt p zero = false) → c = 0)
  ∧ ((∃ id p cls, id ∈ patch_ids surfel_ids h w ∧ valid_id st id
        ∧ cached st id = Some (p, cls) ∧ f_gt p zero = true) →
     ∃ id p cls,
       id ∈ patch_ids surfel_ids h w ∧ valid_id st id
       ∧ cached st id = Some (p, cls)
       ∧ c = f_to_int cls
       ∧ f_gt p zero = true
       ∧ ∀ id' p' cls', id' ∈ patch_ids surfel_ids h w → valid_id st id' →
           cached st id' = Some (p', cls') → f_gt p' p = false).
Proof.
  intros Hh Hw Hlen Hcts Hbuf. cbn zeta.
  pose proof (select_spec (candidates st surfel_ids h w) zero 0 eq_refl)
    as (_ & Hub & Hcase).
  cbn zeta in Hub, Hcase.
  rewrite pixel_class_select. change f_zero with zero.
  set (r := select (candidates st surfel_ids h w) (zero, 0)) in *.
  assert (Hnone : (∀ id p cls, id ∈ patch_ids surfel_ids h w → valid_id st id →
                     cached st id = Some (p, cls) → f_gt p zero = false) → r.2 = 0).
  { intros Hall. destruct Hcase as [[-> _]|(p & c & Hin & _ & Hlt)]; [done|].
    apply elem_of_candidates in Hin as (id & Hid & Hv & Hc).
    pose proof (Hall id p c Hid Hv Hc) as Hf.
    change (SFltb zero p = false) in Hf. congruence. }
  split.
  { eexists. split.
    - unfold SaveArgMaxPredictions. rewrite list_lookup_fmap.
      rewrite lookup_seqZ_lt by lia. reflexivity.
    - rewrite list_lookup_fmap, lookup_seqZ_lt by lia. simpl.
      unfold pixel. rewrite !Z2Nat.id by lia.
      by rewrite pixel_class_select. }
  split; [by apply length_patch_ids|].
  split.
  { intros id [Hpos Hlt]. unfold cached, max_prob, max_class.
    destruct (load_is_Some (data (class_max_gpu_ st)) (max_components_ st + id))
      as [p ->]; [lia|].
    destruct (load_is_Some (data (class_max_gpu_ st)) id) as [c ->]; [lia|].
    done. }
  split.
  { intros Hinv. apply Hnone. intros id p cls Hid Hv _. by destruct (Hinv id Hid). }
  split; [exact Hnone|].
  intros (id0 & p0 & cls0 & Hid0 & Hv0 & Hc0 & Hgt0).
  destruct Hcase as [[_ Hnot]|(p & c & Hin & Heq & Hlt)].
  - assert (Hin0 : (p0, cls0) ∈ candidates st surfel_ids h w)
      by (apply elem_of_candidates; by exists id0).
    specialize (Hnot _ Hin0). cbn [fst] in Hnot.
    change (f_gt p0 zero) with (SFltb zero p0) in Hgt0. congruence.
  - apply elem_of_candidates in Hin as (id & Hid & Hv & Hc).
    exists id, p, c. rewrite Heq in Hub |- *. cbn [fst snd] in *.
    repeat (split; [done|]).
    intros id' p' cls' Hid' Hv' Hc'.
    apply (Hub (p', cls')). apply elem_of_candidates. by exists id'.
Qed.
End argmax_binary32.

(** ** The colour scheme loader *)

Section colour_scheme.
Import ColourScheme.
Variable default_colour : ClassColour.
Variable num_classes : Z.
Implicit Types (lines : list string) (v : list ClassColour).

Lemma read_lines_header lines v :
  read_lines num_classes lines 1 v = read_lines num_classes (drop 2 lines) 3 v.
Proof. by destruct lines as [|l1 [|l2 lines]]. Qed.

Lemma read_lines_length lines : ∀ line_number v v',
  read_lines num_classes lines line_number v = Done v' → length v' = length v.
Proof.
  induction lines as [|str lines IH]; intros ln v v' Hdone; cbn [read_lines] in Hdone.
  - by simplify_eq.
  - destruct (decide (ln > 2)); [|by apply IH in Hdone].
    destruct (parse_line str) as [[[[n [id|]] [r|]] [g|]] [b|]]; try done.
    repeat case_decide; try done.
    apply IH in Hdone. by rewrite length_insert in Hdone.
Qed.

Lemma read_lines_rows lines : ∀ line_number v,
  line_number > 2 →
  Z.of_nat (length v) = num_classes →
  Forall (well_formed num_classes) (parse_line <$> lines) →
  ∃ v', read_lines num_classes lines line_number v = Done v'
        ∧ ∀ (i : nat) d, v !! i = Some d →
            v' !! i = Some (colour_of d (Z.of_nat i) (parse_line <$> lines)).
Proof.
  induction lines as [|str lines IH]; intros ln v Hln Hlen Hwf.
  - exists v. done.
  - rewrite fmap_cons in Hwf. apply Forall_cons in Hwf as [Hrow Hwf].
    destruct Hrow as (n & id & r & g & b & Hrow & Hid).
    cbn [read_lines]. rewrite fmap_cons, Hrow.
    rewrite !decide_True by lia.
    destruct (IH (ln + 1) (<[Z.to_nat id := {| name := n; r := r; g := g; b := b |}]> v))
      as (v' & Hdone & Hlk); [lia|by rewrite length_insert|done|].
    exists v'. split; [done|].
    intros i d Hd. cbn [colour_of].
    destruct (decide (id = Z.of_nat i)) as [->|Hne].
    + apply Hlk. rewrite Nat2Z.id. apply list_lookup_insert_eq.
      by apply lookup_lt_Some in Hd.
    + apply Hlk. rewrite list_lookup_insert_ne by lia. done.
Qed.

Lemma read_lines_assert lines : ∀ line_number v k n id r g b,
  line_number > 2 →
  Forall (well_formed num_classes) (take k (parse_line <$> lines)) →
  (parse_line <$> lines) !! k = Some (n, Some id, Some r, Some g, Some b) →
  num_classes ≤ id →
  read_lines num_classes lines line_number v = AssertionFailed.
Proof.
  induction lines as [|str lines IH]; intros ln v k n id r g b Hln Hwf Hk Hid;
    [done|].
  rewrite fmap_cons in Hwf, Hk. cbn [read_lines]. rewrite decide_True by lia.
  destruct k as [|k].
  - simpl in Hk. simplify_eq. rewrite Hk. by rewrite decide_False by lia.
  - simpl in Hk. cbn [take] in Hwf. apply Forall_cons in Hwf as [Hrow Hwf].
    destruct Hrow as (n' & id' & r' & g' & b' & -> & Hid').
    rewrite !decide_True by lia.
    eapply IH; [lia|done..].
Qed.

(** C9 (amended). For a class count that is not negative: the loader
    skips the first two lines and reads every later line as a row of a
    name followed by the integers id, r, g and b; a vector it returns has
    exactly [num_classes] entries; when every row is read in full with an
    id in [0, num_classes) it returns, and entry [i] is the colour (name,
    r, g, b) of the last row whose id is [i], the default colour when no
    row has that id; a row read in full whose id is [num_classes] or more,
    after rows that are in order, fails the assertion. *)
Theorem load_colour_scheme_stores_by_id (content : string) :
  0 ≤ num_classes →
  (∀ v, load_colour_scheme_ default_colour content num_classes = Done v →
        Z.of_nat (length v) = num_classes)
  ∧ (Forall (well_formed num_classes) (rows content) →
     ∃ v, load_colour_scheme_ default_colour content num_classes = Done v
          ∧ ∀ i, 0 ≤ i < num_classes →
              v !! Z.to_nat i = Some (colour_of default_colour i (rows content)))
  ∧ (∀ (k : nat) n id r g b,
       Forall (well_formed num_classes) (take k (rows content)) →
       rows content !! k = Some (n, Some id, Some r, Some g, Some b) →
       num_classes ≤ id →
       load_colour_scheme_ default_colour content num_classes = AssertionFailed).
Proof.
  intros Hnc. unfold load_colour_scheme_, rows.
  rewrite decide_True by done. rewrite read_lines_header.
  split; [|split].
  - intros v Hdone. apply read_lines_length in Hdone.
    rewrite Hdone, length_replicate. lia.
  - intros Hwf.
    destruct (read_lines_rows (drop 2 (getlines content EmptyString)) 3
                (replicate (Z.to_nat num_classes) default_colour))
      as (v & Hdone & Hlk); [lia|rewrite length_replicate; lia|done|].
    exists v. split; [done|].
    intros i Hi. rewrite (Hlk (Z.to_nat i) default_colour).
    + by rewrite Z2Nat.id by lia.
    + apply lookup_replicate_2. lia.
  - intros k n id r g b Hwf Hk Hid.
    eapply read_lines_assert; [lia|done..].
Qed.
End colour_scheme.

(** ** The table synchroniser without deletions *)

Section sync_noop.
Import TableSync.
Context `{FloatOps F}.
Implicit Types (st : SemanticFusionInterface F) (map : ElasticFusionInterface).

Lemma cell_div (w c id : Z) : 0 ≤ id < w → (c * w + id) / w = c.
Proof. intros. rewrite Z.div_add_l by lia. rewrite Z.div_small by lia. lia. Qed.

Lemma cell_mod (w c id : Z) : 0 ≤ id < w → (c * w + id) mod w = id.
Proof.
  intros. rewrite Z.add_comm, Z_mod_plus_full. by apply Z.mod_small.
Qed.

Lemma old_ids_nil (current_table_size j : Z) :
  0 ≤ j < current_table_size →
  old_ids [] current_table_size !! Z.to_nat j = Some j.
Proof.
  intros Hj. unfold old_ids, RemoveIndex.survivors.
  rewrite survivors_from_nil, lookup_seqZ_lt by lia.
  f_equal. lia.
Qed.

Lemma load_imap (f : nat → F → F) (buf : list F) (k : Z) :
  0 ≤ k → load (imap f buf) k = f (Z.to_nat k) <$> load buf k.
Proof.
  intros Hk. unfold load. rewrite !decide_True by done.
  apply list_lookup_imap.
Qed.

Lemma sync_noop st map :
  invariant st →
  GetMapSurfelDeletedCount map = 0 →
  GetMapSurfelCount map = current_table_size_ st →
  let st' := UpdateProbabilityTable st map in
  invariant st'
  ∧ current_table_size_ st' = current_table_size_ st
  ∧ num_classes_ st' = num_classes_ st
  ∧ (∀ c id, 0 ≤ c < num_classes_ st → 0 ≤ id < current_table_size_ st →
       row_cell st' c id = row_cell st c id)
  ∧ (∀ id, 0 ≤ id < current_table_size_ st →
       summary_class st' id = summary_class st id
       ∧ summary_prob st' id = summary_prob st id)
  ∧ class_probabilities_gpu_buffer_ st' = class_probabilities_gpu_ st
  ∧ class_max_gpu_buffer_ st' = class_max_gpu_ st.
Proof.
  intros (Hcts & Hnc & (Hth & Htw & Htl) & (Hbh & Hbw & Hbl) & (Hmw & Hml) & (Hxw & Hxl))
    Hdel Hcount.
  cbn zeta. unfold UpdateProbabilityTable, updateProbabilityTable.
  rewrite Hdel, Hcount, Htw, Hth.
  change (Z.to_nat 0) with 0%nat. rewrite take_0.
  split.
  { unfold invariant, table_blob, summary_blob. cbn.
    rewrite !length_imap. done. }
  split; [done|]. split; [done|]. split; [|split; [|done]].
  - intros c id Hc Hid. unfold row_cell. cbn.
    destruct (load_is_Some (data (class_probabilities_gpu_ st))
                (c * max_components_ st + id)) as [x Hx]; [nia|].
    destruct (load_is_Some (data (class_probabilities_gpu_buffer_ st))
                (c * max_components_ st + id)) as [old Hold]; [nia|].
    rewrite load_imap, Hold by nia. cbn [fmap option_fmap option_map].
    rewrite Z2Nat.id, cell_div, cell_mod by nia.
    rewrite decide_True, old_ids_nil by lia. by rewrite Hx.
  - intros id Hid. unfold summary_class, summary_prob. cbn.
    destruct (load_is_Some (data (class_max_gpu_ st)) id) as [x Hx]; [lia|].
    destruct (load_is_Some (data (class_max_gpu_ st)) (max_components_ st + id))
      as [y Hy]; [lia|].
    destruct (load_is_Some (data (class_max_gpu_buffer_ st)) id) as [x' Hx']; [lia|].
    destruct (load_is_Some (data (class_max_gpu_buffer_ st)) (max_components_ st + id))
      as [y' Hy']; [lia|].
    rewrite !load_imap, Hx', Hy' by lia. cbn [fmap option_fmap option_map].
    rewrite !Z2Nat.id by lia.
    pose proof (cell_div (max_components_ st) 0 id) as Hd0.
    pose proof (cell_mod (max_components_ st) 0 id) as Hm0.
    pose proof (cell_div (max_components_ st) 1 id) as Hd1.
    pose proof (cell_mod (max_components_ st) 1 id) as Hm1.
    rewrite Z.mul_0_l, Z.add_0_l in Hd0, Hm0. rewrite Z.mul_1_l in Hd1, Hm1.
    rewrite Hd0, Hm0, Hd1, Hm1 by lia.
    rewrite !decide_True, old_ids_nil by lia.
    rewrite Z.mul_0_l, Z.add_0_l, Z.mul_1_l.
    by rewrite Hx, Hy.
Qed.

(** C3. In a state that satisfies the class invariant, a call of the
    table synchroniser that reports no deletion and the current width
    keeps the probability cells and the cached summary of every row below
    the logical width, and the logical width itself; the former active
    buffers are the inactive ones afterwards.  A second such call keeps
    them again. *)
Theorem synchroniser_without_change_is_noop st map :
  invariant st →
  GetMapSurfelDeletedCount map = 0 →
  GetMapSurfelCount map = current_table_size_ st →
  let st1 := UpdateProbabilityTable st map in
  let st2 := UpdateProbabilityTable st1 map in
  current_table_size_ st1 = current_table_size_ st
  ∧ current_table_size_ st2 = current_table_size_ st
  ∧ class_probabilities_gpu_buffer_ st1 = class_probabilities_gpu_ st
  ∧ class_max_gpu_buffer_ st1 = class_max_gpu_ st
  ∧ (∀ c id, 0 ≤ c < num_classes_ st → 0 ≤ id < current_table_size_ st →
       row_cell st1 c id = row_cell st c id
       ∧ row_cell st2 c id = row_cell st c id)
  ∧ (∀ id, 0 ≤ id < current_table_size_ st →
       summary_class st1 id = summary_class st id
       ∧ summary_prob st1 id = summary_prob st id
       ∧ summary_class st2 id = summary_class st id
       ∧ summary_prob st2 id = summary_prob st id).
Proof.
  intros Hinv Hdel Hcount. cbn zeta.
  destruct (sync_noop st map Hinv Hdel Hcount)
    as (Hinv1 & Hcts1 & Hnc1 & Hrow1 & Hsum1 & Hbuf1 & Hmax1).
  cbn zeta in *.
  destruct (sync_noop (UpdateProbabilityTable st map) map Hinv1 Hdel)
    as (_ & Hcts2 & _ & Hrow2 & Hsum2 & _ & _); [by rewrite Hcts1|].
  cbn zeta in *. rewrite Hcts1, Hnc1 in *.
  split; [done|]. split; [by rewrite Hcts2|].
  split; [done|]. split; [done|]. split.
  - intros c id Hc Hid. split; [by apply Hrow1|].
    rewrite Hrow2 by done. by apply Hrow1.
  - intros id Hid.
    destruct (Hsum1 id Hid) as [Hc1 Hp1]. destruct (Hsum2 id Hid) as [Hc2 Hp2].
    repeat split; congruence.
Qed.
End sync_noop.

(** ** The layout of the summary cache *)

Section cache_layout.
Import TableSync SummaryCache.
Context `{FloatOps F}.
Variable updateMaxClass : Z → list F → Z → list F → Z → list F.
Variable fuseSemanticProbabilities :
  list Z → Z → Z → list F → Z → Z → Z → list F → list F → Z → list F * list F.
Implicit Types (st : SemanticFusionInterface F) (buf : list F) (id stride : Z).

(** [p + n] and then [[k]] is [p[n + k]]. *)
Lemma load_drop buf (n k : Z) :
  0 ≤ n → 0 ≤ k → load (drop (Z.to_nat n) buf) k = load buf (n + k).
Proof.
  intros Hn Hk. unfold load. rewrite !decide_True by lia.
  rewrite lookup_drop. f_equal. lia.
Qed.

(** The two pointers of a call of [UpdateSurfelClassGpu] that splits a
    summary buffer of [2 * stride] cells at [stride], and the two reads of
    the export in a state whose [max_components_] is [stride]. *)
Lemma split_summary_buffer st buf id :
  Z.of_nat (length buf) = 2 * max_components_ st →
  data (class_max_gpu_ st) = buf →
  0 ≤ id < max_components_ st →
  ∃ c p,
    load buf id = Some c
    ∧ load buf (max_components_ st + id) = Some p
    ∧ load (drop (Z.to_nat (max_components_ st)) buf) id = Some p
    ∧ ArgMax.max_class st id = Some c
    ∧ ArgMax.max_prob st id = Some p.
Proof.
  intros Hlen Hbuf Hid.
  destruct (load_is_Some buf id) as [c Hc]; [lia|].
  destruct (load_is_Some buf (max_components_ st + id)) as [p Hp]; [lia|].
  exists c, p. unfold ArgMax.max_class, ArgMax.max_prob.
  rewrite load_drop, Hbuf by lia. done.
Qed.

End cache_layout.

(** * Further properties of the code *)

(** ** Compaction as repeated erasure *)

Section remove_index_erase.
Import RemoveIndex.
Context {T : Type}.
Implicit Types (v : list T) (D : list Z).

(** The compaction loop computes the survivors. *)
Lemma remove_index_survivors v D :
  deletion_set D (length v) → remove_index v D = Some (survivors v D).
Proof.
  intros [Hsort Hrange].
  assert (Hlen : (length D ≤ length v)%nat).
  { pose proof (length_deletion_set D 0 (Z.of_nat (length v)) Hsort Hrange). lia. }
  unfold remove_index. rewrite decide_True by done. f_equal.
  destruct D as [|it rest].
  - cbn [remove_loop length]. rewrite Nat.sub_0_r, firstn_all.
    unfold survivors. by rewrite survivors_from_nil.
  - pose proof (remove_loop_cons rest it v 0) as Hloop.
    pose proof Hrange as Hr. apply Forall_cons in Hr as [Hit _].
    replace (Z.to_nat (Z.of_nat (length v) - 0 - Z.of_nat (length (it :: rest))))
      with (length v - length (it :: rest))%nat in Hloop by lia.
    rewrite Hloop; [|lia|done|].
    2:{ eapply Forall_impl; [exact Hrange|]. simpl. intros; lia. }
    unfold survivors.
    rewrite <- (take_drop (Z.to_nat it) v) at 3.
    rewrite survivors_from_app_keep.
    + rewrite length_take. do 2 f_equal; lia.
    + rewrite length_take. apply Forall_cons. split; [lia|].
      destruct (StronglySorted_inv Hsort) as [_ Hall].
      eapply Forall_impl; [exact Hall|]. simpl. intros; lia.
Qed.

(** One more deletion, below all the others, erases one element of the
    survivors. *)
Lemma survivors_from_erase v : ∀ i d D,
  i ≤ d → Forall (λ d', d < d') D →
  survivors_from i v (d :: D)
  = delete (Z.to_nat (d - i)) (survivors_from i v D).
Proof.
  induction v as [|x v IH]; intros i d D Hid HD; cbn [survivors_from]; [done|].
  assert (HiD : i ∉ D).
  { intros Hin. eapply Forall_forall in HD; [|exact Hin]. simpl in HD. lia. }
  rewrite (decide_False (P := i ∈ D)) by done.
  destruct (decide (i = d)) as [->|Hne].
  - rewrite decide_True by apply list_elem_of_here.
    rewrite survivors_from_cons_lt by lia.
    by rewrite Z.sub_diag.
  - rewrite decide_False.
    2:{ intros [?|?]%elem_of_cons; done. }
    rewrite IH by (done || lia).
    replace (Z.to_nat (d - i)) with (S (Z.to_nat (d - (i + 1)))) by lia.
    done.
Qed.

(** X1. For a deletion set that is ascending, without repetition and
    inside the vector, [remove_index] gives what erasing the listed
    positions one at a time gives, when the highest position is erased
    first and the lowest last. *)
Theorem remove_index_is_repeated_erase v D :
  deletion_set D (length v) →
  remove_index v D = Some (foldr (λ d u, delete (Z.to_nat d) u) v D).
Proof.
  intros Hset. rewrite remove_index_survivors by done. f_equal.
  destruct Hset as [Hsort Hrange]. unfold survivors.
  induction Hsort as [|d D Hsort IH Hall]; [apply survivors_from_nil|].
  apply Forall_cons in Hrange as [Hd Hrange].
  cbn [foldr]. rewrite <- IH by done.
  rewrite survivors_from_erase by (done || lia). by rewrite Z.sub_0_r.
Qed.
End remove_index_erase.

(** ** The calls of [UpdateSurfelProbabilities] *)

Section fusion_calls.
Import Fusion.
Context `{FloatOps F}.
Implicit Types (st : SemanticFusionInterface F) (row : list F).

(** X2. A call of [UpdateSurfelProbabilities] that returns had an id
    inside the table and changed the row of that id only: the table keeps
    its number of rows, every other row is as before, the new row has
    [num_classes_] entries, and the sizes, the threshold and the GPU
    buffers are as before.  The result is -1 or a class index. *)
Theorem fusion_update_touches_one_row st st' surfel_id class_probs ret :
  UpdateSurfelProbabilities st surfel_id class_probs = Done (st', ret) →
  0 ≤ surfel_id < Z.of_nat (length (class_probabilities_ st))
  ∧ length (class_probabilities_ st') = length (class_probabilities_ st)
  ∧ (∀ k : nat, Z.of_nat k ≠ surfel_id →
       class_probabilities_ st' !! k = class_probabilities_ st !! k)
  ∧ (∃ row', class_probabilities_ st' !! Z.to_nat surfel_id = Some row'
             ∧ Z.of_nat (length row') = num_classes_ st)
  ∧ (num_classes_ st' = num_classes_ st
     ∧ max_components_ st' = max_components_ st
     ∧ current_table_size_ st' = current_table_size_ st
     ∧ colour_threshold_ st' = colour_threshold_ st
     ∧ class_probabilities_gpu_ st' = class_probabilities_gpu_ st
     ∧ class_max_gpu_ st' = class_max_gpu_ st)
  ∧ (ret = -1 ∨ 0 ≤ ret < num_classes_ st).
Proof.
  unfold UpdateSurfelProbabilities. intros Hdone.
  destruct (decide (surfel_id < _)) as [Hlt|]; [|done].
  destruct (decide (0 ≤ surfel_id)) as [Hge|]; [|done].
  destruct (class_probabilities_ st !! Z.to_nat surfel_id) as [row|] eqn:Hrow;
    [|done].
  destruct (decide (Z.of_nat (length class_probs) = _)) as [Hobs|]; [|done].
  destruct (decide (Z.of_nat (length row) = _)) as [Hlen|]; [|done].
  rewrite fuse_row_spec in Hdone by done.
  injection Hdone as <- <-. cbn.
  split; [lia|]. split; [by rewrite length_insert|].
  split; [intros k Hk; apply list_lookup_insert_ne; lia|].
  split.
  { eexists. split; [apply list_lookup_insert_eq; lia|].
    rewrite length_renormalised; lia. }
  split; [done|].
  unfold thresholded. destruct (f_ge _ _); [|by left].
  destruct (running_max_class (renormalised row class_probs) 0 f_zero (-1))
    as [->|Hin]; [by left|right].
  rewrite length_renormalised in Hin by lia. lia.
Qed.

(** X3. What the three assertions of [UpdateSurfelProbabilities] catch.
    The call fails an assertion exactly when the id is at or behind the end
    of the table, or is inside it and the observation or the row does not
    have [num_classes_] entries.  A negative id is not caught: the first
    assertion compares signed integers, and the call then indexes the
    table outside its bounds.  In every other case the call returns. *)
Theorem fusion_update_checks st surfel_id class_probs :
  let size := Z.of_nat (length (class_probabilities_ st)) in
  let call := UpdateSurfelProbabilities st surfel_id class_probs in
  (call = AssertionFailed ↔
     size ≤ surfel_id
     ∨ ∃ row, 0 ≤ surfel_id
              ∧ class_probabilities_ st !! Z.to_nat surfel_id = Some row
              ∧ (Z.of_nat (length class_probs) ≠ num_classes_ st
                 ∨ Z.of_nat (length row) ≠ num_classes_ st))
  ∧ (call = Undefined ↔ surfel_id < 0)
  ∧ ((∃ r, call = Done r) ↔
       ∃ row, 0 ≤ surfel_id
              ∧ class_probabilities_ st !! Z.to_nat surfel_id = Some row
              ∧ Z.of_nat (length class_probs) = num_classes_ st
              ∧ Z.of_nat (length row) = num_classes_ st)
  ∧ call ≠ Thrown.
Proof.
  cbn zeta. unfold UpdateSurfelProbabilities.
  destruct (decide (surfel_id < _)) as [Hlt|Hge].
  2:{ split; [split; [intros _; left; lia|done]|].
      split; [split; [done|lia]|].
      split; [|done]. split; [by intros [? ?]|].
      intros (row & ? & Hrow%lookup_lt_Some & _). lia. }
  destruct (decide (0 ≤ surfel_id)) as [Hpos|Hneg].
  2:{ split; [split; [done|intros [?|(? & ? & _)]; lia]|].
      split; [split; [lia|done]|].
      split; [|done]. split; [by intros [? ?]|]. intros (? & ? & _). lia. }
  destruct (lookup_lt_is_Some_2 (class_probabilities_ st) (Z.to_nat surfel_id))
    as [row Hrow]; [lia|].
  rewrite Hrow.
  destruct (decide (Z.of_nat (length class_probs) = _)) as [Hobs|Hobs].
  2:{ split; [split; [intros _; right; exists row; auto|done]|].
      split; [split; [done|lia]|].
      split; [|done]. split; [by intros [? ?]|].
      intros (row' & _ & Hrow' & ? & _). done. }
  destruct (decide (Z.of_nat (length row) = _)) as [Hlen|Hlen].
  2:{ split; [split; [intros _; right; exists row; auto|done]|].
      split; [split; [done|lia]|].
      split; [|done]. split; [by intros [? ?]|].
      intros (row' & _ & Hrow' & _ & ?). congruence. }
  destruct (fuse_row _ _ _) as [[new_row mp] mc].
  split.
  { split; [done|]. intros [?|(row' & _ & Hrow' & [?|?])]; [lia|done|congruence]. }
  split; [split; [done|lia]|].
  split; [|done]. split; [|by eexists].
  intros _. exists row. auto.
Qed.
End fusion_calls.

(** ** The numbers of an updated row *)

Section fusion_numbers.
Import Float32 Rounding Fusion.
Implicit Types (row obs xs : list float32).

Lemma total_nan_from xs : foldl (SFadd prec emax) NaN xs = NaN.
Proof. induction xs as [|x xs IH]; [done|]. exact IH. Qed.

(** A sum with a NaN among its terms is NaN. *)
Lemma total_nan xs (c : nat) : ∀ acc,
  xs !! c = Some NaN → foldl (SFadd prec emax) acc xs = NaN.
Proof.
  revert c. induction xs as [|x xs IH]; intros c acc Hc; [done|].
  destruct c as [|c]; simpl in Hc.
  - simplify_eq. simpl. replace (SFadd prec emax acc NaN) with NaN
      by (by destruct acc as [[]|[]| |[]]).
    apply total_nan_from.
  - simpl. by eapply IH.
Qed.

Lemma div_nan xs :
  (λ p, SFdiv prec emax p NaN) <$> xs = replicate (length xs) NaN.
Proof.
  induction xs as [|x xs IH]; [done|].
  rewrite fmap_cons, IH. simpl. f_equal. by destruct x.
Qed.

(** X4. One NaN poisons the row.  When the assertions hold and an entry of
    the row or of the observation is NaN, the update makes every entry of
    the row NaN and the call returns -1, whatever the threshold. *)
Theorem nan_poisons_the_row (st : SemanticFusionInterface float32)
    surfel_id class_probs row (c : nat) :
  0 ≤ surfel_id →
  class_probabilities_ st !! Z.to_nat surfel_id = Some row →
  Z.of_nat (length class_probs) = num_classes_ st →
  Z.of_nat (length row) = num_classes_ st →
  (row !! c = Some NaN ∨ class_probs !! c = Some NaN) →
  UpdateSurfelProbabilities st surfel_id class_probs
  = Done (set_class_probabilities_ st
            (<[Z.to_nat surfel_id := replicate (length row) NaN]>
               (class_probabilities_ st)),
          -1).
Proof.
  intros Hid Hrow Hobs Hlen Hnan.
  destruct (UpdateSurfelProbabilities_done st surfel_id class_probs row
              Hid Hrow Hobs Hlen) as [_ ->].
  assert (Hprod : products row class_probs !! c = Some NaN).
  { unfold products. rewrite lookup_zip_with.
    destruct Hnan as [Hc|Hc].
    - destruct (lookup_lt_is_Some_2 class_probs c) as [y Hy];
        [apply lookup_lt_Some in Hc; lia|].
      by rewrite Hc, Hy.
    - destruct (lookup_lt_is_Some_2 row c) as [x Hx];
        [apply lookup_lt_Some in Hc; lia|].
      rewrite Hc, Hx. simpl. by destruct x. }
  assert (Htot : total (products row class_probs) = NaN)
    by (by eapply total_nan).
  assert (Hren : renormalised row class_probs = replicate (length row) NaN).
  { unfold renormalised. rewrite Htot.
    change (f_div (F:=float32)) with (SFdiv prec emax). rewrite div_nan.
    unfold products. rewrite length_zip_with. f_equal. lia. }
  rewrite Hren, running_max_nan. cbn [fst snd]. unfold thresholded.
  by destruct (f_ge _ _).
Qed.

Lemma SFltb_le_trans x y z :
  SFltb x y = true → SFleb y z = true → SFltb x z = true.
Proof.
  rewrite !SFltb_ord, SFleb_ord. unfold lex_lt, lex_le.
  intros (? & ? & ?) (? & ? & ?). repeat split; try done. lia.
Qed.

Lemma nonneg_fin_ge_zero (x : float32) : nonneg_fin x → SFleb zero x = true.
Proof. by destruct x as [[]| | |[] m e]. Qed.

Lemma positive_gt_zero (x : float32) :
  nonneg_fin x → (0 < val x)%R → SFltb zero x = true.
Proof. destruct x as [[]| | |[] m e]; simpl; try done; lra. Qed.

Lemma sum_val_positive xs :
  (0 < sum_val xs)%R → ∃ x, x ∈ xs ∧ (0 < val x)%R.
Proof.
  induction xs as [|x xs IH]; [simpl; lra|].
  rewrite sum_val_cons. intros Hpos.
  destruct (Rlt_dec 0 (val x)) as [Hx|Hx].
  - exists x. split; [apply list_elem_of_here|done].
  - destruct IH as (y & Hy & Hy0); [lra|].
    exists y. split; [by apply list_elem_of_further|done].
Qed.

(** The denominator is a positive number, and no product is more than
    twice as large. *)
Lemma denominator_spec row obs :
  Forall (λ x, probability x = true) row →
  Forall (λ x, probability x = true) obs →
  (length (products row obs) ≤ 2 ^ 23)%nat →
  is_zero (total (products row obs)) = false →
  nonneg_fin (total (products row obs))
  ∧ Forall (λ p, nonneg_fin p
                 ∧ (val p <= 2 * val (total (products row obs)))%R)
      (products row obs).
Proof.
  intros Hrow Hobs Hlen HnzS.
  set (ps := products row obs) in *. set (S := total ps) in *.
  assert (Hps : Forall summand ps).
  { subst ps. clear S Hlen HnzS. revert obs Hobs.
    induction Hrow as [|x row [Hx Hx1]%probability_spec _ IH];
      intros obs Hobs; [constructor|].
    destruct Hobs as [|y obs [Hy Hy1]%probability_spec Hobs]; [constructor|].
    unfold products. simpl. constructor; [|by apply IH].
    by apply SFmul_spec. }
  set (n := length ps) in *.
  assert (Hn : (INR n <= 8388608)%R).
  { change 8388608%R with (IZR (2 ^ 23)). rewrite INR_IZR_INZ.
    apply IZR_le. apply Nat2Z.inj_le in Hlen.
    rewrite Nat2Z.inj_pow in Hlen. exact Hlen. }
  pose proof (pos_INR n) as Hn0.
  pose proof roundoff_val as Huv. destruct roundoff_small as [[Hu0 Hu] _].
  assert (Hnu : (INR n * roundoff <= / 2)%R) by nra.
  destruct (total_bounds ps (S754_zero false) 0%R 0 Hps) as [HS HSb];
    [done|simpl; lra|simpl; lra|simpl; fold n; lra|].
  change (foldl (SFadd prec emax) (S754_zero false) ps) with S in HS, HSb.
  simpl in HSb. fold n in HSb. rewrite Rplus_0_l in HSb.
  split; [done|].
  pose proof (val_pos S HS HnzS) as HS0.
  assert (Hnn : Forall nonneg_fin ps)
    by (eapply Forall_impl; [exact Hps|by intros ? []]).
  pose proof (sum_val_nonneg ps Hnn) as HX0.
  assert (HXS : (sum_val ps <= 2 * val S)%R) by nra.
  apply Forall_forall. intros p Hp. split.
  - by eapply Forall_forall in Hnn.
  - pose proof (sum_val_elem p ps Hnn Hp). lra.
Qed.

Lemma renormalised_entries row obs :
  Forall (λ x, probability x = true) row →
  Forall (λ x, probability x = true) obs →
  (length (products row obs) ≤ 2 ^ 23)%nat →
  is_zero (total (products row obs)) = false →
  Forall nonneg_fin (renormalised row obs).
Proof.
  intros Hrow Hobs Hlen Hnz.
  destruct (denominator_spec row obs Hrow Hobs Hlen Hnz) as [HS Hall].
  pose proof (val_pos _ HS Hnz) as HS0.
  unfold renormalised. apply Forall_fmap.
  eapply Forall_impl; [exact Hall|]. intros p [Hp HpS]. simpl.
  set (S := total (products row obs)) in *.
  set (v := (val p / val S)%R).
  assert (Hv : (v * val S = val p)%R) by (subst v; field; lra).
  assert (Hv2 : (v <= 2)%R).
  { apply (Rmult_le_reg_r (val S)); [done|]. rewrite Hv. lra. }
  destruct (SFdiv_spec p S v Hp HS Hnz Hv) as [Hq _]; [|done].
  pose proof bpow_100_large. lra.
Qed.

(** The updated row of a row and an observation of probabilities whose
    products do not sum to zero. *)
Lemma fused_row_numbers
    (num_classes : Z) row obs row' (max_prob : float32) (max_class : Z) :
  Z.of_nat (length row) = num_classes →
  Z.of_nat (length obs) = num_classes →
  num_classes ≤ 2 ^ 20 →
  Forall (λ x, probability x = true) row →
  Forall (λ x, probability x = true) obs →
  is_zero (total (products row obs)) = false →
  fuse_row num_classes row obs = (row', max_prob, max_class) →
  Forall (λ q, nonneg_fin q ∧ (val q <= 1 + IZR num_classes * bpow (-21))%R) row'
  ∧ 0 ≤ max_class < num_classes
  ∧ row' !! Z.to_nat max_class = Some max_prob
  ∧ f_gt max_prob zero = true
  ∧ (∀ (c : nat) x y, row !! c = Some x → obs !! c = Some y →
       is_zero x = true ∨ is_zero y = true →
       (∃ q, row' !! c = Some q ∧ is_zero q = true)
       ∧ max_class ≠ Z.of_nat c).
Proof.
  intros Hlrow Hlobs Hn Hrow Hobs Hnz Hfuse.
  rewrite fuse_row_spec in Hfuse by done. injection Hfuse as <- <- <-.
  assert (Hlen : length (products row obs) = length row)
    by (unfold products; rewrite length_zip_with; lia).
  assert (Hlen23 : (length (products row obs) ≤ 2 ^ 23)%nat).
  { apply Nat2Z.inj_le. rewrite Nat2Z.inj_pow. lia. }
  pose proof (renormalised_entries row obs Hrow Hobs Hlen23 Hnz) as Hnn.
  pose proof (renormalised_sum row obs Hrow Hobs Hlen23 Hnz) as Hsum.
  cbn zeta in Hsum.
  change ((λ p, SFdiv prec emax p
             (foldl (SFadd prec emax) (S754_zero false)
                (zip_with (SFmul prec emax) row obs)))
          <$> zip_with (SFmul prec emax) row obs)
    with (renormalised row obs) in Hsum.
  change (zip_with (SFmul prec emax) row obs) with (products row obs) in Hsum.
  rewrite Hlen, INR_IZR_INZ, Hlrow in Hsum.
  assert (Htol : (IZR num_classes * bpow (-21) <= / 2)%R).
  { assert (IZR num_classes <= bpow 20)%R
      by (rewrite bpow_IZR by lia; by apply IZR_le).
    pose proof (bpow_pos (-21)).
    assert (bpow 20 * bpow (-21) = / 2)%R
      by (rewrite <- bpow_add; apply bpow_m1).
    nra. }
  apply Rabs_bound in Hsum.
  set (qs := renormalised row obs) in *.
  assert (Hrange : Forall (λ q, nonneg_fin q
                     ∧ (val q <= 1 + IZR num_classes * bpow (-21))%R) qs).
  { apply Forall_forall. intros q Hq. split.
    - by eapply Forall_forall in Hnn.
    - pose proof (sum_val_elem q qs Hnn Hq). lra. }
  split; [done|].
  destruct (sum_val_positive qs) as (q0 & Hq0 & Hq0pos); [lra|].
  assert (Hq0gt : SFltb zero q0 = true).
  { apply positive_gt_zero; [|done]. by eapply Forall_forall in Hnn. }
  assert (Hne : qs ≠ []).
  { intros Heq. rewrite Heq in Hq0. by apply elem_of_nil in Hq0. }
  assert (Hge : Forall (λ p, f_ge p zero = true) qs).
  { eapply Forall_impl; [exact Hnn|]. intros q Hq. by apply nonneg_fin_ge_zero. }
  destruct (running_max_last qs Hne Hge) as (k & Hk & Hlk & Hub & _).
  set (r := running_max 0 qs zero (-1)) in *.
  change f_zero with zero. fold r.
  assert (Hmax : SFltb zero r.1 = true).
  { apply list_elem_of_lookup in Hq0 as [j Hj].
    eapply SFltb_le_trans; [exact Hq0gt|]. by eapply Hub. }
  assert (Hkn : (k < length row)%nat).
  { apply lookup_lt_Some in Hlk. subst qs.
    rewrite length_renormalised in Hlk by lia. done. }
  rewrite Hk, Nat2Z.id.
  split; [lia|]. split; [done|]. split; [done|].
  intros c x y Hx Hy Hzero.
  assert (Hpc : ∃ s, products row obs !! c = Some (S754_zero s)).
  { unfold products. rewrite lookup_zip_with, Hx, Hy. simpl.
    assert (Hfx : nonneg_fin x).
    { eapply Forall_forall in Hrow; [|by eapply list_elem_of_lookup_2].
      by apply probability_spec in Hrow as []. }
    assert (Hfy : nonneg_fin y).
    { eapply Forall_forall in Hobs; [|by eapply list_elem_of_lookup_2].
      by apply probability_spec in Hobs as []. }
    destruct x as [sx| | |[] mx ex]; try done;
      destruct y as [sy| | |[] my ey]; try done;
      destruct Hzero as [?|?]; try done; by eexists. }
  destruct Hpc as [s Hpc].
  destruct (denominator_spec row obs Hrow Hobs Hlen23 Hnz) as [HS _].
  assert (Hqc : ∃ s', qs !! c = Some (S754_zero s')).
  { subst qs. unfold renormalised. rewrite list_lookup_fmap, Hpc. simpl.
    change (f_div (F:=float32)) with (SFdiv prec emax).
    destruct (total (products row obs)) as [| | |[] m e]; try done.
    by eexists. }
  destruct Hqc as [s' Hqc].
  split; [by eexists|].
  intros Heq. apply Nat2Z.inj in Heq. subst k.
  rewrite Hqc in Hlk. injection Hlk as Hlk. rewrite <- Hlk in Hmax.
  by destruct s'.
Qed.

(** X5. The updated row is a row of numbers.  For a row and an observation
    of at most [2^20] probabilities whose products do not sum to zero,
    every entry of the updated row is a zero or a positive finite number,
    not above [1 + num_classes * 2^-21]; [max_class] is a class index and
    not the initial -1, [max_prob] is the entry at that index, and it is
    above 0.0. *)
Theorem fused_row_is_a_row_of_numbers
    (num_classes : Z) row obs row' (max_prob : float32) (max_class : Z) :
  Z.of_nat (length row) = num_classes →
  Z.of_nat (length obs) = num_classes →
  num_classes ≤ 2 ^ 20 →
  Forall (λ x, probability x = true) row →
  Forall (λ x, probability x = true) obs →
  is_zero (total (products row obs)) = false →
  fuse_row num_classes row obs = (row', max_prob, max_class) →
  Forall (λ q, nonneg_fin q ∧ (val q <= 1 + IZR num_classes * bpow (-21))%R) row'
  ∧ 0 ≤ max_class < num_classes
  ∧ row' !! Z.to_nat max_class = Some max_prob
  ∧ f_gt max_prob zero = true.
Proof.
  intros Hlrow Hlobs Hn Hrow Hobs Hnz Hfuse.
  destruct (fused_row_numbers num_classes row obs row' max_prob max_class)
    as (? & ? & ? & ? & _); done.
Qed.

(** X6. A class that the row or the observation gives the probability
    zero is never the argmax.  Under the hypotheses of X5, when the entry
    of class [c] is a zero in the row or in the observation, the updated
    entry of [c] is a zero and [max_class] is another class. *)
Theorem impossible_class_is_never_the_argmax
    (num_classes : Z) row obs row' (max_prob : float32) (max_class : Z)
    (c : nat) x y :
  Z.of_nat (length row) = num_classes →
  Z.of_nat (length obs) = num_classes →
  num_classes ≤ 2 ^ 20 →
  Forall (λ x, probability x = true) row →
  Forall (λ x, probability x = true) obs →
  is_zero (total (products row obs)) = false →
  fuse_row num_classes row obs = (row', max_prob, max_class) →
  row !! c = Some x → obs !! c = Some y →
  is_zero x = true ∨ is_zero y = true →
  (∃ q, row' !! c = Some q ∧ is_zero q = true)
  ∧ max_class ≠ Z.of_nat c.
Proof.
  intros Hlrow Hlobs Hn Hrow Hobs Hnz Hfuse Hx Hy Hzero.
  destruct (fused_row_numbers num_classes row obs row' max_prob max_class)
    as (_ & _ & _ & _ & Hc); [done..|].
  by apply (Hc c x y).
Qed.
End fusion_numbers.

(** ** The argmax of an updated row and the threshold *)

Section fusion_argmax.
Import Float32 Rounding Fusion.
Implicit Types (row obs : list float32).

(** What [fuse_row] returns, for every row and observation: the products
    divided by their plain sum, and the running maximum of that row. *)
Lemma fuse_row_argmax (num_classes : Z) row obs row' (max_prob : float32)
    (max_class : Z) :
  Z.of_nat (length row) = num_classes →
  Z.of_nat (length obs) = num_classes →
  fuse_row num_classes row obs = (row', max_prob, max_class) →
  row' = (λ p, f_div p (total (products row obs))) <$> products row obs
  ∧ Z.of_nat (length row') = num_classes
  ∧ ((max_prob = zero ∧ max_class = -1
      ∧ ∀ (c : nat) p, row' !! c = Some p → f_ge p zero = false)
     ∨ ∃ k : nat,
         max_class = Z.of_nat k ∧ row' !! k = Some max_prob
         ∧ (∀ (c : nat) p, row' !! c = Some p → is_nan p = false →
              f_le p max_prob = true)
         ∧ (∀ (c : nat) p, row' !! c = Some p → SFeqb p max_prob = true →
              (c ≤ k)%nat)).
Proof.
  intros Hrow Hobs Hfuse.
  rewrite fuse_row_spec in Hfuse by done. injection Hfuse as <- <- <-.
  split; [done|]. split; [rewrite length_renormalised; lia|].
  destruct (argmax_of_row (renormalised row obs))
    as [[Heq Hnone]|(k & Hk & Hlk & Hub & Hties)].
  - left. change f_zero with zero. rewrite Heq. done.
  - right. by exists k.
Qed.

Lemma nonneg_fin_not_nan (x : float32) : nonneg_fin x → is_nan x = false.
Proof. by destruct x. Qed.

(** For probabilities whose products do not sum to zero the maximum is an
    entry of the updated row. *)
Lemma fuse_row_argmax_numbers (num_classes : Z) row obs row'
    (max_prob : float32) (max_class : Z) :
  Z.of_nat (length row) = num_classes →
  Z.of_nat (length obs) = num_classes →
  num_classes ≤ 2 ^ 20 →
  Forall (λ x, probability x = true) row →
  Forall (λ x, probability x = true) obs →
  is_zero (total (products row obs)) = false →
  fuse_row num_classes row obs = (row', max_prob, max_class) →
  ∃ k : nat,
    max_class = Z.of_nat k ∧ row' !! k = Some max_prob
    ∧ (∀ (c : nat) p, row' !! c = Some p → f_le p max_prob = true)
    ∧ (∀ (c : nat) p, row' !! c = Some p → SFeqb p max_prob = true →
         (c ≤ k)%nat).
Proof.
  intros Hrow Hobs Hn Hprow Hpobs Hnz Hfuse.
  destruct (fused_row_numbers num_classes row obs row' max_prob max_class)
    as (Hnum & Hclass & _); [done..|].
  destruct (fuse_row_argmax num_classes row obs row' max_prob max_class)
    as (_ & _ & [(_ & Hminus & _)|(k & Hk & Hlk & Hub & Hties)]); [done..|lia|].
  exists k. split; [done|]. split; [done|]. split; [|done].
  intros c p Hc. apply (Hub c p Hc). apply nonneg_fin_not_nan.
  rewrite Forall_forall in Hnum.
  by apply (Hnum p (list_elem_of_lookup_2 _ _ _ Hc)).
Qed.

(** C6 (amended).  After the fusion update the row holds the products
    divided by their plain sum.  When no entry of it is [>= 0.0], which
    needs a NaN or a negative number in every place, [max_prob] and
    [max_class] keep the initial 0.0 and -1.  Otherwise [max_prob] is an
    entry that no entry which is a number exceeds, and of all the indices
    whose entry equals it [max_class] is the highest one: the comparison
    [>=] lets a later equal entry replace an earlier one.  For a row and an
    observation of at most [2^20] probabilities whose products do not sum
    to zero it is this second case that holds, and no entry at all exceeds
    [max_prob]. *)
Theorem argmax_tie_goes_to_highest_index
    (num_classes : Z) row obs row' (max_prob : float32) (max_class : Z) :
  Z.of_nat (length row) = num_classes →
  Z.of_nat (length obs) = num_classes →
  fuse_row num_classes row obs = (row', max_prob, max_class) →
  row' = (λ p, f_div p (total (products row obs))) <$> products row obs
  ∧ ((max_prob = zero ∧ max_class = -1
      ∧ ∀ (c : nat) p, row' !! c = Some p → f_ge p zero = false)
     ∨ ∃ k : nat,
         max_class = Z.of_nat k ∧ row' !! k = Some max_prob
         ∧ (∀ (c : nat) p, row' !! c = Some p → is_nan p = false →
              f_le p max_prob = true)
         ∧ (∀ (c : nat) p, row' !! c = Some p → SFeqb p max_prob = true →
              (c ≤ k)%nat))
  ∧ (num_classes ≤ 2 ^ 20 →
     Forall (λ x, probability x = true) row →
     Forall (λ x, probability x = true) obs →
     is_zero (total (products row obs)) = false →
     ∃ k : nat,
       max_class = Z.of_nat k ∧ row' !! k = Some max_prob
       ∧ (∀ (c : nat) p, row' !! c = Some p → f_le p max_prob = true)
       ∧ (∀ (c : nat) p, row' !! c = Some p → SFeqb p max_prob = true →
            (c ≤ k)%nat)).
Proof.
  intros Hrow Hobs Hfuse.
  destruct (fuse_row_argmax num_classes row obs row' max_prob max_class)
    as (Hrow' & _ & Hcase); [done..|].
  split; [done|]. split; [done|].
  intros Hn Hprow Hpobs Hnz.
  by apply (fuse_row_argmax_numbers num_classes row obs).
Qed.

(** C7.  When the assertions of [UpdateSurfelProbabilities] hold, the call
    returns and stores the products divided by their plain sum.  The
    result is [max_class] when [max_prob >= colour_threshold_] and -1 when
    that comparison fails, as it does when [max_prob < colour_threshold_];
    a result other than -1 is a class index in [0, num_classes_).
    [max_prob] is the greatest entry of the stored row and [max_class] an
    index that holds it, unless no entry is [>= 0.0]; then the two are 0.0
    and -1.  For a row and an observation of at most [2^20] probabilities
    whose products do not sum to zero [max_prob] is the greatest entry and
    [max_class] the class that holds it. *)
Theorem threshold_boundary_is_inclusive
    (st : SemanticFusionInterface float32) surfel_id class_probs row :
  0 ≤ surfel_id →
  class_probabilities_ st !! Z.to_nat surfel_id = Some row →
  Z.of_nat (length class_probs) = num_classes_ st →
  Z.of_nat (length row) = num_classes_ st →
  ∃ row' max_prob max_class ret,
    fuse_row (num_classes_ st) row class_probs = (row', max_prob, max_class)
    ∧ row' = (λ p, f_div p (total (products row class_probs)))
               <$> products row class_probs
    ∧ UpdateSurfelProbabilities st surfel_id class_probs
      = Done (set_class_probabilities_ st
                (<[Z.to_nat surfel_id := row']> (class_probabilities_ st)), ret)
    ∧ (f_ge max_prob (colour_threshold_ st) = true → ret = max_class)
    ∧ (f_ge max_prob (colour_threshold_ st) = false → ret = -1)
    ∧ (f_lt max_prob (colour_threshold_ st) = true → ret = -1)
    ∧ (ret ≠ -1 → 0 ≤ ret < num_classes_ st)
    ∧ ((max_prob = zero ∧ max_class = -1
        ∧ ∀ (c : nat) p, row' !! c = Some p → f_ge p zero = false)
       ∨ (0 ≤ max_class < num_classes_ st
          ∧ row' !! Z.to_nat max_class = Some max_prob
          ∧ ∀ (c : nat) p, row' !! c = Some p → is_nan p = false →
              f_le p max_prob = true))
    ∧ (num_classes_ st ≤ 2 ^ 20 →
       Forall (λ x, probability x = true) row →
       Forall (λ x, probability x = true) class_probs →
       is_zero (total (products row class_probs)) = false →
       0 ≤ max_class < num_classes_ st
       ∧ row' !! Z.to_nat max_class = Some max_prob
       ∧ ∀ (c : nat) p, row' !! c = Some p → f_le p max_prob = true).
Proof.
  intros Hid Hrow Hobs Hlen.
  destruct (UpdateSurfelProbabilities_done st surfel_id class_probs row
              Hid Hrow Hobs Hlen) as [Hfuse Hdone].
  set (r := running_max 0 (renormalised row class_probs) zero (-1)) in *.
  exists (renormalised row class_probs), r.1, r.2,
    (thresholded (colour_threshold_ st) r.1 r.2).
  destruct (fuse_row_argmax (num_classes_ st) row class_probs
              (renormalised row class_probs) r.1 r.2 Hlen Hobs Hfuse)
    as (_ & Hlen' & Hcase).
  split; [done|]. split; [done|]. split; [done|].
  unfold thresholded.
  split; [by intros ->|].
  split; [by intros ->|].
  split.
  { intros Hlt. change (f_lt r.1 (colour_threshold_ st))
      with (SFltb r.1 (colour_threshold_ st)) in Hlt.
    apply SFltb_SFleb in Hlt.
    change (f_ge r.1 (colour_threshold_ st)) with (SFleb (colour_threshold_ st) r.1).
    by rewrite Hlt. }
  split.
  { intros Hret. destruct (f_ge r.1 (colour_threshold_ st)); [|done].
    destruct Hcase as [(_ & Hminus & _)|(k & Hk & Hlk & _)]; [done|].
    apply lookup_lt_Some in Hlk. lia. }
  split.
  { destruct Hcase as [?|(k & Hk & Hlk & Hub & _)]; [by left|right].
    rewrite Hk, Nat2Z.id. split; [|done].
    apply lookup_lt_Some in Hlk. lia. }
  intros Hn Hprow Hpobs Hnz.
  destruct (fuse_row_argmax_numbers (num_classes_ st) row class_probs
              (renormalised row class_probs) r.1 r.2)
    as (k & Hk & Hlk & Hub & _); [done..|].
  rewrite Hk, Nat2Z.id. split; [|done].
  apply lookup_lt_Some in Hlk. lia.
Qed.
End fusion_argmax.

(** ** The table after the write-back *)

Section write_back_table.
Import Smoothing.
Context `{FloatOps F}.
Implicit Types (st : SemanticFusionInterface F) (tbl : list F).

Lemma length_write_back st resulting_probs tbl :
  length (write_back st resulting_probs tbl) = length tbl.
Proof. apply length_element_loop. Qed.

(** Every cell after the write-back, by its class [j] and its row [i]. *)
Lemma write_back_cells st resulting_probs tbl (i j : Z) :
  0 ≤ current_table_size_ st ≤ max_components_ st →
  Z.of_nat (length tbl) = num_classes_ st * max_components_ st →
  Z.of_nat (length resulting_probs) = current_table_size_ st * num_classes_ st →
  0 ≤ i < max_components_ st → 0 ≤ j < num_classes_ st →
  ∃ old, load tbl (j * max_components_ st + i) = Some old
    ∧ load (write_back st resulting_probs tbl) (j * max_components_ st + i)
      = Some (if decide (i < current_table_size_ st)
              then match load resulting_probs (i * num_classes_ st + j) with
                   | Some r => if accepted r then r else old
                   | None => old
                   end
              else old).
Proof.
  intros Hcts Htbl Hres Hi Hj.
  destruct (load_is_Some tbl (j * max_components_ st + i)) as [old Hold]; [nia|].
  exists old. split; [done|].
  unfold write_back, valid_ids. rewrite length_seqZ, Z2Nat.id by lia.
  destruct (decide (i < current_table_size_ st)) as [Hlive|Hdead].
  - destruct (load_is_Some resulting_probs (i * num_classes_ st + j))
      as [r Hr]; [nia|].
    rewrite Hr.
    apply element_loop_hit; [|apply NoDup_seqZ|apply elem_of_seqZ; lia|done..].
    intros i' Hi'%elem_of_seqZ. split; [|lia]. by rewrite load_seqZ by lia.
  - rewrite element_loop_frame; [done| |].
    + intros i' Hi'%elem_of_seqZ. by rewrite load_seqZ by lia.
    + intros i' j' Hi'%elem_of_seqZ Hj' Heq.
      apply cell_address_inj in Heq as [_ ?]; lia.
Qed.

(** Two tables of the same size with the same cells are the same. *)
Lemma table_ext (nc mc : Z) tbl tbl' :
  0 ≤ mc → Z.of_nat (length tbl) = nc * mc → length tbl' = length tbl →
  (∀ i j, 0 ≤ i < mc → 0 ≤ j < nc →
     load tbl' (j * mc + i) = load tbl (j * mc + i)) →
  tbl' = tbl.
Proof.
  intros Hmc0 Hlen Hlen' Hcells. apply list_eq. intros k.
  destruct (decide (k < length tbl)%nat) as [Hk|Hk].
  2:{ rewrite !lookup_ge_None_2 by lia. done. }
  assert (Hmc : 0 < mc).
  { destruct (decide (mc = 0)) as [->|]; [rewrite Z.mul_0_r in Hlen; lia|lia]. }
  specialize (Hcells (Z.of_nat k mod mc) (Z.of_nat k / mc)).
  rewrite (Z.mul_comm _ mc), <- Z.div_mod in Hcells by lia.
  unfold load in Hcells. rewrite !decide_True, Nat2Z.id in Hcells by lia.
  apply Hcells.
  - apply Z.mod_pos_bound. lia.
  - split; [apply Z.div_pos; lia|]. apply Z.div_lt_upper_bound; lia.
Qed.

(** X7. The write-back of the smoothing pass keeps the size of the table
    and leaves the rows at and beyond the logical width as they are: in a
    state with [current_table_size_ <= max_components_], a table of
    [num_classes_ * max_components_] cells and a result of
    [current_table_size_ * num_classes_] values, every cell of a row [id]
    with [current_table_size_ <= id < max_components_] is unchanged. *)
Theorem smoothing_touches_live_rows_only st resulting_probs prob_table :
  0 ≤ current_table_size_ st ≤ max_components_ st →
  Z.of_nat (length prob_table) = num_classes_ st * max_components_ st →
  Z.of_nat (length resulting_probs) = current_table_size_ st * num_classes_ st →
  length (write_back st resulting_probs prob_table) = length prob_table
  ∧ ∀ c id, 0 ≤ c < num_classes_ st →
      current_table_size_ st ≤ id < max_components_ st →
      load (write_back st resulting_probs prob_table) (c * max_components_ st + id)
      = load prob_table (c * max_components_ st + id).
Proof.
  intros Hcts Htbl Hres. split; [apply length_write_back|].
  intros c id Hc Hid.
  destruct (write_back_cells st resulting_probs prob_table id c)
    as (old & -> & ->); [done..|lia|done|].
  by rewrite decide_False by lia.
Qed.

(** X8. Writing the same inference result back twice gives the table that
    writing it back once gives. *)
Theorem smoothing_write_back_idempotent st resulting_probs prob_table :
  0 ≤ current_table_size_ st ≤ max_components_ st →
  Z.of_nat (length prob_table) = num_classes_ st * max_components_ st →
  Z.of_nat (length resulting_probs) = current_table_size_ st * num_classes_ st →
  write_back st resulting_probs (write_back st resulting_probs prob_table)
  = write_back st resulting_probs prob_table.
Proof.
  intros Hcts Htbl Hres.
  set (tbl1 := write_back st resulting_probs prob_table).
  assert (Hlen1 : Z.of_nat (length tbl1) = num_classes_ st * max_components_ st)
    by (subst tbl1; by rewrite length_write_back).
  apply (table_ext (num_classes_ st) (max_components_ st));
    [lia|done|apply length_write_back|].
  intros i j Hi Hj.
  destruct (write_back_cells st resulting_probs tbl1 i j)
    as (old1 & Hold1 & ->); [done..|].
  rewrite Hold1. f_equal.
  destruct (write_back_cells st resulting_probs prob_table i j)
    as (old & Hold & Hnew); [done..|].
  fold tbl1 in Hnew. rewrite Hold1 in Hnew. injection Hnew as ->.
  destruct (decide (i < current_table_size_ st)); [|done].
  destruct (load resulting_probs _) as [r|]; [|done].
  by destruct (accepted r).
Qed.

(** X9. An inference result without a value that the filter accepts
    (all of them NaN, say, or 0.0 and 1.0 only) leaves the whole table as
    it was. *)
Theorem smoothing_rejected_result_changes_nothing st resulting_probs prob_table :
  0 ≤ current_table_size_ st ≤ max_components_ st →
  Z.of_nat (length prob_table) = num_classes_ st * max_components_ st →
  Z.of_nat (length resulting_probs) = current_table_size_ st * num_classes_ st →
  Forall (λ r, accepted r = false) resulting_probs →
  write_back st resulting_probs prob_table = prob_table.
Proof.
  intros Hcts Htbl Hres Hrej.
  apply (table_ext (num_classes_ st) (max_components_ st));
    [lia|done|apply length_write_back|].
  intros i j Hi Hj.
  destruct (write_back_cells st resulting_probs prob_table i j)
    as (old & -> & ->); [done..|].
  f_equal. destruct (decide (i < current_table_size_ st)); [|done].
  destruct (load resulting_probs _) as [r|] eqn:Hr; [|done].
  unfold load in Hr. case_decide; [|done].
  apply list_elem_of_lookup_2 in Hr.
  by rewrite (proj1 (Forall_forall _ _) Hrej r Hr).
Qed.
End write_back_table.

(** ** The order of the patch in the argmax image *)

Section argmax_order.
Import Float32 ArgMax.
Implicit Types (cands : list (float32 * float32)).

Lemma SFltb_irrefl (x : float32) : SFltb x x = false.
Proof.
  destruct (SFltb x x) eqn:Hlt; [|done].
  apply SFltb_ord in Hlt as (_ & _ & Hlt). unfold lex_lt in Hlt. lia.
Qed.

Lemma SFleb_below x y z :
  SFltb x y = false → SFltb x z = true → SFleb z y = false.
Proof.
  intros Hxy Hxz. destruct (SFleb z y) eqn:Hle; [|done].
  apply SFltb_ord in Hxz as (? & ? & ?). apply SFleb_ord in Hle as (? & ? & ?).
  assert (SFltb x y = true); [|congruence].
  apply SFltb_ord. repeat split; try done. unfold lex_lt, lex_le in *. lia.
Qed.

(** The selection keeps the first of the greatest candidates: no earlier
    candidate reaches it, no candidate exceeds it. *)
Lemma select_first cands : ∀ (m0 : float32) (c0 : Z),
  let r := select cands (m0, c0) in
  (r = (m0, c0) ∧ ∀ pc, pc ∈ cands → SFltb m0 pc.1 = false)
  ∨ ∃ (k : nat) p c,
      cands !! k = Some (p, c) ∧ r = (p, to_int c) ∧ SFltb m0 p = true
      ∧ (∀ (j : nat) pc, (j < k)%nat → cands !! j = Some pc →
           SFleb p pc.1 = false)
      ∧ (∀ (j : nat) pc, cands !! j = Some pc → SFltb p pc.1 = false).
Proof.
  induction cands as [|[p1 c1] cands IH]; intros m0 c0; cbn zeta.
  - left. split; [done|]. by intros ? ?%elem_of_nil.
  - unfold select. cbn [foldl fst snd]. fold (select (F:=float32)).
    change (f_gt p1 m0) with (SFltb m0 p1).
    destruct (SFltb m0 p1) eqn:Hgt.
    + right.
      destruct (IH p1 (f_to_int c1))
        as [[Heq Hnone]|(k & p & c & Hk & Heq & Hlt & Hbefore & Hall)].
      * exists 0%nat, p1, c1. split; [done|]. split; [done|]. split; [done|].
        split; [intros; lia|].
        intros [|j] pc Hj; simpl in Hj.
        -- simplify_eq. apply SFltb_irrefl.
        -- apply Hnone. by eapply list_elem_of_lookup_2.
      * exists (S k), p, c. split; [done|]. split; [done|].
        split; [by eapply SFltb_trans|].
        split.
        -- intros [|j] pc Hjk Hj; simpl in Hj.
           ++ simplify_eq. cbn [fst]. by apply SFltb_SFleb.
           ++ apply (Hbefore j); [lia|done].
        -- intros [|j] pc Hj; simpl in Hj.
           ++ simplify_eq. cbn [fst].
              destruct (SFltb p p1) eqn:Hpp1; [|done].
              pose proof (SFltb_trans _ _ _ Hlt Hpp1) as Hc.
              by rewrite SFltb_irrefl in Hc.
           ++ by apply (Hall j).
    + destruct (IH m0 c0)
        as [[Heq Hnone]|(k & p & c & Hk & Heq & Hlt & Hbefore & Hall)].
      * left. split; [done|].
        intros pc [->|Hin]%elem_of_cons; [done|by apply Hnone].
      * right. exists (S k), p, c. split; [done|]. split; [done|].
        split; [done|]. split.
        -- intros [|j] pc Hjk Hj; simpl in Hj.
           ++ simplify_eq. cbn [fst]. by eapply SFleb_below.
           ++ apply (Hbefore j); [lia|done].
        -- intros [|j] pc Hj; simpl in Hj.
           ++ simplify_eq. cbn [fst].
              destruct (SFltb p p1) eqn:Hpp1; [|done].
              pose proof (SFltb_trans _ _ _ Hlt Hpp1). congruence.
           ++ by apply (Hall j).
Qed.

(** X10. In the argmax image a tie goes to the pixel of the patch that is
    visited first.  The patch of output pixel ([h], [w]) is visited in the
    order (2h, 2w), (2h+1, 2w), (2h, 2w+1), (2h+1, 2w+1) of (row, column)
    in the identity raster; [candidates] lists the cached summaries of its
    valid identifiers in that order.  When one of them has a probability
    above 0.0, the emitted class is that of a candidate which no earlier
    candidate reaches and no candidate exceeds. *)
Theorem argmax_export_prefers_first_visited
    (st : SemanticFusionInterface float32) (surfel_ids : list Z) (h w : Z) :
  0 ≤ h < 240 → 0 ≤ w < 320 →
  Z.of_nat (length surfel_ids) = 640 * 480 →
  0 ≤ current_table_size_ st ≤ max_components_ st →
  Z.of_nat (length (data (class_max_gpu_ st))) = 2 * max_components_ st →
  let cands := candidates st surfel_ids h w in
  Some <$> patch_ids surfel_ids h w
  = [load surfel_ids (2 * h * 640 + 2 * w);
     load surfel_ids ((2 * h + 1) * 640 + 2 * w);
     load surfel_ids (2 * h * 640 + (2 * w + 1));
     load surfel_ids ((2 * h + 1) * 640 + (2 * w + 1))]
  ∧ ((∃ pc, pc ∈ cands ∧ f_gt pc.1 zero = true) →
     ∃ (k : nat) p cls,
       cands !! k = Some (p, cls)
       ∧ pixel_class st surfel_ids h w = f_to_int cls
       ∧ (∀ (j : nat) pc, (j < k)%nat → cands !! j = Some pc →
            f_ge pc.1 p = false)
       ∧ (∀ (j : nat) pc, cands !! j = Some pc → f_gt pc.1 p = false)).
Proof.
  intros Hh Hw Hlen Hcts Hbuf. cbn zeta.
  split.
  { unfold patch_ids. cbn [omap list_omap]. unfold raster_at. cbn [fst snd].
    destruct (load_is_Some surfel_ids ((h * 2 + 0) * 640 + (w * 2 + 0)))
      as [a Ha]; [lia|].
    destruct (load_is_Some surfel_ids ((h * 2 + 1) * 640 + (w * 2 + 0)))
      as [b Hb]; [lia|].
    destruct (load_is_Some surfel_ids ((h * 2 + 0) * 640 + (w * 2 + 1)))
      as [c Hc]; [lia|].
    destruct (load_is_Some surfel_ids ((h * 2 + 1) * 640 + (w * 2 + 1)))
      as [d Hd]; [lia|].
    replace (2 * h * 640 + 2 * w) with ((h * 2 + 0) * 640 + (w * 2 + 0)) by lia.
    replace ((2 * h + 1) * 640 + 2 * w)
      with ((h * 2 + 1) * 640 + (w * 2 + 0)) by lia.
    replace (2 * h * 640 + (2 * w + 1))
      with ((h * 2 + 0) * 640 + (w * 2 + 1)) by lia.
    replace ((2 * h + 1) * 640 + (2 * w + 1))
      with ((h * 2 + 1) * 640 + (w * 2 + 1)) by lia.
    by rewrite Ha, Hb, Hc, Hd. }
  intros (pc0 & Hin0 & Hgt0).
  rewrite pixel_class_select. change f_zero with zero.
  destruct (select_first (candidates st surfel_ids h w) zero 0)
    as [[_ Hnone]|(k & p & c & Hk & Heq & _ & Hbefore & Hall)].
  - specialize (Hnone pc0 Hin0).
    change (f_gt pc0.1 zero) with (SFltb zero pc0.1) in Hgt0. congruence.
  - exists k, p, c. rewrite Heq. done.
Qed.
End argmax_order.

(** ** The colour file: header, bad ids and short rows *)

Section colour_scheme_edges.
Import ColourScheme ColourFile.
Variable default_colour : ClassColour.
Variable num_classes : Z.
Implicit Types (lines : list string) (v : list ClassColour).

Local Abbreviation LF := (String "010"%char EmptyString).

Lemma getlines_line l : ∀ line s,
  one_line l = true →
  ∃ x, getlines (l +:+ String "010" s) line = x :: getlines s EmptyString.
Proof.
  induction l as [|c l IH]; intros line s Hl; simpl in *.
  - by eexists.
  - apply andb_prop in Hl as [Hc Hl]. apply negb_true_iff in Hc.
    rewrite Hc. by apply IH.
Qed.

Lemma getlines_last l : ∀ line,
  one_line l = true → (length (getlines l line) ≤ 1)%nat.
Proof.
  induction l as [|c l IH]; intros line Hl; simpl in *.
  - destruct line; simpl; lia.
  - apply andb_prop in Hl as [Hc Hl]. apply negb_true_iff in Hc.
    rewrite Hc. by apply IH.
Qed.

Lemma line_feed_app s : LF +:+ s = String "010" s.
Proof. reflexivity. Qed.

Lemma app_empty s : s +:+ EmptyString = s.
Proof.
  induction s as [|c s IH]; [done|].
  change (String c (s +:+ EmptyString) = String c s). by rewrite IH.
Qed.

Lemma getlines_header l1 l2 rest :
  one_line l1 = true → one_line l2 = true →
  drop 2 (getlines (l1 +:+ LF +:+ l2 +:+ LF +:+ rest) EmptyString)
  = getlines rest EmptyString.
Proof.
  intros H1 H2. rewrite !line_feed_app.
  destruct (getlines_line l1 EmptyString (l2 +:+ String "010" rest) H1) as [x ->].
  destruct (getlines_line l2 EmptyString rest H2) as [y ->].
  done.
Qed.

(** X11. The loader skips the first two lines, whatever they hold: two
    files that differ in their first two lines only give the same result;
    and a file of two lines or fewer gives [num_classes] default
    colours. *)
Theorem colour_scheme_ignores_header (l1 l2 l1' l2' rest : string) :
  one_line l1 = true → one_line l2 = true →
  one_line l1' = true → one_line l2' = true →
  load_colour_scheme_ default_colour (l1 +:+ LF +:+ l2 +:+ LF +:+ rest) num_classes
  = load_colour_scheme_ default_colour (l1' +:+ LF +:+ l2' +:+ LF +:+ rest) num_classes
  ∧ (0 ≤ num_classes →
     load_colour_scheme_ default_colour (l1 +:+ LF +:+ l2 +:+ LF) num_classes
     = Done (replicate (Z.to_nat num_classes) default_colour)
     ∧ load_colour_scheme_ default_colour (l1 +:+ LF +:+ l2) num_classes
       = Done (replicate (Z.to_nat num_classes) default_colour)
     ∧ load_colour_scheme_ default_colour l1 num_classes
       = Done (replicate (Z.to_nat num_classes) default_colour)).
Proof.
  intros H1 H2 H1' H2'. unfold load_colour_scheme_.
  split.
  - destruct (decide (0 ≤ num_classes)); [|done].
    by rewrite !read_lines_header, !getlines_header.
  - intros Hn. rewrite !decide_True by done. rewrite !read_lines_header.
    split; [|split].
    + rewrite <- (app_empty LF) at 2. by rewrite getlines_header.
    + rewrite line_feed_app.
      destruct (getlines_line l1 EmptyString l2 H1) as [x ->].
      pose proof (getlines_last l2 EmptyString H2).
      destruct (getlines l2 EmptyString) as [|? [|? ?]]; simpl in *; try done; lia.
    + pose proof (getlines_last l1 EmptyString H1).
      destruct (getlines l1 EmptyString) as [|? [|? ?]]; simpl in *; try done; lia.
Qed.

Lemma read_lines_negative lines : ∀ line_number v k n id r g b,
  line_number > 2 →
  Forall (well_formed num_classes) (take k (parse_line <$> lines)) →
  (parse_line <$> lines) !! k = Some (n, Some id, Some r, Some g, Some b) →
  id < 0 → id < num_classes →
  read_lines num_classes lines line_number v = Undefined.
Proof.
  induction lines as [|str lines IH]; intros ln v k n id r g b Hln Hwf Hk Hid Hnc;
    [done|].
  rewrite fmap_cons in Hwf, Hk. cbn [read_lines]. rewrite decide_True by lia.
  destruct k as [|k].
  - simpl in Hk. simplify_eq. rewrite Hk.
    rewrite decide_True by lia. by rewrite decide_False by lia.
  - simpl in Hk. cbn [take] in Hwf. apply Forall_cons in Hwf as [Hrow Hwf].
    destruct Hrow as (n' & id' & r' & g' & b' & -> & Hid').
    rewrite !decide_True by lia.
    eapply IH; [lia|done..].
Qed.

Lemma read_lines_incomplete lines : ∀ line_number v k row,
  line_number > 2 →
  Forall (well_formed num_classes) (take k (parse_line <$> lines)) →
  (parse_line <$> lines) !! k = Some row →
  incomplete row →
  read_lines num_classes lines line_number v = Undefined.
Proof.
  induction lines as [|str lines IH]; intros ln v k row Hln Hwf Hk Hinc;
    [done|].
  rewrite fmap_cons in Hwf, Hk. cbn [read_lines]. rewrite decide_True by lia.
  destruct k as [|k].
  - simpl in Hk. simplify_eq.
    destruct (parse_line str) as [[[[n id] r] g] b].
    unfold incomplete in Hinc. cbn in Hinc.
    destruct id, r, g, b; try done; by destruct Hinc as [?|[?|[?|?]]].
  - simpl in Hk. cbn [take] in Hwf. apply Forall_cons in Hwf as [Hrow Hwf].
    destruct Hrow as (n' & id' & r' & g' & b' & -> & Hid').
    rewrite !decide_True by lia.
    eapply IH; [lia|done..].
Qed.

Lemma skipws_blank s : blank s = true → skipws s = EmptyString.
Proof.
  induction s as [|c s IH]; [done|]. simpl.
  intros [Hc Hs]%andb_prop. rewrite Hc. by apply IH.
Qed.

Lemma parse_line_blank s :
  blank s = true → parse_line s = (EmptyString, None, None, None, None).
Proof.
  intros Hs. unfold parse_line, extract_string, extract_int, sentry. cbn.
  by rewrite skipws_blank.
Qed.

(** X12. A negative id passes the assertion [id < num_classes]: after rows
    that are in order, a row read in full whose id is negative makes the
    loader write outside the vector, which is undefined behaviour. *)
Theorem colour_scheme_negative_id (content : string) (k : nat) n id r g b :
  0 ≤ num_classes →
  Forall (well_formed num_classes) (take k (rows content)) →
  rows content !! k = Some (n, Some id, Some r, Some g, Some b) →
  id < 0 →
  load_colour_scheme_ default_colour content num_classes = Undefined.
Proof.
  intros Hnc Hwf Hk Hid. unfold load_colour_scheme_, rows in *.
  rewrite decide_True by done. rewrite read_lines_header.
  eapply read_lines_negative; [lia|done..|lia].
Qed.

(** X13. A row with a missing field makes the loader use an integer that
    was never assigned: after rows that are in order, a row in which one
    of id, r, g and b was not read is undefined behaviour.  A blank line
    after the header is such a row. *)
Theorem colour_scheme_incomplete_row (content : string) (k : nat) :
  0 ≤ num_classes →
  Forall (well_formed num_classes) (take k (rows content)) →
  (∀ row, rows content !! k = Some row → incomplete row →
     load_colour_scheme_ default_colour content num_classes = Undefined)
  ∧ (∀ line, getlines content EmptyString !! (2 + k)%nat = Some line →
       blank line = true →
       load_colour_scheme_ default_colour content num_classes = Undefined).
Proof.
  intros Hnc Hwf.
  assert (Hrow : ∀ row, rows content !! k = Some row → incomplete row →
            load_colour_scheme_ default_colour content num_classes = Undefined).
  { intros row Hk Hinc. unfold load_colour_scheme_, rows in *.
    rewrite decide_True by done. rewrite read_lines_header.
    eapply read_lines_incomplete; [lia|done..]. }
  split; [done|].
  intros line Hline Hblank.
  apply (Hrow (EmptyString, None, None, None, None)).
  - unfold rows. rewrite list_lookup_fmap, lookup_drop, Hline. simpl.
    by rewrite parse_line_blank.
  - by left.
Qed.
End colour_scheme_edges.

(** ** The hash of a pair *)

Section pair_hash.
Import PairHash.
Variable size_bits : Z.
Hypothesis size_bits_pos : 0 < size_bits.

Local Abbreviation word z := (0 ≤ z < 2 ^ size_bits).

Lemma wrap_word z : word (wrap size_bits z).
Proof. apply Z.mod_pos_bound. by apply Z.pow_pos_nonneg; lia. Qed.

Lemma lxor_word a b : word a → word b → word (Z.lxor a b).
Proof.
  intros [Ha Ha'] [Hb Hb']. split; [by apply Z.lxor_nonneg|].
  destruct (decide (Z.lxor a b = 0)) as [->|Hne]; [lia|].
  assert (0 < Z.lxor a b) by (pose proof (proj2 (Z.lxor_nonneg a b)); lia).
  apply Z.log2_lt_pow2; [done|].
  eapply Z.le_lt_trans; [by apply Z.log2_lxor|].
  apply Z.max_lub_lt.
  - destruct (decide (a = 0)) as [->|]; [simpl; lia|]. apply Z.log2_lt_pow2; lia.
  - destruct (decide (b = 0)) as [->|]; [simpl; lia|]. apply Z.log2_lt_pow2; lia.
Qed.

Lemma my_hash_combine_word {T} (hasher : T → Z) seed v :
  word seed → word (my_hash_combine size_bits hasher seed v).
Proof. intros Hs. apply lxor_word; [done|apply wrap_word]. Qed.

Lemma wrap_add_inj a b k :
  word a → word b → wrap size_bits (a + k) = wrap size_bits (b + k) → a = b.
Proof.
  unfold wrap. intros Ha Hb Heq.
  assert (Hm : 0 < 2 ^ size_bits) by (apply Z.pow_pos_nonneg; lia).
  assert (Hd : ((a + k) - (b + k)) mod 2 ^ size_bits = 0).
  { rewrite Zminus_mod, Heq, Z.sub_diag. by apply Z.mod_0_l, Z.neq_sym, Z.lt_neq. }
  apply Z.mod_divide in Hd as [q Hq]; [|lia].
  assert (q = 0) by nia. lia.
Qed.

Lemma combine_sum (h s6 s2 : Z) :
  wrap size_bits
    (wrap size_bits (wrap size_bits (h + 0x9e3779b9) + wrap size_bits s6) + s2)
  = wrap size_bits (h + (0x9e3779b9 + (wrap size_bits s6 + s2))).
Proof.
  unfold wrap.
  rewrite (Zplus_mod_idemp_l
             ((h + 0x9e3779b9) mod 2 ^ size_bits + s6 mod 2 ^ size_bits)).
  rewrite <- (Z.add_assoc ((h + 0x9e3779b9) mod 2 ^ size_bits)).
  rewrite (Zplus_mod_idemp_l (h + 0x9e3779b9)).
  by rewrite <- Z.add_assoc.
Qed.

(** For one seed, two values are combined to the same result only when
    their hashes are the same. *)
Lemma my_hash_combine_inj {T} (hasher : T → Z) seed v w :
  word (hasher v) → word (hasher w) →
  my_hash_combine size_bits hasher seed v = my_hash_combine size_bits hasher seed w →
  hasher v = hasher w.
Proof.
  intros Hv Hw Heq. unfold my_hash_combine in Heq.
  apply (f_equal (Z.lxor seed)) in Heq.
  rewrite <- !Z.lxor_assoc, Z.lxor_nilpotent, !Z.lxor_0_l in Heq.
  rewrite !combine_sum in Heq.
  by eapply wrap_add_inj.
Qed.

(** X14. The hash of a pair is a [std::size_t], and combining adds no
    collision in the second component: two pairs with the same first
    component have the same hash exactly when the hashes of their second
    components are the same.  The component hashes are values of
    [std::size_t]. *)
Theorem pair_hash_collides_with_its_parts {S T}
    (hash_first : S → Z) (hash_second : T → Z) :
  (∀ a, word (hash_first a)) → (∀ b, word (hash_second b)) →
  (∀ v, word (hash_pair size_bits hash_first hash_second v))
  ∧ (∀ a b b',
       hash_pair size_bits hash_first hash_second (a, b)
       = hash_pair size_bits hash_first hash_second (a, b')
       ↔ hash_second b = hash_second b').
Proof.
  intros H1 H2. split.
  - intros v. unfold hash_pair. cbn zeta.
    apply my_hash_combine_word, my_hash_combine_word.
    split; [done|apply Z.pow_pos_nonneg; lia].
  - intros a b b'. split.
    + intros Heq. unfold hash_pair in Heq. cbn [fst snd] in Heq.
      by eapply my_hash_combine_inj.
    + intros Hb. unfold hash_pair, my_hash_combine. cbn [fst snd].
      by rewrite Hb.
Qed.
End pair_hash.

(** ** The run of [main_1] *)

Section main_loop.
Import ColourScheme Main.
Variable colour_file : string.
Variable default_colour : ClassColour.
Variable argv : list string.
Variable init_ok : bool.
Variable process_frame : Z → bool.

Local Abbreviation tracked_frame := (before_tracking ++ after_tracking true).

(** The loop from frame [i] on, when the frames before [k] are tracked
    and frame [k], if it is one of those to come, is lost. *)
Lemma frames_until_loss argv1 (n : nat) : ∀ (i k : Z),
  i ≤ k ≤ i + Z.of_nat n →
  (∀ j, i ≤ j < k → process_frame j = true) →
  (k < i + Z.of_nat n → process_frame k = false) →
  frames process_frame argv1 (seqZ i (Z.of_nat n))
  = Done (mjoin (replicate (Z.to_nat (k - i)) tracked_frame)
          ++ (if decide (k < i + Z.of_nat n)
              then before_tracking ++ after_loss argv1 else []),
          if decide (k < i + Z.of_nat n) then 1 else 0).
Proof.
  induction n as [|n IH]; intros i k Hk Hok Hlost.
  - replace (k - i) with 0 by lia. rewrite !decide_False by lia. reflexivity.
  - rewrite Nat2Z.inj_succ, seqZ_cons by lia. cbn [frames].
    destruct (decide (k = i)) as [->|Hne].
    + rewrite Hlost by lia. rewrite Z.sub_diag. rewrite !decide_True by lia. done.
    + rewrite Hok by lia. cbn.
      replace (Z.pred (Z.succ (Z.of_nat n))) with (Z.of_nat n) by lia.
      rewrite (IH (Z.succ i) k);
        [|lia|intros; apply Hok; lia|intros; apply Hlost; lia].
      replace (Z.to_nat (k - i)) with (S (Z.to_nat (k - Z.succ i))) by lia.
      cbn [replicate mjoin list_join].
      destruct (decide (k < Z.succ i + Z.of_nat n));
        [rewrite !decide_True by lia|rewrite !decide_False by lia];
        by rewrite <- !app_assoc.
Qed.

(** X15. [main_1] stops at the first lost frame.  With a colour file that
    the loader accepts and at least three program arguments, let [k] be
    the first of the frames 0, ..., 9 that [ProcessFrame] loses, or 10 when
    none is lost.  Then [main_1] returns, and what is seen is the start-up,
    [k] frames that each run [getNext], [getMasks], [setTrackingOnly(false)],
    [ProcessFrame], [UpdateObjectTable], [getNumMasks] and
    [UpdateObjectIds] in this order, and, when a frame is lost, that frame
    up to [ProcessFrame] and the message; the value returned is 1 when a
    frame is lost and 0 otherwise.  The remainder by [cnn_skip_frames] is
    never taken. *)
Theorem main_1_stops_at_the_first_lost_frame lookup argv1 argv2 (k : Z) :
  load_colour_scheme_ default_colour colour_file 14 = Done lookup →
  argv !! 1%nat = Some argv1 → argv !! 2%nat = Some argv2 →
  0 ≤ k ≤ 10 →
  (∀ j, 0 ≤ j < k → process_frame j = true) →
  (k < 10 → process_frame k = false) →
  main_1 colour_file default_colour argv init_ok process_frame
  = Done (start_up init_ok lookup argv1 argv2
          ++ mjoin (replicate (Z.to_nat k) tracked_frame)
          ++ (if decide (k < 10) then before_tracking ++ after_loss argv1 else []),
          if decide (k < 10) then 1 else 0).
Proof.
  intros Hload H1 H2 Hk Hok Hlost. unfold main_1.
  change num_classes with 14. rewrite Hload, H1, H2.
  change 10 with (Z.of_nat 10) at 1.
  rewrite (frames_until_loss argv1 10 0 k); [|lia|done|done].
  rewrite Z.sub_0_r. change (0 + Z.of_nat 10) with 10. done.
Qed.
End main_loop.

(** ** The colour lookup of the Gui *)

Section gui_colours.
Import ColourScheme Gui.

Lemma push_back_loop `{FloatOps F} (lookup : list ClassColour) : ∀ acc : list F,
  foldl (λ rgb colour,
           ((rgb ++ [normalised (r colour)]) ++ [normalised (g colour)])
             ++ [normalised (b colour)])
    acc lookup
  = acc ++ (lookup ≫= λ c, [normalised (r c); normalised (g c); normalised (b c)]).
Proof.
  induction lookup as [|c lookup IH]; intros acc; simpl.
  - by rewrite app_nil_r.
  - rewrite IH. by rewrite <- !app_assoc.
Qed.

Lemma class_colour_lookup_rgb_flat `{FloatOps F} (lookup : list ClassColour) :
  class_colour_lookup_rgb lookup
  = lookup ≫= λ c, [normalised (r c); normalised (g c); normalised (b c)].
Proof. unfold class_colour_lookup_rgb. by rewrite push_back_loop. Qed.

Lemma lookup_triples {A B} (f : A → B * B * B) (l : list A) (i : nat) x :
  l !! i = Some x →
  let flat := l ≫= λ a, [(f a).1.1; (f a).1.2; (f a).2] in
  flat !! (3 * i)%nat = Some (f x).1.1
  ∧ flat !! (3 * i + 1)%nat = Some (f x).1.2
  ∧ flat !! (3 * i + 2)%nat = Some (f x).2.
Proof.
  revert i. induction l as [|a l IH]; intros i Hi; [done|].
  destruct i as [|i]; simpl in Hi.
  - simplify_eq. done.
  - cbn zeta. rewrite bind_cons.
    replace (3 * S i)%nat with (3 + 3 * i)%nat by lia.
    replace (3 + 3 * i + 1)%nat with (3 + (3 * i + 1))%nat by lia.
    replace (3 + 3 * i + 2)%nat with (3 + (3 * i + 2))%nat by lia.
    cbn [app lookup]. by apply IH.
Qed.

Import Float32.

(** The 256 values of a colour component, one by one. *)
Lemma normalised_range :
  Forall (λ x, SFleb zero (normalised (F:=float32) x) = true
               ∧ SFleb (normalised (F:=float32) x) one = true
               ∧ (x < 255 → SFltb (normalised (F:=float32) x)
                               (normalised (F:=float32) (x + 1)) = true))
    (seqZ 0 256).
Proof.
  apply Forall_forall. intros x Hx%elem_of_seqZ.
  assert (Hall : forallb (λ x, SFleb zero (normalised (F:=float32) x)
                    && SFleb (normalised (F:=float32) x) one
                    && (bool_decide (x = 255)
                        || SFltb (normalised (F:=float32) x)
                             (normalised (F:=float32) (x + 1))))
                   (seqZ 0 256) = true) by (vm_compute; reflexivity).
  rewrite forallb_forall in Hall.
  specialize (Hall x). rewrite <- list_elem_of_In, elem_of_seqZ in Hall.
  specialize (Hall Hx).
  apply andb_prop in Hall as [[H1 H2]%andb_prop H3].
  split; [done|]. split; [done|]. intros Hlt.
  apply orb_prop in H3 as [H3|H3]; [|done].
  apply bool_decide_eq_true in H3. lia.
Qed.

Lemma normalised_mono (x y : Z) :
  0 ≤ x → x < y → y ≤ 255 →
  SFltb (normalised (F:=float32) x) (normalised (F:=float32) y) = true.
Proof.
  intros Hx Hxy Hy.
  replace y with (x + 1 + Z.of_nat (Z.to_nat (y - x - 1))) by lia.
  assert (Hn : x + 1 + Z.of_nat (Z.to_nat (y - x - 1)) ≤ 255) by lia.
  revert Hn. generalize (Z.to_nat (y - x - 1)) as n. clear y Hxy Hy.
  induction n as [|n IH]; intros Hn.
  - rewrite Z.add_0_r.
    pose proof normalised_range as Hr. rewrite Forall_forall in Hr.
    destruct (Hr x) as (_ & _ & Hs); [apply elem_of_seqZ; lia|]. apply Hs. lia.
  - eapply SFltb_trans; [apply IH; lia|].
    pose proof normalised_range as Hr. rewrite Forall_forall in Hr.
    destruct (Hr (x + 1 + Z.of_nat n)) as (_ & _ & Hs); [apply elem_of_seqZ; lia|].
    replace (x + 1 + Z.of_nat (S n)) with (x + 1 + Z.of_nat n + 1) by lia.
    apply Hs. lia.
Qed.

(** X16. The colour lookup that the Gui hands to the GPU holds three
    values for every class: the entries [3 id], [3 id + 1] and [3 id + 2]
    are the components r, g and b of class [id], each divided by 255 in
    [float].  The division maps 0 to 0.0 and 255 to 1.0, keeps every
    component within 0, ..., 255 between 0.0 and 1.0, and keeps different
    components apart. *)
Theorem gui_colour_lookup_is_normalised (lookup : list ClassColour) :
  let rgb := class_colour_lookup_rgb (F:=float32) lookup in
  length rgb = (3 * length lookup)%nat
  ∧ (∀ (class_id : nat) c, lookup !! class_id = Some c →
       rgb !! (3 * class_id)%nat = Some (normalised (r c))
       ∧ rgb !! (3 * class_id + 1)%nat = Some (normalised (g c))
       ∧ rgb !! (3 * class_id + 2)%nat = Some (normalised (b c)))
  ∧ normalised (F:=float32) 0 = zero
  ∧ normalised (F:=float32) 255 = one
  ∧ (∀ x y, 0 ≤ x → x < y → y ≤ 255 →
       f_le zero (normalised (F:=float32) x) = true
       ∧ f_lt (normalised (F:=float32) x) (normalised (F:=float32) y) = true
       ∧ f_le (normalised (F:=float32) y) one = true).
Proof.
  cbn zeta. rewrite class_colour_lookup_rgb_flat.
  split.
  { induction lookup as [|c lookup IH]; [done|].
    rewrite bind_cons, length_app, IH. simpl. lia. }
  split.
  { intros class_id c Hc.
    exact (lookup_triples
             (λ c, (normalised (r c), normalised (g c), normalised (b c)))
             lookup class_id c Hc). }
  split; [reflexivity|]. split; [reflexivity|].
  intros x y Hx Hxy Hy.
  pose proof normalised_range as Hr. rewrite Forall_forall in Hr.
  destruct (Hr x) as (Hx0 & _ & _); [apply elem_of_seqZ; lia|].
  destruct (Hr y) as (_ & Hy1 & _); [apply elem_of_seqZ; lia|].
  split; [done|]. split; [by apply normalised_mono|done].
Qed.
End gui_colours.

(** ** Loops over a buffer *)

Section loops.
Context {State : Type}.
Implicit Types (ks : list Z) (body : Z → State → outcome State).

(** A loop whose body neither throws nor fails an assertion does
    neither. *)
Lemma for_each_outcome ks body :
  (∀ k s, k ∈ ks → body k s = Undefined ∨ ∃ s', body k s = Done s') →
  ∀ s, for_each ks body s = Undefined ∨ ∃ s', for_each ks body s = Done s'.
Proof.
  induction ks as [|k ks IH]; intros Hbody s; cbn [for_each].
  - right. by eexists.
  - destruct (Hbody k s) as [->|[s' ->]]; [apply list_elem_of_here|by left|].
    cbn. apply IH. intros k' s'' Hk'. apply Hbody. by apply list_elem_of_further.
Qed.

(** In a loop that ends, every iteration has ended. *)
Lemma for_each_Done_inv (I : State → Prop) ks body s s' :
  (∀ k s1 s2, k ∈ ks → I s1 → body k s1 = Done s2 → I s2) →
  I s → for_each ks body s = Done s' →
  I s' ∧ ∀ k, k ∈ ks → ∃ s1 s2, I s1 ∧ body k s1 = Done s2.
Proof.
  revert s. induction ks as [|k ks IH]; intros s Hinv Hs Hdone; cbn [for_each] in Hdone.
  - injection Hdone as <-. split; [done|]. by intros k ?%elem_of_nil.
  - destruct (body k s) as [s1| | |] eqn:Hk; try done. cbn in Hdone.
    destruct (IH s1) as [Hs' Hall]; [|by eapply Hinv; [apply list_elem_of_here|..]|done|].
    { intros k' t1 t2 Hk'. apply Hinv. by apply list_elem_of_further. }
    split; [done|]. intros k' [->|Hk']%elem_of_cons; [by exists s, s1|by apply Hall].
Qed.
End loops.

Section pointwise.
Context {A : Type} (P : A → Prop).
Implicit Types (s : list A) (φ : Z → A → A) (n : nat).

Lemma put_eq k (x p : A) : put k x k p = x.
Proof. unfold put. by rewrite decide_True. Qed.

Lemma put_ne k j (x p : A) : j ≠ k → put k x j p = p.
Proof. intros. unfold put. by rewrite decide_False. Qed.

Lemma update_eq k (f : A → A) p : update k f k p = f p.
Proof. unfold update. by rewrite decide_True. Qed.

Lemma update_ne k j (f : A → A) p : j ≠ k → update k f j p = p.
Proof. intros. unfold update. by rewrite decide_False. Qed.

Lemma acts_write k x n :
  0 ≤ k < Z.of_nat n → P x → acts P (λ s, write s k x) (put k x) n.
Proof.
  intros Hk Hx s Hlen Hs. exists (store s k x). unfold write.
  rewrite decide_True by lia. split; [done|].
  split; [by rewrite length_store|]. split.
  { unfold store. case_decide; [|done]. by apply Forall_insert. }
  intros j. destruct (decide (j = k)) as [->|Hne].
  - rewrite load_store_eq by lia.
    destruct (load_is_Some s k) as [p ->]; [lia|]. cbn. by rewrite put_eq.
  - rewrite load_store_ne by done. destruct (load s j); [|done].
    cbn. by rewrite put_ne.
Qed.

Lemma acts_update k (f : A → A) n :
  0 ≤ k < Z.of_nat n → (∀ p, P p → P (f p)) →
  acts P (λ s, p ← read s k; write s k (f p)) (update k f) n.
Proof.
  intros Hk Hf s Hlen Hs.
  destruct (load_is_Some s k) as [p Hp]; [lia|].
  assert (HPp : P p).
  { unfold load in Hp. case_decide; [|done].
    eapply Forall_forall; [exact Hs|]. by eapply list_elem_of_lookup_2. }
  exists (store s k (f p)). unfold read, write. rewrite Hp. cbn.
  rewrite decide_True by lia. split; [done|].
  split; [by rewrite length_store|]. split.
  { unfold store. case_decide; [|done]. apply Forall_insert; [done|by apply Hf]. }
  intros j. destruct (decide (j = k)) as [->|Hne].
  - rewrite load_store_eq by lia. rewrite Hp. cbn. by rewrite update_eq.
  - rewrite load_store_ne by done. destruct (load s j); [|done].
    cbn. by rewrite update_ne.
Qed.

Lemma acts_bind (b1 b2 : list A → outcome (list A)) φ1 φ2 n :
  acts P b1 φ1 n → acts P b2 φ2 n →
  acts P (λ s, s1 ← b1 s; b2 s1) (λ j p, φ2 j (φ1 j p)) n.
Proof.
  intros H1 H2 s Hlen Hs.
  destruct (H1 s Hlen Hs) as (s1 & -> & Hlen1 & Hs1 & Hload1).
  destruct (H2 s1 Hlen1 Hs1) as (s2 & Hb2 & Hlen2 & Hs2 & Hload2).
  exists s2. cbn. split; [done|]. split; [done|]. split; [done|].
  intros j. rewrite Hload2, Hload1. by destruct (load s j).
Qed.

Lemma acts_for_each ks (body : Z → list A → outcome (list A))
    (φ : Z → Z → A → A) n :
  (∀ k, k ∈ ks → acts P (body k) (φ k) n) →
  acts P (for_each ks body) (over ks φ) n.
Proof.
  unfold over.
  induction ks as [|k ks IH]; intros Hbody s Hlen Hs; cbn [for_each foldl].
  - exists s. split; [done|]. split; [done|]. split; [done|].
    intros j. by destruct (load s j).
  - destruct (Hbody k (list_elem_of_here _ _) s Hlen Hs)
      as (s1 & -> & Hlen1 & Hs1 & Hload1).
    destruct (IH (λ k' Hk', Hbody k' (list_elem_of_further _ _ _ Hk')) s1 Hlen1 Hs1)
      as (s2 & Hrest & Hlen2 & Hs2 & Hload2).
    exists s2. cbn. split; [done|]. split; [done|]. split; [done|].
    intros j. rewrite Hload2, Hload1. by destruct (load s j).
Qed.

Lemma acts_ext (b b' : list A → outcome (list A)) φ φ' n :
  acts P b φ n →
  (∀ s, b' s = b s) →
  (∀ j p, 0 ≤ j < Z.of_nat n → P p → φ' j p = φ j p) →
  acts P b' φ' n.
Proof.
  intros Hb Hbody Hφ s Hlen Hs.
  destruct (Hb s Hlen Hs) as (s' & Hdone & Hlen' & Hs' & Hload).
  exists s'. rewrite Hbody. split; [done|]. split; [done|]. split; [done|].
  intros j. rewrite Hload. destruct (load s j) as [p|] eqn:Hp; [|done].
  cbn. f_equal. symmetry. apply Hφ.
  - unfold load in Hp. case_decide; [|done].
    apply lookup_lt_Some in Hp. lia.
  - unfold load in Hp. case_decide; [|done].
    eapply Forall_forall; [exact Hs|]. by eapply list_elem_of_lookup_2.
Qed.

Lemma over_cons k ks (φ : Z → Z → A → A) j p :
  over (k :: ks) φ j p = over ks φ j (φ k j p).
Proof. done. Qed.

(** A loop of which no iteration, or one, touches the cell. *)
Lemma over_id ks (φ : Z → Z → A → A) j p :
  (∀ k q, k ∈ ks → φ k j q = q) → over ks φ j p = p.
Proof.
  unfold over. induction ks as [|k ks IH]; intros Hid; [done|]. cbn [foldl].
  rewrite Hid by apply list_elem_of_here.
  apply IH. intros k' q Hk'. apply Hid. by apply list_elem_of_further.
Qed.

Lemma over_single ks (φ : Z → Z → A → A) k0 j p :
  NoDup ks → k0 ∈ ks →
  (∀ k q, k ∈ ks → k ≠ k0 → φ k j q = q) →
  over ks φ j p = φ k0 j p.
Proof.
  induction ks as [|k ks IH]; intros Hnd Hin Hid; [by apply elem_of_nil in Hin|].
  apply NoDup_cons in Hnd as [Hk Hnd]. unfold over. cbn [foldl].
  destruct (decide (k = k0)) as [->|Hne].
  - apply (over_id ks φ). intros k q Hk'. apply Hid; [by apply list_elem_of_further|].
    intros ->. done.
  - rewrite Hid by (done || apply list_elem_of_here).
    apply IH; [done| |].
    + apply elem_of_cons in Hin as [?|?]; [congruence|done].
    + intros k' q Hk'. apply Hid. by apply list_elem_of_further.
Qed.
End pointwise.

(** ** The images of the display *)

Section display_images.
Import ColourScheme Float32 Display.
Implicit Types (rgb input_image : list Z).
Implicit Types (obj_data image_data : list float32) (height width : Z).

Lemma clone_Done rgb height width :
  0 ≤ height → 0 ≤ width → height * width * 3 ≤ Z.of_nat (length rgb) →
  ∃ input_image,
    clone rgb height width = Done input_image
    ∧ Z.of_nat (length input_image) = height * width * 3
    ∧ ∀ k, 0 ≤ k < height * width * 3 → load input_image k = load rgb k.
Proof.
  intros Hh Hw Hlen. unfold clone. rewrite !decide_True by done.
  eexists. split; [done|]. split; [rewrite length_take; nia|].
  intros k Hk. unfold load. rewrite !decide_True by lia.
  apply lookup_take_lt. lia.
Qed.

Lemma clone_outcome rgb height width :
  0 ≤ height → 0 ≤ width →
  clone rgb height width = Undefined ∨ ∃ input_image,
    clone rgb height width = Done input_image.
Proof.
  intros Hh Hw. unfold clone. rewrite decide_True by done.
  case_decide; [right; by eexists|by left].
Qed.

(** A pixel has one place in the row-major order. *)
Lemma pixel_index_inj width y x h w :
  0 ≤ x < width → 0 ≤ w < width → y * width + x = h * width + w →
  y = h ∧ x = w.
Proof. intros Hx Hw Heq. assert (y = h) by nia. subst. lia. Qed.

Lemma bind_Done {A B} (m : outcome A) (f : A → outcome B) b :
  m ≫= f = Done b → ∃ a, m = Done a ∧ f a = Done b.
Proof.
  unfold mbind, outcome_bind.
  destruct m as [a| | |]; intros Hb; [by exists a|discriminate Hb..].
Qed.

Lemma read_outcome {A} (p : list A) k :
  read p k = Undefined ∨ ∃ x, read p k = Done x.
Proof. unfold read. destruct (load p k); [right; by eexists|by left]. Qed.

Lemma write_outcome {A} (p : list A) k x :
  write p k x = Undefined ∨ ∃ p', write p k x = Done p'.
Proof. unfold write. case_decide; [right; by eexists|by left]. Qed.

Lemma write_Done {A} (p p' : list A) k x :
  write p k x = Done p' →
  0 ≤ k < Z.of_nat (length p) ∧ length p' = length p.
Proof.
  unfold write. case_decide; [|done]. intros [= <-].
  by rewrite length_store.
Qed.

Lemma read_load {A} (p : list A) k x : load p k = Some x → read p k = Done x.
Proof. unfold read. by intros ->. Qed.

Lemma read_Done {A} (p : list A) k x : read p k = Done x → load p k = Some x.
Proof. unfold read. destruct (load p k); [|done]. by intros [= ->]. Qed.

Lemma acts_write4 (k0 k1 k2 k3 : Z) (x0 x1 x2 x3 : float32) n :
  0 ≤ k0 < Z.of_nat n → 0 ≤ k1 < Z.of_nat n →
  0 ≤ k2 < Z.of_nat n → 0 ≤ k3 < Z.of_nat n →
  acts (λ _, True)
    (λ s, s ← write s k0 x0; s ← write s k1 x1; s ← write s k2 x2; write s k3 x3)
    (λ j p, put k3 x3 j (put k2 x2 j (put k1 x1 j (put k0 x0 j p)))) n.
Proof.
  intros H0 H1 H2 H3.
  apply (acts_bind _ (λ s, write s k0 x0)
           (λ s, s ← write s k1 x1; s ← write s k2 x2; write s k3 x3)
           (put k0 x0) (λ j p, put k3 x3 j (put k2 x2 j (put k1 x1 j p))));
    [by apply acts_write|].
  apply (acts_bind _ (λ s, write s k1 x1)
           (λ s, s ← write s k2 x2; write s k3 x3)
           (put k1 x1) (λ j p, put k3 x3 j (put k2 x2 j p)));
    [by apply acts_write|].
  apply (acts_bind _ (λ s, write s k2 x2) (λ s, write s k3 x3)
           (put k2 x2) (put k3 x3)); by apply acts_write.
Qed.

Local Abbreviation no_colour :=
  {| name := EmptyString; r := 0; g := 0; b := 0 |}.

(** What [fuse_pixel] leaves in cell [j]. *)
Local Abbreviation fused_pixel class_colour_lookup_ input_image obj_data width h w :=
  (let r := default 0 (load input_image (h * (width * 3) + (3 * w + 0))) in
   let g := default 0 (load input_image (h * (width * 3) + (3 * w + 1))) in
   let b := default 0 (load input_image (h * (width * 3) + (3 * w + 2))) in
   let obj := default zero (load obj_data (h * width + w)) in
   let colour := default no_colour (load class_colour_lookup_ (f_to_int obj - 1)) in
   let bimsk := negb (bool_decide (f_to_int obj = 0)) in
   λ (j : Z) (p : float32),
     put ((h * width + w) * 4 + 3) (f_of_int 1) j
       (put ((h * width + w) * 4 + 2)
          (fused_channel bimsk (ColourScheme.b colour) (f_of_int b)) j
          (put ((h * width + w) * 4 + 1)
             (fused_channel bimsk (ColourScheme.g colour) (f_of_int g)) j
             (put ((h * width + w) * 4 + 0)
                (fused_channel bimsk (ColourScheme.r colour) (f_of_int r)) j
                p)))).

Lemma fuse_pixel_acts (class_colour_lookup_ : list ClassColour) input_image obj_data width h w n :
  0 ≤ h → 0 ≤ w < width →
  (h * width + w) * 4 + 3 < Z.of_nat n →
  (h * width + w) * 3 + 2 < Z.of_nat (length input_image) →
  (∃ obj, load obj_data (h * width + w) = Some obj
          ∧ 1 ≤ f_to_int obj ≤ Z.of_nat (length class_colour_lookup_)) →
  acts (λ _, True)
    (fuse_pixel class_colour_lookup_ input_image obj_data width h w)
    (fused_pixel class_colour_lookup_ input_image obj_data width h w) n.
Proof.
  intros Hh Hw Hn Himg (obj & Hobj & Hid).
  assert (0 ≤ h * width) by nia.
  destruct (load_is_Some input_image (h * (width * 3) + (3 * w + 0)))
    as [r Hr]; [lia|].
  destruct (load_is_Some input_image (h * (width * 3) + (3 * w + 1)))
    as [g Hg]; [lia|].
  destruct (load_is_Some input_image (h * (width * 3) + (3 * w + 2)))
    as [b Hb]; [lia|].
  destruct (load_is_Some class_colour_lookup_ (f_to_int obj - 1))
    as [colour Hc]; [lia|].
  set (bimsk := negb (bool_decide (f_to_int obj = 0))).
  eapply acts_ext.
  - apply (acts_write4
             ((h * width + w) * 4 + 0) ((h * width + w) * 4 + 1)
             ((h * width + w) * 4 + 2) ((h * width + w) * 4 + 3)
             (fused_channel bimsk (ColourScheme.r colour) (f_of_int r))
             (fused_channel bimsk (ColourScheme.g colour) (f_of_int g))
             (fused_channel bimsk (ColourScheme.b colour) (f_of_int b))
             (f_of_int 1) n); lia.
  - intros s. unfold fuse_pixel.
    rewrite (read_load _ _ _ Hr), (read_load _ _ _ Hg), (read_load _ _ _ Hb),
      (read_load _ _ _ Hobj).
    cbn [mbind outcome_bind]. by rewrite (read_load _ _ _ Hc).
  - intros j p _ _. cbv beta zeta. by rewrite Hr, Hg, Hb, Hobj; cbn [from_option Datatypes.id]; rewrite Hc.
Qed.


Lemma fuse_pixel_outcome (class_colour_lookup_ : list ClassColour)
    input_image obj_data width h w image_data :
  fuse_pixel class_colour_lookup_ input_image obj_data width h w image_data
  = Undefined
  ∨ ∃ image,
      fuse_pixel class_colour_lookup_ input_image obj_data width h w image_data
      = Done image.
Proof.
  unfold fuse_pixel.
  repeat match goal with
         | |- context [read ?p ?k] =>
             destruct (read_outcome p k) as [->|[? ->]]; [by left|];
             cbn [mbind outcome_bind]
         | |- context [write ?p ?k ?x] =>
             destruct (write_outcome p k x) as [->|[? ->]]; [by left|];
             cbn [mbind outcome_bind]
         end.
  right. by eexists.
Qed.

(** A pixel that is read for its colour has an object id that is an index
    of the lookup when 1 is taken from it. *)
Lemma fuse_pixel_Done (class_colour_lookup_ : list ClassColour)
    input_image obj_data width h w image_data image obj :
  fuse_pixel class_colour_lookup_ input_image obj_data width h w image_data
  = Done image →
  load obj_data (h * width + w) = Some obj →
  1 ≤ f_to_int obj ≤ Z.of_nat (length class_colour_lookup_).
Proof.
  unfold fuse_pixel. intros Hdone Hobj.
  apply bind_Done in Hdone as (r & _ & Hdone).
  apply bind_Done in Hdone as (g & _ & Hdone).
  apply bind_Done in Hdone as (b & _ & Hdone).
  apply bind_Done in Hdone as (obj' & Hobj'%read_Done & Hdone).
  assert (obj' = obj) as -> by congruence.
  apply bind_Done in Hdone as (colour & Hc & _).
  apply read_Done in Hc. unfold load in Hc. case_decide; [|done].
  apply lookup_lt_Some in Hc. lia.
Qed.

Local Abbreviation fused_image class_colour_lookup_ input_image obj_data height width :=
  (over (seqZ 0 height)
     (λ h, over (seqZ 0 width)
             (λ w, fused_pixel class_colour_lookup_ input_image obj_data width h w))).

Lemma fuse_loops_act (class_colour_lookup_ : list ClassColour)
    input_image obj_data height width n :
  0 ≤ height → 0 ≤ width →
  Z.of_nat (length input_image) = height * width * 3 →
  height * width * 4 ≤ Z.of_nat n →
  (∀ k, 0 ≤ k < height * width →
     ∃ obj, load obj_data k = Some obj
            ∧ 1 ≤ f_to_int obj ≤ Z.of_nat (length class_colour_lookup_)) →
  acts (λ _, True)
    (for_each (seqZ 0 height)
       (λ h, for_each (seqZ 0 width)
               (fuse_pixel class_colour_lookup_ input_image obj_data width h)))
    (fused_image class_colour_lookup_ input_image obj_data height width) n.
Proof.
  intros Hh Hw Himg Hn Hobj.
  apply acts_for_each. intros h Hhin%elem_of_seqZ.
  apply acts_for_each. intros w Hwin%elem_of_seqZ.
  assert (0 ≤ h * width + w < height * width) by nia.
  apply fuse_pixel_acts; [lia|lia|lia|lia|]. apply Hobj. lia.
Qed.

Lemma fused_pixel_miss (class_colour_lookup_ : list ClassColour)
    input_image obj_data width h w j q :
  ¬ (h * width + w) * 4 ≤ j < (h * width + w) * 4 + 4 →
  fused_pixel class_colour_lookup_ input_image obj_data width h w j q = q.
Proof. intros Hj. cbv beta zeta. by rewrite !put_ne by lia. Qed.

Lemma fused_image_hit (class_colour_lookup_ : list ClassColour)
    input_image obj_data height width y x c q :
  0 ≤ y < height → 0 ≤ x < width → 0 ≤ c < 4 →
  fused_image class_colour_lookup_ input_image obj_data height width
    ((y * width + x) * 4 + c) q
  = fused_pixel class_colour_lookup_ input_image obj_data width y x
      ((y * width + x) * 4 + c) q.
Proof.
  intros Hy Hx Hc.
  rewrite (over_single (seqZ 0 height) _ y);
    [|apply NoDup_seqZ|apply elem_of_seqZ; lia|].
  - rewrite (over_single (seqZ 0 width) _ x);
      [done|apply NoDup_seqZ|apply elem_of_seqZ; lia|].
    intros w q' Hw%elem_of_seqZ Hne. apply fused_pixel_miss. lia.
  - intros h q' Hh%elem_of_seqZ Hne. apply over_id.
    intros w q'' Hw%elem_of_seqZ. apply fused_pixel_miss.
    intros Hj. destruct (pixel_index_inj width y x h w); [lia|lia|lia|]. done.
Qed.

Lemma fused_image_miss (class_colour_lookup_ : list ClassColour)
    input_image obj_data height width j q :
  height * width * 4 ≤ j →
  fused_image class_colour_lookup_ input_image obj_data height width j q = q.
Proof.
  intros Hj. apply over_id. intros h q' Hh%elem_of_seqZ.
  apply over_id. intros w q'' Hw%elem_of_seqZ. apply fused_pixel_miss.
  assert (h * width + w < height * width) by nia. lia.
Qed.

(** X17. [displayInstanceFusePredictions] reads a colour for every pixel,
    also where it does not use it: the lookup is indexed with the object
    id less one whatever [bimsk] is.  A pixel of the image whose object id
    is not one of 1, ..., [class_colour_lookup_.size()] makes the call index
    the lookup outside its bounds; a background pixel, with the id 0, is
    such a pixel. *)
Theorem fuse_display_needs_an_object_at_every_pixel
    (class_colour_lookup_ : list ClassColour) rgb height width
    obj_data image_data h w obj :
  0 ≤ h < height → 0 ≤ w < width →
  load obj_data (h * width + w) = Some obj →
  ¬ 1 ≤ f_to_int obj ≤ Z.of_nat (length class_colour_lookup_) →
  displayInstanceFusePredictions class_colour_lookup_ rgb height width
    obj_data image_data
  = Undefined.
Proof.
  intros Hh Hw Hobj Hid. unfold displayInstanceFusePredictions.
  destruct (clone_outcome rgb height width) as [->|[input_image ->]];
    [lia|lia|done|]. cbn [mbind outcome_bind].
  set (body := λ h, for_each (seqZ 0 width)
                 (fuse_pixel class_colour_lookup_ input_image obj_data width h)).
  destruct (for_each_outcome (seqZ 0 height) body) with (s := image_data)
    as [Hundef|[image Hdone]]; [|done|].
  { intros k s _. apply for_each_outcome. intros; apply fuse_pixel_outcome. }
  exfalso.
  destruct (for_each_Done_inv (λ _, True) _ _ _ _ (λ _ _ _ _ _ _, I) I Hdone)
    as [_ Hrows].
  destruct (Hrows h) as (s1 & s2 & _ & Hrow); [apply elem_of_seqZ; lia|].
  destruct (for_each_Done_inv (λ _, True) _ _ _ _ (λ _ _ _ _ _ _, I) I Hrow)
    as [_ Hpixels].
  destruct (Hpixels w) as (t1 & t2 & _ & Hpixel); [apply elem_of_seqZ; lia|].
  apply Hid. by eapply fuse_pixel_Done.
Qed.

(** X18. Where every pixel has an object id among 1, ...,
    [class_colour_lookup_.size()], the images fit their buffers and the blob
    has room for four floats a pixel, [displayInstanceFusePredictions]
    returns.  The float image keeps its size; the four floats of pixel
    ([h], [w]) are the three channels of that pixel, each blended with the
    colour of the object at that pixel, with [bimsk] true, and the float
    1; and the floats behind the image are as before. *)
Theorem fuse_display_blends_every_pixel
    (class_colour_lookup_ : list ClassColour) rgb height width
    obj_data image_data :
  0 ≤ height → 0 ≤ width →
  height * width * 3 ≤ Z.of_nat (length rgb) →
  height * width * 4 ≤ Z.of_nat (length image_data) →
  (∀ k, 0 ≤ k < height * width →
     ∃ obj, load obj_data k = Some obj
            ∧ 1 ≤ f_to_int obj ≤ Z.of_nat (length class_colour_lookup_)) →
  ∃ image,
    displayInstanceFusePredictions class_colour_lookup_ rgb height width
      obj_data image_data
    = Done image
    ∧ length image = length image_data
    ∧ (∀ h w, 0 ≤ h < height → 0 ≤ w < width →
         ∃ r g b obj colour,
           load rgb ((h * width + w) * 3 + 0) = Some r
           ∧ load rgb ((h * width + w) * 3 + 1) = Some g
           ∧ load rgb ((h * width + w) * 3 + 2) = Some b
           ∧ load obj_data (h * width + w) = Some obj
           ∧ load class_colour_lookup_ (f_to_int obj - 1) = Some colour
           ∧ load image ((h * width + w) * 4 + 0)
             = Some (fused_channel true (ColourScheme.r colour) (f_of_int r))
           ∧ load image ((h * width + w) * 4 + 1)
             = Some (fused_channel true (ColourScheme.g colour) (f_of_int g))
           ∧ load image ((h * width + w) * 4 + 2)
             = Some (fused_channel true (ColourScheme.b colour) (f_of_int b))
           ∧ load image ((h * width + w) * 4 + 3) = Some (f_of_int 1))
    ∧ (∀ j, height * width * 4 ≤ j → load image j = load image_data j).
Proof.
  intros Hh Hw Hrgb Hblob Hobj. unfold displayInstanceFusePredictions.
  destruct (clone_Done rgb height width Hh Hw Hrgb)
    as (input_image & -> & Hlen & Hsame). cbn [mbind outcome_bind].
  destruct (fuse_loops_act class_colour_lookup_ input_image obj_data height width
              (length image_data) Hh Hw Hlen Hblob Hobj image_data eq_refl)
    as (image & Hdone & Hlen' & _ & Hload).
  { by apply Forall_forall. }
  exists image. split; [done|]. split; [done|]. split.
  - intros h w Hhr Hwr.
    assert (Hpix : 0 ≤ h * width + w < height * width) by nia.
    destruct (load_is_Some input_image (h * (width * 3) + (3 * w + 0)))
      as [r Hr]; [lia|].
    destruct (load_is_Some input_image (h * (width * 3) + (3 * w + 1)))
      as [g Hg]; [lia|].
    destruct (load_is_Some input_image (h * (width * 3) + (3 * w + 2)))
      as [b Hb]; [lia|].
    destruct (Hobj (h * width + w)) as (obj & Hobjat & Hid); [lia|].
    destruct (load_is_Some class_colour_lookup_ (f_to_int obj - 1))
      as [colour Hc]; [lia|].
    exists r, g, b, obj, colour.
    rewrite <- !Hsame by lia.
    replace ((h * width + w) * 3 + 0) with (h * (width * 3) + (3 * w + 0)) by lia.
    replace ((h * width + w) * 3 + 1) with (h * (width * 3) + (3 * w + 1)) by lia.
    replace ((h * width + w) * 3 + 2) with (h * (width * 3) + (3 * w + 2)) by lia.
    split; [done|]. split; [done|]. split; [done|]. split; [done|].
    split; [done|].
    assert (Hbimsk : negb (bool_decide (f_to_int obj = 0)) = true).
    { apply negb_true_iff, bool_decide_eq_false. lia. }
    assert (Hcell : ∀ c, 0 ≤ c < 4 →
              is_Some (load image_data ((h * width + w) * 4 + c))).
    { intros c Hc'. apply load_is_Some. lia. }
    repeat split.
    + rewrite Hload. destruct (Hcell 0) as [p ->]; [lia|].
      cbn [fmap option_fmap option_map]. rewrite fused_image_hit by lia.
      cbv beta zeta. rewrite Hr, Hg, Hb, Hobjat. cbn [from_option Datatypes.id].
      rewrite Hc, Hbimsk. cbn [from_option Datatypes.id].
      by rewrite !put_ne, put_eq by lia.
    + rewrite Hload. destruct (Hcell 1) as [p ->]; [lia|].
      cbn [fmap option_fmap option_map]. rewrite fused_image_hit by lia.
      cbv beta zeta. rewrite Hr, Hg, Hb, Hobjat. cbn [from_option Datatypes.id].
      rewrite Hc, Hbimsk. cbn [from_option Datatypes.id].
      by rewrite !put_ne, put_eq by lia.
    + rewrite Hload. destruct (Hcell 2) as [p ->]; [lia|].
      cbn [fmap option_fmap option_map]. rewrite fused_image_hit by lia.
      cbv beta zeta. rewrite Hr, Hg, Hb, Hobjat. cbn [from_option Datatypes.id].
      rewrite Hc, Hbimsk. cbn [from_option Datatypes.id].
      by rewrite !put_ne, put_eq by lia.
    + rewrite Hload. destruct (Hcell 3) as [p ->]; [lia|].
      cbn [fmap option_fmap option_map]. rewrite fused_image_hit by lia.
      cbv beta zeta. by rewrite put_eq.
  - intros j Hj. rewrite Hload.
    destruct (load image_data j) as [p|]; [|done].
    cbn [fmap option_fmap option_map]. by rewrite fused_image_miss.
Qed.
End display_images.

Section mask_display.
Import ColourScheme Float32 Display.
Implicit Types (rgb input_image : list Z) (masks : list MaskInfo).
Implicit Types (image_data : list float32) (height width : Z).

(** The comparison with [256*0.4], a [double] between 102 and 103. *)
Lemma over_threshold_spec msk :
  byte msk → over_threshold msk = bool_decide (103 ≤ msk).
Proof.
  intros Hb.
  assert (Hall : forallb (λ m, Bool.eqb (over_threshold m) (bool_decide (103 ≤ m)))
                   (seqZ 0 256) = true) by (vm_compute; reflexivity).
  rewrite forallb_forall in Hall. specialize (Hall msk).
  rewrite <- list_elem_of_In, elem_of_seqZ in Hall.
  apply Bool.eqb_prop, Hall. unfold byte in Hb. lia.
Qed.

Lemma masked_channel_byte bimsk colour image :
  byte (masked_channel bimsk colour image).
Proof.
  unfold masked_channel, Float64.to_uchar, byte.
  match goal with |- 0 ≤ ?z mod 256 ≤ 255 =>
    pose proof (Z.mod_pos_bound z 256); lia end.
Qed.

(** With [bimsk] false the two products are 0.0 and the pixel keeps its
    value. *)
Lemma colour_term_off colour :
  byte colour →
  Float64.mul (Float64.mul (Float64.decimal 7 1) (Float64.of_int colour))
    (Float64.of_int 0)
  = S754_zero false.
Proof.
  intros Hb.
  assert (Hall : forallb
            (λ c, match Float64.mul
                          (Float64.mul (Float64.decimal 7 1) (Float64.of_int c))
                          (Float64.of_int 0) with
                  | S754_zero false => true
                  | _ => false
                  end) (seqZ 0 256) = true) by (vm_compute; reflexivity).
  rewrite forallb_forall in Hall. specialize (Hall colour).
  rewrite <- list_elem_of_In, elem_of_seqZ in Hall.
  unfold byte in Hb. specialize (Hall ltac:(lia)).
  by destruct (Float64.mul _ _) as [[]| | |].
Qed.

Lemma pixel_term_off image :
  byte image →
  Float64.to_uchar
    (Float64.sub
       (Float64.add (Float64.of_float (f_of_int image)) (S754_zero false))
       (Float64.mul (Float64.mul (Float64.decimal 7 1) (Float64.of_int 0))
          (Float64.of_float (f_of_int image))))
  = image.
Proof.
  intros Hb.
  assert (Hall : forallb
            (λ x, Z.eqb
                    (Float64.to_uchar
                       (Float64.sub
                          (Float64.add (Float64.of_float (f_of_int x))
                             (S754_zero false))
                          (Float64.mul
                             (Float64.mul (Float64.decimal 7 1) (Float64.of_int 0))
                             (Float64.of_float (f_of_int x)))))
                    x) (seqZ 0 256) = true) by (vm_compute; reflexivity).
  rewrite forallb_forall in Hall. specialize (Hall image).
  rewrite <- list_elem_of_In, elem_of_seqZ in Hall.
  unfold byte in Hb. apply Z.eqb_eq, Hall. lia.
Qed.

Lemma masked_channel_off colour image :
  byte colour → byte image → masked_channel false colour image = image.
Proof.
  intros Hc Hx. unfold masked_channel. cbv zeta. cbn [of_bool].
  rewrite colour_term_off by done. by apply pixel_term_off.
Qed.

Lemma blend_at_acts (class_colour_lookup_ : list ClassColour) i
    (channel : ClassColour → Z) bimsk image_index n colour :
  load class_colour_lookup_ (i + 1) = Some colour →
  0 ≤ image_index < Z.of_nat n →
  acts byte (blend_at class_colour_lookup_ i channel bimsk image_index)
    (update image_index (masked_channel bimsk (channel colour))) n.
Proof.
  intros Hc Hidx.
  eapply acts_ext.
  - apply (acts_update byte image_index (masked_channel bimsk (channel colour)) n);
      [done|]. intros p _. apply masked_channel_byte.
  - intros s. unfold blend_at.
    destruct (read s image_index) as [p| | |]; [|done..].
    cbn [mbind outcome_bind]. by rewrite (read_load _ _ _ Hc).
  - done.
Qed.

Local Abbreviation no_colour :=
  {| name := EmptyString; r := 0; g := 0; b := 0 |}.

Local Abbreviation no_mask :=
  {| x1 := 0; y1 := 0; x2 := -1; y2 := -1;
     cv_mat := {| step := 0; bytes := [] |} |}.

(** What [mask_pixel] leaves in byte [j] of the image. *)
Local Abbreviation masked_pixel class_colour_lookup_ i mask width h w :=
  (let msk := default 0 (load (bytes (cv_mat mask)) (h * step (cv_mat mask) + w)) in
   let colour := default no_colour (load class_colour_lookup_ (i + 1)) in
   let bimsk := over_threshold msk in
   let image_index := (h + y1 mask) * (width * 3) + (x1 mask * 3 + 3 * w) in
   λ (j : Z) (p : Z),
     update (image_index + 2) (masked_channel bimsk (b colour)) j
       (update (image_index + 1) (masked_channel bimsk (g colour)) j
          (update image_index (masked_channel bimsk (r colour)) j p))).

Local Abbreviation drawn_mask class_colour_lookup_ i mask width :=
  (over (seqZ 0 (y2 mask - y1 mask + 1))
     (λ h, over (seqZ 0 (x2 mask - x1 mask + 1))
             (λ w, masked_pixel class_colour_lookup_ i mask width h w))).

Lemma mask_pixel_acts (class_colour_lookup_ : list ClassColour) i mask
    width h w n :
  is_Some (load (bytes (cv_mat mask)) (h * step (cv_mat mask) + w)) →
  is_Some (load class_colour_lookup_ (i + 1)) →
  0 ≤ (h + y1 mask) * (width * 3) + (x1 mask * 3 + 3 * w) →
  (h + y1 mask) * (width * 3) + (x1 mask * 3 + 3 * w) + 2 < Z.of_nat n →
  acts byte (mask_pixel class_colour_lookup_ i mask width h w)
    (masked_pixel class_colour_lookup_ i mask width h w) n.
Proof.
  intros [msk Hmsk] [colour Hc] Hlo Hhi.
  set (image_index := (h + y1 mask) * (width * 3) + (x1 mask * 3 + 3 * w)) in *.
  set (bimsk := over_threshold msk).
  eapply acts_ext.
  - apply (acts_bind byte
             (blend_at class_colour_lookup_ i r bimsk image_index)
             (λ s, s1 ← blend_at class_colour_lookup_ i g bimsk (image_index + 1) s;
                   blend_at class_colour_lookup_ i b bimsk (image_index + 2) s1)
             (update image_index (masked_channel bimsk (r colour)))
             (λ j p, update (image_index + 2) (masked_channel bimsk (b colour)) j
                       (update (image_index + 1)
                          (masked_channel bimsk (g colour)) j p)));
      [apply blend_at_acts; [done|lia]|].
    apply (acts_bind byte
             (blend_at class_colour_lookup_ i g bimsk (image_index + 1))
             (blend_at class_colour_lookup_ i b bimsk (image_index + 2))
             (update (image_index + 1) (masked_channel bimsk (g colour)))
             (update (image_index + 2) (masked_channel bimsk (b colour))));
      apply blend_at_acts; (done || lia).
  - intros s. unfold mask_pixel. by rewrite (read_load _ _ _ Hmsk).
  - intros j p _ _. cbv beta zeta. rewrite Hmsk, Hc. by cbn [from_option Datatypes.id].
Qed.

Lemma draw_mask_acts (class_colour_lookup_ : list ClassColour) masks
    height width i mask :
  0 ≤ width →
  load masks i = Some mask → fits height width mask →
  is_Some (load class_colour_lookup_ (i + 1)) →
  acts byte (draw_mask class_colour_lookup_ masks width i)
    (drawn_mask class_colour_lookup_ i mask width)
    (Z.to_nat (height * width * 3)).
Proof.
  intros Hw Hmask (Hy1 & Hy2 & Hx1 & Hx2 & _ & Hmat) Hc.
  eapply acts_ext; [|intros s; unfold draw_mask;
                     by rewrite (read_load _ _ _ Hmask)|done].
  apply acts_for_each. intros h Hh%elem_of_seqZ.
  apply acts_for_each. intros w Hwin%elem_of_seqZ.
  assert (0 ≤ (h + y1 mask) * width) by nia.
  assert ((h + y1 mask) * width + (x1 mask + w) < height * width) by nia.
  apply mask_pixel_acts; [apply Hmat; lia|done|lia|lia].
Qed.

(** A channel of a pixel has one place in the image. *)
Lemma channel_index_inj width y x k y' x' k' :
  0 ≤ x < width → 0 ≤ x' < width → 0 ≤ k < 3 → 0 ≤ k' < 3 →
  y * (width * 3) + (3 * x + k) = y' * (width * 3) + (3 * x' + k') →
  y = y' ∧ x = x' ∧ k = k'.
Proof. intros Hx Hx' Hk Hk' Heq. assert (y = y') by nia. subst. lia. Qed.

Lemma masked_pixel_miss (class_colour_lookup_ : list ClassColour) i mask
    width h w y x k q :
  0 ≤ x < width → 0 ≤ x1 mask + w < width → 0 ≤ k < 3 →
  (h + y1 mask ≠ y ∨ x1 mask + w ≠ x) →
  masked_pixel class_colour_lookup_ i mask width h w
    (y * (width * 3) + (3 * x + k)) q
  = q.
Proof.
  intros Hx Hw Hk Hne. cbv beta zeta.
  rewrite !update_ne; [done|..]; intros Heq.
  - destruct (channel_index_inj width y x k (h + y1 mask) (x1 mask + w) 0);
      [lia..|]. lia.
  - destruct (channel_index_inj width y x k (h + y1 mask) (x1 mask + w) 1);
      [lia..|]. lia.
  - destruct (channel_index_inj width y x k (h + y1 mask) (x1 mask + w) 2);
      [lia..|]. lia.
Qed.

(** What drawing one mask leaves in a channel of a pixel. *)
Lemma drawn_mask_at (class_colour_lookup_ : list ClassColour) i mask
    height width colour y x k q :
  fits height width mask →
  load class_colour_lookup_ (i + 1) = Some colour → colour_bytes colour →
  0 ≤ y < height → 0 ≤ x < width → 0 ≤ k < 3 → byte q →
  drawn_mask class_colour_lookup_ i mask width (y * (width * 3) + (3 * x + k)) q
  = if covers mask y x then masked_channel true (channel k colour) q else q.
Proof.
  intros (Hy1 & Hy2 & Hx1 & Hx2 & Hbytes & Hmat) Hc (Hr & Hg & Hb) Hy Hx Hk Hq.
  unfold covers.
  destruct (decide (y1 mask ≤ y ≤ y2 mask ∧ x1 mask ≤ x ≤ x2 mask)) as [Hin|Hout].
  - rewrite bool_decide_eq_true_2 by done. cbn [andb].
    rewrite (over_single (seqZ 0 (y2 mask - y1 mask + 1)) _ (y - y1 mask));
      [|apply NoDup_seqZ|apply elem_of_seqZ; lia|].
    2:{ intros h q' Hh%elem_of_seqZ Hne. apply over_id.
        intros w q'' Hw%elem_of_seqZ.
        apply (masked_pixel_miss class_colour_lookup_ i mask width h w y x k q''); lia. }
    rewrite (over_single (seqZ 0 (x2 mask - x1 mask + 1)) _ (x - x1 mask));
      [|apply NoDup_seqZ|apply elem_of_seqZ; lia|].
    2:{ intros w q' Hw%elem_of_seqZ Hne.
        apply (masked_pixel_miss class_colour_lookup_ i mask width (y - y1 mask) w
                 y x k q'); lia. }
    cbv beta zeta.
    destruct (Hmat (y - y1 mask) (x - x1 mask)) as [msk Hmsk]; [lia|lia|].
    rewrite Hmsk, Hc. cbn [from_option Datatypes.id].
    assert (Hmb : byte msk).
    { unfold load in Hmsk. case_decide; [|done].
      eapply Forall_forall; [exact Hbytes|]. by eapply list_elem_of_lookup_2. }
    rewrite over_threshold_spec by done.
    replace ((y - y1 mask + y1 mask) * (width * 3) + (x1 mask * 3 + 3 * (x - x1 mask)))
      with (y * (width * 3) + 3 * x) by lia.
    unfold channel.
    destruct (decide (k = 0)) as [->|Hk0].
    { rewrite !update_ne by lia.
      replace (y * (width * 3) + (3 * x + 0)) with (y * (width * 3) + 3 * x) by lia.
      rewrite update_eq.
      destruct (bool_decide (103 ≤ msk)); [done|by apply masked_channel_off]. }
    destruct (decide (k = 1)) as [->|Hk1].
    { rewrite update_ne by lia.
      replace (y * (width * 3) + (3 * x + 1)) with (y * (width * 3) + 3 * x + 1) by lia.
      rewrite update_eq, update_ne by lia.
      destruct (bool_decide (103 ≤ msk)); [done|by apply masked_channel_off]. }
    assert (k = 2) as -> by lia.
    replace (y * (width * 3) + (3 * x + 2)) with (y * (width * 3) + 3 * x + 2) by lia.
    rewrite update_eq, !update_ne by lia.
    destruct (bool_decide (103 ≤ msk)); [done|by apply masked_channel_off].
  - rewrite bool_decide_eq_false_2 by done. cbn [andb].
    apply over_id. intros h q' Hh%elem_of_seqZ.
    apply over_id. intros w q'' Hw%elem_of_seqZ.
    apply (masked_pixel_miss class_colour_lookup_ i mask width h w y x k q''); lia.
Qed.

Local Abbreviation drawn_masks class_colour_lookup_ masks width first count :=
  (over (seqZ first count)
     (λ i, drawn_mask class_colour_lookup_ i
             (default no_mask (load masks i)) width)).

(** What drawing the masks one after the other leaves in a channel of a
    pixel. *)
Lemma drawn_masks_at (class_colour_lookup_ : list ClassColour) masks
    height width y x k :
  Forall colour_bytes class_colour_lookup_ →
  0 ≤ y < height → 0 ≤ x < width → 0 ≤ k < 3 →
  ∀ rest (first : Z) q,
    0 ≤ first →
    first + Z.of_nat (length rest) < Z.of_nat (length class_colour_lookup_) →
    (∀ t : nat, (t < length rest)%nat →
       load masks (first + Z.of_nat t) = rest !! t) →
    Forall (fits height width) rest → byte q →
    drawn_masks class_colour_lookup_ masks width first (Z.of_nat (length rest))
      (y * (width * 3) + (3 * x + k)) q
    = painted class_colour_lookup_ k y x first rest q.
Proof.
  intros Hcols Hy Hx Hk.
  induction rest as [|mask rest IH]; intros first q Hfirst Hlen Hmasks Hfits Hq;
    [done|].
  cbn [length] in Hlen |- *. rewrite Nat2Z.inj_succ, seqZ_cons by lia.
  rewrite over_cons. cbv beta. cbn [painted].
  apply Forall_cons in Hfits as [Hfit Hfits].
  pose proof (Hmasks 0%nat ltac:(cbn; lia)) as Hmask. cbn in Hmask.
  rewrite Z.add_0_r in Hmask. rewrite Hmask. cbn [from_option Datatypes.id].
  destruct (load_is_Some class_colour_lookup_ (first + 1)) as [colour Hc]; [lia|].
  assert (Hcb : colour_bytes colour).
  { unfold load in Hc. case_decide; [|done].
    eapply Forall_forall; [exact Hcols|]. by eapply list_elem_of_lookup_2. }
  rewrite (drawn_mask_at class_colour_lookup_ first mask height width colour)
    by done.
  rewrite Hc. replace (Z.pred (Z.succ (Z.of_nat (length rest))))
    with (Z.of_nat (length rest)) by lia.
  apply (IH (Z.succ first)); [lia|lia| |done|].
  - intros t Ht. replace (Z.succ first + Z.of_nat t)
      with (first + Z.of_nat (S t)) by lia.
    apply (Hmasks (S t)). cbn. lia.
  - destruct (covers mask y x); [apply masked_channel_byte|done].
Qed.

(** What [pack_pixel] leaves in cell [j] of the float image. *)
Local Abbreviation packed_pixel input_image width h w :=
  (let r := default 0 (load input_image (h * (width * 3) + (3 * w + 0))) in
   let g := default 0 (load input_image (h * (width * 3) + (3 * w + 1))) in
   let b := default 0 (load input_image (h * (width * 3) + (3 * w + 2))) in
   λ (j : Z) (p : float32),
     put ((h * width + w) * 4 + 3) (f_of_int 1) j
       (put ((h * width + w) * 4 + 0) (Gui.normalised r) j
          (put ((h * width + w) * 4 + 1) (Gui.normalised g) j
             (put ((h * width + w) * 4 + 2) (Gui.normalised b) j p)))).

Local Abbreviation packed_image input_image height width :=
  (over (seqZ 0 height)
     (λ h, over (seqZ 0 width) (λ w, packed_pixel input_image width h w))).

Lemma pack_pixel_acts input_image width h w n :
  0 ≤ h → 0 ≤ w < width →
  (h * width + w) * 4 + 3 < Z.of_nat n →
  (h * width + w) * 3 + 2 < Z.of_nat (length input_image) →
  acts (λ _, True) (pack_pixel input_image width h w)
    (packed_pixel input_image width h w) n.
Proof.
  intros Hh Hw Hn Himg.
  assert (0 ≤ h * width) by nia.
  destruct (load_is_Some input_image (h * (width * 3) + (3 * w + 0)))
    as [r Hr]; [lia|].
  destruct (load_is_Some input_image (h * (width * 3) + (3 * w + 1)))
    as [g Hg]; [lia|].
  destruct (load_is_Some input_image (h * (width * 3) + (3 * w + 2)))
    as [b Hb]; [lia|].
  eapply acts_ext.
  - apply (acts_write4
             ((h * width + w) * 4 + 2) ((h * width + w) * 4 + 1)
             ((h * width + w) * 4 + 0) ((h * width + w) * 4 + 3)
             (Gui.normalised b) (Gui.normalised g) (Gui.normalised r)
             (f_of_int 1) n); lia.
  - intros s. unfold pack_pixel.
    by rewrite (read_load _ _ _ Hr), (read_load _ _ _ Hg), (read_load _ _ _ Hb).
  - intros j p _ _. cbv beta zeta. by rewrite Hr, Hg, Hb.
Qed.

Lemma pack_loops_act input_image height width n :
  0 ≤ height → 0 ≤ width →
  Z.of_nat (length input_image) = height * width * 3 →
  height * width * 4 ≤ Z.of_nat n →
  acts (λ _, True)
    (for_each (seqZ 0 height)
       (λ h, for_each (seqZ 0 width) (pack_pixel input_image width h)))
    (packed_image input_image height width) n.
Proof.
  intros Hh Hw Himg Hn.
  apply acts_for_each. intros h Hhin%elem_of_seqZ.
  apply acts_for_each. intros w Hwin%elem_of_seqZ.
  assert (0 ≤ h * width + w < height * width) by nia.
  apply pack_pixel_acts; lia.
Qed.

Lemma packed_pixel_miss input_image width h w j q :
  ¬ (h * width + w) * 4 ≤ j < (h * width + w) * 4 + 4 →
  packed_pixel input_image width h w j q = q.
Proof. intros Hj. cbv beta zeta. by rewrite !put_ne by lia. Qed.

Lemma packed_image_hit input_image height width y x c q :
  0 ≤ y < height → 0 ≤ x < width → 0 ≤ c < 4 →
  packed_image input_image height width ((y * width + x) * 4 + c) q
  = packed_pixel input_image width y x ((y * width + x) * 4 + c) q.
Proof.
  intros Hy Hx Hc.
  rewrite (over_single (seqZ 0 height) _ y);
    [|apply NoDup_seqZ|apply elem_of_seqZ; lia|].
  - rewrite (over_single (seqZ 0 width) _ x);
      [done|apply NoDup_seqZ|apply elem_of_seqZ; lia|].
    intros w q' Hw%elem_of_seqZ Hne.
    apply (packed_pixel_miss input_image width y w _ q'). lia.
  - intros h q' Hh%elem_of_seqZ Hne. apply over_id.
    intros w q'' Hw%elem_of_seqZ.
    apply (packed_pixel_miss input_image width h w _ q'').
    intros Hj. destruct (pixel_index_inj width y x h w); [lia|lia|lia|]. done.
Qed.

Lemma packed_image_miss input_image height width j q :
  height * width * 4 ≤ j →
  packed_image input_image height width j q = q.
Proof.
  intros Hj. apply over_id. intros h q' Hh%elem_of_seqZ.
  apply over_id. intros w q'' Hw%elem_of_seqZ.
  apply (packed_pixel_miss input_image width h w j q'').
  assert (h * width + w < height * width) by nia. lia.
Qed.

Lemma blend_at_outcome (class_colour_lookup_ : list ClassColour) i
    (channel : ClassColour → Z) bimsk image_index input_image :
  blend_at class_colour_lookup_ i channel bimsk image_index input_image = Undefined
  ∨ ∃ image,
      blend_at class_colour_lookup_ i channel bimsk image_index input_image
      = Done image.
Proof.
  unfold blend_at.
  destruct (read_outcome input_image image_index) as [->|[p ->]]; [by left|].
  cbn [mbind outcome_bind].
  destruct (read_outcome class_colour_lookup_ (i + 1)) as [->|[c ->]]; [by left|].
  cbn [mbind outcome_bind]. apply write_outcome.
Qed.

Lemma mask_pixel_outcome (class_colour_lookup_ : list ClassColour) i mask
    width h w input_image :
  mask_pixel class_colour_lookup_ i mask width h w input_image = Undefined
  ∨ ∃ image,
      mask_pixel class_colour_lookup_ i mask width h w input_image = Done image.
Proof.
  unfold mask_pixel.
  destruct (read_outcome (bytes (cv_mat mask)) (h * step (cv_mat mask) + w))
    as [->|[msk ->]]; [by left|]. cbn [mbind outcome_bind].
  destruct (blend_at_outcome class_colour_lookup_ i r (over_threshold msk)
              ((h + y1 mask) * (width * 3) + (x1 mask * 3 + 3 * w)) input_image)
    as [->|[s1 ->]]; [by left|]. cbn [mbind outcome_bind].
  destruct (blend_at_outcome class_colour_lookup_ i g (over_threshold msk)
              ((h + y1 mask) * (width * 3) + (x1 mask * 3 + 3 * w) + 1) s1)
    as [->|[s2 ->]]; [by left|]. cbn [mbind outcome_bind].
  apply blend_at_outcome.
Qed.

Lemma draw_mask_outcome (class_colour_lookup_ : list ClassColour) masks
    width i input_image :
  draw_mask class_colour_lookup_ masks width i input_image = Undefined
  ∨ ∃ image,
      draw_mask class_colour_lookup_ masks width i input_image = Done image.
Proof.
  unfold draw_mask.
  destruct (read_outcome masks i) as [->|[mask ->]]; [by left|].
  cbn [mbind outcome_bind]. apply for_each_outcome.
  intros h s _. apply for_each_outcome. intros w s' _. apply mask_pixel_outcome.
Qed.

(** A pixel of a mask is drawn with the colour behind that of the
    mask's position. *)
Lemma mask_pixel_Done (class_colour_lookup_ : list ClassColour) i mask
    width h w input_image image :
  mask_pixel class_colour_lookup_ i mask width h w input_image = Done image →
  is_Some (load class_colour_lookup_ (i + 1)).
Proof.
  unfold mask_pixel. intros Hdone.
  apply bind_Done in Hdone as (msk & _ & Hdone).
  apply bind_Done in Hdone as (s1 & Hblend & _).
  unfold blend_at in Hblend.
  apply bind_Done in Hblend as (p & _ & Hblend).
  apply bind_Done in Hblend as (colour & Hc%read_Done & _).
  by exists colour.
Qed.

(** X19. [displayInstancePredictions] draws mask number [i] of the list
    with the colour of class [i + 1], whatever the class of the mask is, and
    reads the colour for every pixel of its box.  A mask with a box that
    is not empty and a number [i] with [i + 1] not below
    [class_colour_lookup_.size()] makes the call index the lookup outside
    its bounds: with 14 colours the list has room for 13 masks. *)
Theorem mask_display_needs_a_colour_behind_every_mask
    (class_colour_lookup_ : list ClassColour) rgb height width masks
    image_data (i : nat) mask :
  0 ≤ height → 0 ≤ width →
  masks !! i = Some mask →
  y1 mask ≤ y2 mask → x1 mask ≤ x2 mask →
  (length class_colour_lookup_ ≤ i + 1)%nat →
  displayInstancePredictions class_colour_lookup_ rgb height width masks
    image_data
  = Undefined.
Proof.
  intros Hh Hw Hmask Hy Hx Hsize. unfold displayInstancePredictions.
  destruct (clone_outcome rgb height width) as [->|[input_image ->]];
    [lia|lia|done|]. cbn [mbind outcome_bind].
  destruct (for_each_outcome (seqZ 0 (Z.of_nat (length masks)))
              (draw_mask class_colour_lookup_ masks width))
    with (s := input_image) as [->|[image Hdone]]; [|done|].
  { intros k s _. apply draw_mask_outcome. }
  exfalso.
  destruct (for_each_Done_inv (λ _, True) _ _ _ _ (λ _ _ _ _ _ _, I) I Hdone)
    as [_ Hmasks].
  destruct (Hmasks (Z.of_nat i)) as (s1 & s2 & _ & Hdraw).
  { apply elem_of_seqZ. apply lookup_lt_Some in Hmask. lia. }
  unfold draw_mask in Hdraw.
  apply bind_Done in Hdraw as (mask' & Hmask'%read_Done & Hrows).
  unfold load in Hmask'. rewrite decide_True, Nat2Z.id in Hmask' by lia.
  assert (mask' = mask) as -> by congruence.
  destruct (for_each_Done_inv (λ _, True) _ _ _ _ (λ _ _ _ _ _ _, I) I Hrows)
    as [_ Hrow].
  destruct (Hrow 0) as (t1 & t2 & _ & Hcols); [apply elem_of_seqZ; lia|].
  destruct (for_each_Done_inv (λ _, True) _ _ _ _ (λ _ _ _ _ _ _, I) I Hcols)
    as [_ Hcol].
  destruct (Hcol 0) as (u1 & u2 & _ & Hpixel); [apply elem_of_seqZ; lia|].
  apply mask_pixel_Done in Hpixel as [colour Hc].
  unfold load in Hc. case_decide; [|done].
  apply lookup_lt_Some in Hc. lia.
Qed.

(** X20. With fewer masks than colours, boxes inside the image and a byte
    of the mask for every pixel of a box, [displayInstancePredictions]
    returns.  The masks are drawn one after the other: where the byte of a
    mask is 103 or more, the channel of the pixel is blended with the
    colour of class [i + 1]; where it is below, and outside the box, the
    channel keeps its value exactly.  The float image has the four floats
    of pixel ([y], [x]) at [(y * width + x) * 4]: the three channels divided
    by 255, and the float 1; the floats behind the image are as
    before. *)
Theorem mask_display_paints_in_order
    (class_colour_lookup_ : list ClassColour) rgb height width masks
    image_data :
  0 ≤ height → 0 ≤ width →
  height * width * 3 ≤ Z.of_nat (length rgb) → Forall byte rgb →
  height * width * 4 ≤ Z.of_nat (length image_data) →
  Forall colour_bytes class_colour_lookup_ →
  (length masks < length class_colour_lookup_)%nat →
  Forall (fits height width) masks →
  ∃ image,
    displayInstancePredictions class_colour_lookup_ rgb height width masks
      image_data
    = Done image
    ∧ length image = length image_data
    ∧ (∀ y x, 0 ≤ y < height → 0 ≤ x < width →
         ∃ r g b,
           load rgb ((y * width + x) * 3 + 0) = Some r
           ∧ load rgb ((y * width + x) * 3 + 1) = Some g
           ∧ load rgb ((y * width + x) * 3 + 2) = Some b
           ∧ load image ((y * width + x) * 4 + 0)
             = Some (Gui.normalised (painted class_colour_lookup_ 0 y x 0 masks r))
           ∧ load image ((y * width + x) * 4 + 1)
             = Some (Gui.normalised (painted class_colour_lookup_ 1 y x 0 masks g))
           ∧ load image ((y * width + x) * 4 + 2)
             = Some (Gui.normalised (painted class_colour_lookup_ 2 y x 0 masks b))
           ∧ load image ((y * width + x) * 4 + 3) = Some (f_of_int 1))
    ∧ (∀ j, height * width * 4 ≤ j → load image j = load image_data j).
Proof.
  intros Hh Hw Hrgb Hbytes Hblob Hcols Hsize Hfits.
  unfold displayInstancePredictions.
  destruct (clone_Done rgb height width Hh Hw Hrgb)
    as (input_image & Hclone & Hlen & Hsame).
  rewrite Hclone. cbn [mbind outcome_bind].
  assert (Hib : Forall byte input_image).
  { unfold clone in Hclone. rewrite !decide_True in Hclone by done.
    injection Hclone as <-. by apply Forall_take. }
  assert (Hdraw : acts byte
            (for_each (seqZ 0 (Z.of_nat (length masks)))
               (draw_mask class_colour_lookup_ masks width))
            (drawn_masks class_colour_lookup_ masks width 0
               (Z.of_nat (length masks)))
            (Z.to_nat (height * width * 3))).
  { apply acts_for_each. intros i Hi%elem_of_seqZ.
    destruct (load_is_Some masks i) as [mask Hmask]; [lia|].
    rewrite Hmask. cbn [from_option Datatypes.id].
    apply (draw_mask_acts class_colour_lookup_ masks height width i mask);
      [done|done| |apply load_is_Some; lia].
    unfold load in Hmask. case_decide; [|done].
    eapply Forall_forall; [exact Hfits|]. by eapply list_elem_of_lookup_2. }
  destruct (Hdraw input_image) as (drawn & -> & Hlend & Hdb & Hdrawn);
    [lia|done|]. cbn [mbind outcome_bind].
  destruct (pack_loops_act drawn height width (length image_data) Hh Hw
              ltac:(lia) Hblob image_data eq_refl)
    as (image & Hdone & Hlen' & _ & Hload).
  { by apply Forall_forall. }
  exists image. split; [done|]. split; [done|]. split.
  - intros y x Hy Hx.
    assert (Hpix : 0 ≤ y * width + x < height * width) by nia.
    destruct (load_is_Some input_image (y * (width * 3) + (3 * x + 0)))
      as [r Hr]; [lia|].
    destruct (load_is_Some input_image (y * (width * 3) + (3 * x + 1)))
      as [g Hg]; [lia|].
    destruct (load_is_Some input_image (y * (width * 3) + (3 * x + 2)))
      as [b Hb]; [lia|].
    assert (Hbyte : ∀ k p, load input_image k = Some p → byte p).
    { intros k p Hp. unfold load in Hp. case_decide; [|done].
      eapply Forall_forall; [exact Hib|]. by eapply list_elem_of_lookup_2. }
    exists r, g, b.
    rewrite <- !Hsame by lia.
    replace ((y * width + x) * 3 + 0) with (y * (width * 3) + (3 * x + 0)) by lia.
    replace ((y * width + x) * 3 + 1) with (y * (width * 3) + (3 * x + 1)) by lia.
    replace ((y * width + x) * 3 + 2) with (y * (width * 3) + (3 * x + 2)) by lia.
    split; [done|]. split; [done|]. split; [done|].
    assert (Hcell : ∀ c, 0 ≤ c < 4 →
              is_Some (load image_data ((y * width + x) * 4 + c))).
    { intros c Hc'. apply load_is_Some. lia. }
    assert (Hpainted : ∀ k p, 0 ≤ k < 3 →
              load input_image (y * (width * 3) + (3 * x + k)) = Some p →
              load drawn (y * (width * 3) + (3 * x + k))
              = Some (painted class_colour_lookup_ k y x 0 masks p)).
    { intros k p Hk Hp. rewrite Hdrawn, Hp. cbn [fmap option_fmap option_map].
      f_equal.
      apply (drawn_masks_at class_colour_lookup_ masks height width y x k
               Hcols Hy Hx Hk masks 0 p); [lia|lia| |done|by eapply Hbyte].
      intros t Ht. unfold load. rewrite decide_True by lia.
      by rewrite Z.add_0_l, Nat2Z.id. }
    pose proof (Hpainted 0 r ltac:(lia) Hr) as Hr'.
    pose proof (Hpainted 1 g ltac:(lia) Hg) as Hg'.
    pose proof (Hpainted 2 b ltac:(lia) Hb) as Hb'.
    repeat split.
    + rewrite Hload. destruct (Hcell 0) as [p ->]; [lia|].
      cbn [fmap option_fmap option_map]. rewrite packed_image_hit by lia.
      cbv beta zeta. rewrite Hr'. cbn [from_option Datatypes.id].
      by rewrite put_ne, put_eq by lia.
    + rewrite Hload. destruct (Hcell 1) as [p ->]; [lia|].
      cbn [fmap option_fmap option_map]. rewrite packed_image_hit by lia.
      cbv beta zeta. rewrite Hg'. cbn [from_option Datatypes.id].
      by rewrite !put_ne, put_eq by lia.
    + rewrite Hload. destruct (Hcell 2) as [p ->]; [lia|].
      cbn [fmap option_fmap option_map]. rewrite packed_image_hit by lia.
      cbv beta zeta. rewrite Hb'. cbn [from_option Datatypes.id].
      by rewrite !put_ne, put_eq by lia.
    + rewrite Hload. destruct (Hcell 3) as [p ->]; [lia|].
      cbn [fmap option_fmap option_map]. rewrite packed_image_hit by lia.
      cbv beta zeta. by rewrite put_eq.
  - intros j Hj. rewrite Hload.
    destruct (load image_data j) as [p|]; [|done].
    cbn [fmap option_fmap option_map]. by rewrite packed_image_miss.
Qed.
End mask_display.

(** * The properties on concrete inputs *)

Section instances.
Import Float32 Rounding Examples.

(** C5, as stated, fails: on the row (1, 0) and the observation (0, 1)
    the divisor of the renormalisation is exactly 0.0, the division is
    carried out, and the row becomes (NaN, NaN). *)
Lemma renormalisation_divides_by_zero :
  Fusion.total (Fusion.products [one; zero] [zero; one]) = zero
  ∧ Fusion.UpdateSurfelProbabilities collapsing 0 [zero; one]
    = Done (set_class_probabilities_ collapsing [[NaN; NaN]], -1).
Proof. split; reflexivity. Qed.

Lemma renormalisation_divides_by_plain_sum_witness :
  ∃ ret,
    Fusion.UpdateSurfelProbabilities collapsing 0 [zero; one]
    = Done (set_class_probabilities_ collapsing [[NaN; NaN]], ret)
    ∧ ret = -1.
Proof.
  destruct (renormalisation_divides_by_plain_sum collapsing 0 [zero; one] [one; zero])
    as (ret & Hdone & Hzero); [lia|reflexivity|reflexivity|reflexivity|].
  exists ret. split; [exact Hdone|].
  apply Hzero. repeat constructor.
Defined.

(** C6, as stated, fails: classes 0 and 1 share the greatest probability
    and the best class is 1. *)
Lemma argmax_tie_goes_to_class_1 :
  Fusion.fuse_row 2 [half; half] [half; half] = ([half; half], half, 1)
  ∧ Fusion.UpdateSurfelProbabilities tied 0 [half; half]
    = Done (set_class_probabilities_ tied [[half; half]], 1).
Proof. split; reflexivity. Qed.

Lemma argmax_tie_goes_to_highest_index_witness :
  ∃ row' max_prob max_class,
    Fusion.fuse_row 2 [half; half] [half; half] = (row', max_prob, max_class)
    ∧ row' = [half; half]
    ∧ max_class = 1.
Proof.
  destruct (Fusion.fuse_row 2 [half; half] [half; half])
    as [[row' max_prob] max_class] eqn:Hfuse.
  destruct (argmax_tie_goes_to_highest_index 2 [half; half] [half; half]
              row' max_prob max_class eq_refl eq_refl Hfuse)
    as (Hrow & Hcase & _).
  vm_compute in Hrow. subst row'.
  exists (Fusion.renormalised [half; half] [half; half]), max_prob, max_class.
  split; [reflexivity|]. split; [reflexivity|].
  destruct Hcase as [(_ & _ & Hnone)|(k & -> & Hk & _ & Hties)].
  - specialize (Hnone 0%nat _ eq_refl). discriminate Hnone.
  - destruct k as [|[|k]]; [| reflexivity | discriminate Hk].
    injection Hk as <-.
    specialize (Hties 1%nat _ eq_refl eq_refl). lia.
Defined.

(** The greatest entry equals the threshold and the class is returned. *)
Lemma threshold_boundary_is_inclusive_witness :
  ∃ st', Fusion.UpdateSurfelProbabilities at_threshold 0 [one; one; one] = Done (st', 0).
Proof.
  destruct (threshold_boundary_is_inclusive at_threshold 0 [one; one; one]
              [half; quarter; quarter])
    as (row' & max_prob & max_class & ret & Hfuse & _ & Hdone & Hge & _);
    [lia|reflexivity|reflexivity|reflexivity|].
  vm_compute in Hfuse. injection Hfuse as <- <- <-.
  eexists. rewrite Hdone. f_equal. f_equal. apply Hge. reflexivity.
Defined.

(** The inference returned NaN for class 1 of row 0: the cell keeps its
    value. *)
Lemma write_back_filter_witness :
  load (Smoothing.write_back one_row inference_result [quarter; quarter; half]) 1
  = Some quarter.
Proof.
  destruct (write_back_filter one_row inference_result [quarter; quarter; half] 0 1)
    as (r & old & Hr & Hold & _ & Hkept);
    [cbn; lia|reflexivity|reflexivity|cbn; lia|cbn; lia|].
  vm_compute in Hr, Hold. injection Hr as <-. injection Hold as <-.
  apply Hkept. right. right. by left.
Defined.

(** C1, as stated, fails in both halves.  Fusion: the row (1, 0) sums to
    1, the observation (0, 1) is a distribution, both hold probabilities
    only, and after the fusion update the row is (NaN, NaN).  Its sum in
    [float] is NaN, which is within no tolerance of 1.  No entry of it
    denotes a number; with the value 0 that [val] gives a NaN, the bound of
    the amended claim fails as well.  Smoothing: the row (0.5, 0.5) sums
    to 1; the inference returns (0.25, 0.25) for it, the filter accepts
    both values and discards none, and the row of the table becomes
    (0.25, 0.25), whose sum is 0.5 in [float] and in the real numbers. *)
Lemma collapsed_row_does_not_sum_to_one :
  (Fusion.fuse_row 2 [one; zero] [zero; one] = ([NaN; NaN], zero, -1)
   ∧ Forall (λ x, probability x = true) [one; zero]
   ∧ Forall (λ x, probability x = true) [zero; one]
   ∧ Fusion.total [NaN; NaN] = NaN
   ∧ (∀ tol : float32,
        f_le (SFabs (SFsub prec emax (Fusion.total [NaN; NaN]) one)) tol = false)
   ∧ ¬ (Rabs (sum_val [NaN; NaN] - 1) <= IZR 2 * bpow (-21))%R)
  ∧ (Smoothing.table_row 2 1 [half; half] 0 = [Some half; Some half]
     ∧ Fusion.total [half; half] = one
     ∧ Forall (λ r, Smoothing.accepted r = true) [quarter; quarter]
     ∧ Smoothing.table_row 2 1
         (Smoothing.write_back two_classes [quarter; quarter] [half; half]) 0
       = [Some quarter; Some quarter]
     ∧ Fusion.total [quarter; quarter] = half
     ∧ sum_val [quarter; quarter] = (1 / 2)%R
     ∧ ¬ (Rabs (sum_val [quarter; quarter] - 1) <= IZR 2 * bpow (-21))%R).
Proof.
  assert (Hle : (bpow (-21) <= bpow (-3))%R) by (apply bpow_le; lia).
  assert (H8 : bpow (-3) = (/ 8)%R) by (unfold bpow; simpl; lra).
  assert (Hsum : sum_val [quarter; quarter] = (1 / 2)%R).
  { unfold sum_val. cbn [foldr].
    change quarter with (S754_finite false 8388608 (-25)).
    cbn [val]. unfold bpow, powerRZ. simpl. lra. }
  split.
  - split; [reflexivity|]. split; [by repeat constructor|].
    split; [by repeat constructor|]. split; [reflexivity|].
    split; [intros tol; reflexivity|].
    unfold sum_val. cbn [foldr val NaN].
    rewrite Rabs_left by lra. lra.
  - split; [reflexivity|]. split; [reflexivity|].
    split; [by repeat constructor|]. split; [reflexivity|].
    split; [reflexivity|]. split; [exact Hsum|].
    rewrite Hsum, Rabs_left by lra. lra.
Qed.

Lemma updated_row_sums_to_one_witness :
  (Rabs (sum_val (Fusion.fuse_row 2 [half; half] [half; quarter]).1.1 - 1)
   <= IZR 2 * bpow (-21))%R
  ∧ Smoothing.table_row 2 1
      (Smoothing.write_back two_classes inference_inside [half; half]) 0
    = Some <$> inference_inside.
Proof.
  destruct updated_row_sums_to_one as [Hfusion Hsmoothing].
  split.
  - destruct (Fusion.fuse_row 2 [half; half] [half; quarter])
      as [[row' max_prob] max_class] eqn:Hfuse.
    apply (Hfusion 2 [half; half] [half; quarter] row' max_prob max_class);
      [reflexivity|reflexivity|lia| | |reflexivity|exact Hfuse].
    + repeat constructor.
    + repeat constructor.
  - apply (Hsmoothing two_classes inference_inside [half; half] 0
             inference_inside);
      [cbn; lia|reflexivity|reflexivity|cbn; lia|reflexivity|].
    repeat constructor.
Defined.

Lemma synchroniser_without_change_is_noop_witness :
  TableSync.row_cell
    (TableSync.UpdateProbabilityTable
       (TableSync.UpdateProbabilityTable two_rows unchanged_map) unchanged_map) 1 1
  = TableSync.row_cell two_rows 1 1.
Proof.
  destruct (synchroniser_without_change_is_noop two_rows unchanged_map)
    as (_ & _ & _ & _ & Hrows & _).
  - unfold TableSync.invariant, TableSync.table_blob, TableSync.summary_blob.
    cbn. rewrite !length_replicate. lia.
  - reflexivity.
  - reflexivity.
  - apply (Hrows 1 1); cbn; lia.
Defined.

(** C8, as stated, fails: every pixel of the patch shows the valid
    element 1, whose cached class is -1 and whose cached probability is
    0.0; the emitted value is 0, which is neither -1 nor its low 8 bits. *)
Lemma argmax_export_ignores_zero_probability :
  ArgMax.patch_ids raster_of_ones 0 0 = [1; 1; 1; 1]
  ∧ ArgMax.valid_id collapsed_summary 1
  ∧ ArgMax.cached collapsed_summary 1 = Some (zero, minus_one)
  ∧ f_to_int minus_one = -1
  ∧ ArgMax.pixel collapsed_summary raster_of_ones 0 0 = (0, 0, 0)
  ∧ ArgMax.to_uchar (-1) = 255.
Proof.
  split; [vm_compute; reflexivity|].
  split; [cbn; unfold ArgMax.valid_id; cbn; lia|].
  split; [reflexivity|]. split; [reflexivity|].
  split; [vm_compute; reflexivity|reflexivity].
Qed.

Lemma argmax_export_pixel_witness :
  ∃ row,
    ArgMax.SaveArgMaxPredictions confident_summary raster_of_ones !! Z.to_nat 0
    = Some row
    ∧ row !! Z.to_nat 0
      = Some (ArgMax.to_uchar (ArgMax.pixel_class confident_summary raster_of_ones 0 0),
              ArgMax.to_uchar (ArgMax.pixel_class confident_summary raster_of_ones 0 0),
              ArgMax.to_uchar (ArgMax.pixel_class confident_summary raster_of_ones 0 0)).
Proof.
  destruct (argmax_export_pixel confident_summary raster_of_ones 0 0)
    as (Hrow & _); [lia|lia| |cbn; lia|reflexivity|exact Hrow].
  unfold raster_of_ones. rewrite length_replicate. lia.
Defined.

(** C9, as stated, fails: in a row that is an id followed by r, g and b
    the loader takes "3" for the name, 10 for the id, 20 and 30 for r and
    g, and finds no b; nothing is stored at index 3. *)
Lemma bare_row_is_not_stored_by_id :
  ColourScheme.parse_line "3 10 20 30" = ("3"%string, Some 10, Some 20, Some 30, None)
  ∧ ColourScheme.load_colour_scheme_ default_colour bare_colour_file 14 = Undefined.
Proof. split; vm_compute; reflexivity. Qed.

Lemma load_colour_scheme_stores_by_id_witness :
  ∃ v,
    ColourScheme.load_colour_scheme_ default_colour colour_file 3 = Done v
    ∧ ∀ i, 0 ≤ i < 3 →
        v !! Z.to_nat i
        = Some (ColourScheme.colour_of default_colour i (ColourScheme.rows colour_file)).
Proof.
  destruct (load_colour_scheme_stores_by_id default_colour 3 colour_file)
    as (_ & Hrows & _); [lia|].
  apply Hrows.
  set (rs := ColourScheme.rows colour_file). vm_compute in rs. subst rs.
  repeat (constructor; [do 5 eexists; (split; [reflexivity|lia])|]).
  constructor.
Defined.


(** Erasing the positions 5, 2 and 0, in this order. *)
Lemma remove_index_is_repeated_erase_witness :
  RemoveIndex.remove_index [10; 20; 30; 40; 50; 60] [0; 2; 5] = Some [20; 40; 50].
Proof.
  apply (remove_index_is_repeated_erase [10; 20; 30; 40; 50; 60] [0; 2; 5]).
  split; [repeat constructor; lia | repeat constructor; simpl; lia].
Defined.

(** An update of row 1 leaves row 0 as it is. *)
Lemma fusion_update_touches_one_row_witness :
  ∃ st' ret,
    Fusion.UpdateSurfelProbabilities two_table_rows 1 [half; quarter] = Done (st', ret)
    ∧ class_probabilities_ st' !! 0%nat = Some [half; half]
    ∧ length (class_probabilities_ st') = 2%nat.
Proof.
  assert (Hcall : ∃ r, Fusion.UpdateSurfelProbabilities two_table_rows 1
                         [half; quarter] = Done r)
    by (vm_compute; eexists; reflexivity).
  destruct Hcall as [[st' ret] Hcall].
  destruct (fusion_update_touches_one_row two_table_rows st' 1 [half; quarter] ret
              Hcall) as (_ & Hlen & Hframe & _).
  exists st', ret. split; [exact Hcall|].
  split; [|exact Hlen].
  rewrite (Hframe 0%nat); [reflexivity|lia].
Defined.

(** A NaN in the observation of class 0. *)
Lemma nan_poisons_the_row_witness :
  Fusion.UpdateSurfelProbabilities tied 0 [NaN; half]
  = Done (set_class_probabilities_ tied [[NaN; NaN]], -1).
Proof.
  apply (nan_poisons_the_row tied 0 [NaN; half] [half; half] 0);
    [lia|reflexivity|reflexivity|reflexivity|by right].
Defined.

Lemma fused_row_is_a_row_of_numbers_witness :
  ∃ row' max_prob max_class,
    Fusion.fuse_row 2 [half; half] [half; quarter] = (row', max_prob, max_class)
    ∧ Forall (λ q, nonneg_fin q ∧ (val q <= 1 + IZR 2 * bpow (-21))%R) row'
    ∧ 0 ≤ max_class < 2
    ∧ row' !! Z.to_nat max_class = Some max_prob
    ∧ f_gt max_prob zero = true.
Proof.
  destruct (Fusion.fuse_row 2 [half; half] [half; quarter])
    as [[row' max_prob] max_class] eqn:Hfuse.
  exists row', max_prob, max_class. split; [reflexivity|].
  apply (fused_row_is_a_row_of_numbers 2 [half; half] [half; quarter]
           row' max_prob max_class);
    [reflexivity|reflexivity|lia| | |reflexivity|exact Hfuse];
    repeat constructor.
Defined.

(** The observation rules out class 0. *)
Lemma impossible_class_is_never_the_argmax_witness :
  ∃ row' max_prob max_class,
    Fusion.fuse_row 2 [half; half] [zero; half] = (row', max_prob, max_class)
    ∧ (∃ q, row' !! 0%nat = Some q ∧ is_zero q = true)
    ∧ max_class ≠ 0.
Proof.
  destruct (Fusion.fuse_row 2 [half; half] [zero; half])
    as [[row' max_prob] max_class] eqn:Hfuse.
  exists row', max_prob, max_class. split; [reflexivity|].
  apply (impossible_class_is_never_the_argmax 2 [half; half] [zero; half]
           row' max_prob max_class 0 half zero);
    [reflexivity|reflexivity|lia| | |reflexivity|exact Hfuse
    |reflexivity|reflexivity|by right];
    repeat constructor.
Defined.

(** Row 1 is behind the logical width: its cell of class 2 keeps the
    value 1.0. *)
Lemma smoothing_touches_live_rows_only_witness :
  load (Smoothing.write_back one_live_row [half; half; half]
          [quarter; one; quarter; one; half; one]) 5
  = Some one.
Proof.
  destruct (smoothing_touches_live_rows_only one_live_row [half; half; half]
              [quarter; one; quarter; one; half; one]) as [_ Hrows];
    [cbn; lia|reflexivity|reflexivity|].
  apply (Hrows 2 1); cbn; lia.
Defined.

Lemma smoothing_write_back_idempotent_witness :
  Smoothing.write_back one_row inference_result
    (Smoothing.write_back one_row inference_result [quarter; quarter; half])
  = Smoothing.write_back one_row inference_result [quarter; quarter; half].
Proof.
  apply (smoothing_write_back_idempotent one_row inference_result
           [quarter; quarter; half]); [cbn; lia|reflexivity|reflexivity].
Defined.

Lemma smoothing_rejected_result_changes_nothing_witness :
  Smoothing.write_back one_row rejected_result [quarter; quarter; half]
  = [quarter; quarter; half].
Proof.
  apply (smoothing_rejected_result_changes_nothing one_row rejected_result
           [quarter; quarter; half]); [cbn; lia|reflexivity|reflexivity|].
  repeat constructor.
Defined.

(** The four pixels of the patch show element 1; its class is emitted. *)
Lemma argmax_export_prefers_first_visited_witness :
  ∃ (k : nat) p cls,
    ArgMax.candidates confident_summary raster_of_ones 0 0 !! k = Some (p, cls)
    ∧ ArgMax.pixel_class confident_summary raster_of_ones 0 0 = f_to_int cls
    ∧ ∀ (j : nat) pc, (j < k)%nat →
        ArgMax.candidates confident_summary raster_of_ones 0 0 !! j = Some pc →
        f_ge pc.1 p = false.
Proof.
  destruct (argmax_export_prefers_first_visited confident_summary raster_of_ones 0 0)
    as [_ Hsel]; [lia|lia| |cbn; lia|reflexivity|].
  { unfold raster_of_ones. rewrite length_replicate. lia. }
  destruct Hsel as (k & p & cls & Hk & Hclass & Hbefore & _).
  { exists (of_Z2 3 (-2), one). split; [|reflexivity].
    apply list_elem_of_lookup. exists 0%nat. vm_compute. reflexivity. }
  exists k, p, cls. split; [exact Hk|]. split; [exact Hclass|exact Hbefore].
Defined.

(** Another header, the same rows. *)
Lemma colour_scheme_ignores_header_witness :
  ColourScheme.load_colour_scheme_ default_colour
    ("Class colours" +:+ line_feed +:+ "name id r g b" +:+ line_feed
     +:+ "wall 1 10 20 30") 3
  = ColourScheme.load_colour_scheme_ default_colour
      ("" +:+ line_feed +:+ "0 0 0 0 0" +:+ line_feed +:+ "wall 1 10 20 30") 3.
Proof.
  apply (colour_scheme_ignores_header default_colour 3
           "Class colours" "name id r g b" "" "0 0 0 0 0" "wall 1 10 20 30");
    reflexivity.
Defined.

Lemma colour_scheme_negative_id_witness :
  ColourScheme.load_colour_scheme_ default_colour negative_id_file 14 = Undefined.
Proof.
  apply (colour_scheme_negative_id default_colour 14 negative_id_file 1
           "wall" (-1) 10 20 30); [lia| |vm_compute; reflexivity|lia].
  set (rs := take 1 (ColourScheme.rows negative_id_file)). vm_compute in rs. subst rs.
  repeat (constructor; [do 5 eexists; (split; [reflexivity|lia])|]).
  constructor.
Defined.

Lemma colour_scheme_incomplete_row_witness :
  ColourScheme.load_colour_scheme_ default_colour blank_row_file 14 = Undefined.
Proof.
  destruct (colour_scheme_incomplete_row default_colour 14 blank_row_file 1)
    as [_ Hblank]; [lia| |].
  - set (rs := take 1 (ColourScheme.rows blank_row_file)). vm_compute in rs. subst rs.
    repeat (constructor; [do 5 eexists; (split; [reflexivity|lia])|]).
    constructor.
  - apply (Hblank "  "%string); [vm_compute; reflexivity|reflexivity].
Defined.

(** With 64 bits, two pairs that differ in the second component only. *)
Lemma pair_hash_collides_with_its_parts_witness :
  PairHash.hash_pair 64 hash_int hash_int (1, 2)
  ≠ PairHash.hash_pair 64 hash_int hash_int (1, 3).
Proof.
  destruct (pair_hash_collides_with_its_parts 64 ltac:(lia) hash_int hash_int)
    as [_ Hiff].
  - intros a. unfold hash_int. apply Z.mod_pos_bound. lia.
  - intros b. unfold hash_int. apply Z.mod_pos_bound. lia.
  - intros Heq. apply Hiff in Heq. vm_compute in Heq. discriminate Heq.
Defined.

(** A run in which the frames 0, 1 and 2 are tracked and frame 3 is
    lost. *)
Lemma main_1_stops_at_the_first_lost_frame_witness :
  ∃ lookup seen,
    ColourScheme.load_colour_scheme_ default_colour colour_file 14 = Done lookup
    ∧ Main.main_1 colour_file default_colour arguments true
        (λ frame_num, bool_decide (frame_num < 3))
      = Done (seen, 1)
    ∧ length seen = (13 + 3 * 9 + 6)%nat.
Proof.
  destruct (ColourScheme.load_colour_scheme_ default_colour colour_file 14)
    as [lookup| | |] eqn:Hload; try (vm_compute in Hload; discriminate Hload).
  exists lookup. eexists. split; [reflexivity|].
  rewrite (main_1_stops_at_the_first_lost_frame colour_file default_colour
             arguments true (λ frame_num, bool_decide (frame_num < 3))
             lookup "frames.txt" "labels.txt" 3 Hload);
    [|reflexivity|reflexivity|lia| |].
  - split; [reflexivity|]. reflexivity.
  - intros j Hj. apply bool_decide_eq_true. lia.
  - intros _. reflexivity.
Defined.

(** The pixel shows no object. *)
Lemma fuse_display_needs_an_object_at_every_pixel_witness :
  Display.displayInstanceFusePredictions [red] one_pixel 1 1 [zero] five_floats
  = Undefined.
Proof.
  apply (fuse_display_needs_an_object_at_every_pixel [red] one_pixel 1 1 [zero]
           five_floats 0 0 zero); [lia|lia|reflexivity|].
  cbn. lia.
Defined.

(** The pixel shows object 1; the fifth float is behind the image. *)
Lemma fuse_display_blends_every_pixel_witness :
  ∃ image,
    Display.displayInstanceFusePredictions [red] one_pixel 1 1 [one] five_floats
    = Done image
    ∧ load image 3 = Some one
    ∧ load image 4 = Some half.
Proof.
  assert (Hone : f_to_int one = 1) by (vm_compute; reflexivity).
  destruct (fuse_display_blends_every_pixel [red] one_pixel 1 1 [one] five_floats)
    as (image & Hdone & _ & Hpixels & Hframe); [lia|lia|cbn; lia|cbn; lia| |].
  - intros k Hk. assert (k = 0) as -> by lia. exists one.
    split; [reflexivity|]. rewrite Hone. cbn. lia.
  - exists image. split; [exact Hdone|]. split.
    + destruct (Hpixels 0 0)
        as (r & g & b & obj & colour & _ & _ & _ & _ & _ & _ & _ & _ & Ha);
        [lia|lia|]. exact Ha.
    + rewrite Hframe by lia. reflexivity.
Defined.

(** One mask and one colour: the colour of the mask would be the
    second. *)
Lemma mask_display_needs_a_colour_behind_every_mask_witness :
  Display.displayInstancePredictions [red] one_pixel 1 1 [pixel_mask] five_floats
  = Undefined.
Proof.
  apply (mask_display_needs_a_colour_behind_every_mask [red] one_pixel 1 1
           [pixel_mask] five_floats 0 pixel_mask);
    [lia|lia|reflexivity|cbn; lia|cbn; lia|cbn; lia].
Defined.

(** One mask and two colours. *)
Lemma mask_display_paints_in_order_witness :
  ∃ image,
    Display.displayInstancePredictions [red; green] one_pixel 1 1 [pixel_mask]
      five_floats
    = Done image
    ∧ load image 3 = Some one
    ∧ load image 4 = Some half.
Proof.
  destruct (mask_display_paints_in_order [red; green] one_pixel 1 1 [pixel_mask]
              five_floats)
    as (image & Hdone & _ & Hpixels & Hframe);
    [lia|lia|cbn; lia| |cbn; lia| |cbn; lia| |].
  - repeat constructor; unfold Display.byte; lia.
  - repeat constructor; unfold Display.byte; cbn; lia.
  - constructor; [|constructor]. unfold Display.fits. cbn.
    split; [lia|]. split; [lia|]. split; [lia|]. split; [lia|].
    split; [repeat constructor; unfold Display.byte; lia|].
    intros h w Hh Hw. assert (h = 0) as -> by lia. assert (w = 0) as -> by lia.
    by eexists.
  - exists image. split; [exact Hdone|]. split.
    + destruct (Hpixels 0 0) as (r & g & b & _ & _ & _ & _ & _ & _ & Ha);
        [lia|lia|]. exact Ha.
    + rewrite Hframe by lia. reflexivity.
Defined.
End instances.
